(** * Training a feed-forward classifier: the notebook's training step and loop

    A shallow embedding of [3_Training_Neural_Networks.ipynb].  The notebook
    is a sequence of cells that call into PyTorch: it builds [nn.Sequential]
    models, evaluates a criterion, runs [loss.backward()], and drives an
    [optim.SGD] optimizer inside two nested [for] loops.

    The cells are embedded as programs of a small free monad whose events
    are the library calls the cells make.  The library itself is given by a
    handler over an explicit object store (parameters with their gradient
    buffers, the tensors produced by forward passes, the default random
    generator and the standard output).  Scalars are real numbers. *)

From Stdlib Require Import Reals Lra Lia.
From stdpp Require Import base list option.

(** ** Tensors

    A two-dimensional tensor is a list of rows.  A bias vector is kept as a
    tensor with a single row. *)

Module Tensor.
Local Open Scope R_scope.

Abbreviation matrix := (list (list R)).

(** [t.shape], as the list of the row lengths. *)
Definition shape (m : matrix) : list nat := length <$> m.

(** [torch.zeros_like(t)], also the result of [t.zero_()]. *)
Definition zeros_like (m : matrix) : matrix := (λ row : list R, (λ _, 0) <$> row) <$> m.

(** Element-wise binary operation on two tensors. *)
Definition pointwise (f : R → R → R) (a b : matrix) : matrix :=
  zip_with (zip_with f) a b.

(** The tensor that has the shape of [m] and entry [f i j] at row [i],
    column [j]. *)
Definition tabulate_like (f : nat → nat → R) (m : matrix) : matrix :=
  imap (λ i row, imap (λ j _, f i j) row) m.

Definition all_zero (m : matrix) : Prop := Forall (Forall (eq 0)) m.

Definition sum_list (l : list R) : R := foldr Rplus 0 l.

Definition dot (u v : list R) : R := sum_list (zip_with Rmult u v).

(** The largest entry of a row (the value on the empty row is never used). *)
Definition max_list (l : list R) : R := foldr Rmax (hd 0 l) l.

(** [t.view(t.shape[0], -1)] on a batch of images, each image a
    channel-by-row-by-column nest: every example is flattened to one row.
    With no example the size [-1] stands for is ambiguous and PyTorch
    raises; [None] stands for that [RuntimeError]. *)
Abbreviation image := (list (list (list R))).

Definition view (images : list image) : option matrix :=
  match images with
  | [] => None
  | _ => Some ((λ img, concat (concat img)) <$> images)
  end.

(** [t.resize_(rows, cols)] where the storage of [t] is long enough: its
    first [rows * cols] entries, regrouped in rows of [cols] entries.
    [None] when the storage is too short: PyTorch then grows it, see
    [resized] below. *)
Fixpoint rows_of (rows cols : nat) (storage : list R) : matrix :=
  match rows with
  | O => []
  | S n => take cols storage :: rows_of n cols (drop cols storage)
  end.

Definition resize_ (rows cols : nat) (images : list image) : option matrix :=
  let storage := concat ((λ img, concat (concat img)) <$> images) in
  if decide (rows * cols ≤ length storage)%nat
  then Some (rows_of rows cols storage) else None.

End Tensor.
Export Tensor.

(** ** Layers and criteria

    Modelled from the spec: the forward computations of [nn.Linear],
    [nn.ReLU], [nn.LogSoftmax(dim=1)], and the criteria [nn.NLLLoss] and
    [nn.CrossEntropyLoss] belong to PyTorch, which is not part of the
    notebook.  They follow section 4.1 of the specification (linear
    transform, non-linear activation, log-normalisation stabilised by
    subtracting the row maximum before exponentiating, mean over the batch
    of the negated log-probability of the true class). *)

Module Layers.
Local Open Scope R_scope.

Inductive layer :=
  | Linear (in_features out_features : nat)
  | ReLU
  | LogSoftmax.

(** Modelled from the spec: [F.linear(x, W, b)], one output per row of [W].
    The input rows must have [in_features] entries; the weight has
    [out_features] rows of [in_features] entries and the bias
    [out_features] entries.  [None] is the shape error. *)
Definition linear (i o : nat) (W b : matrix) (x : matrix) : option matrix :=
  if decide (shape W = replicate o i ∧ shape b = [o] ∧ shape x = replicate (length x) i)
  then Some ((λ row, zip_with (λ wrow bj, dot wrow row + bj) W (concat b)) <$> x)
  else None.

(** Modelled from the spec: [nn.ReLU], the fixed non-linear activation,
    applied to every entry. *)
Definition relu (x : matrix) : matrix := (λ row : list R, Rmax 0 <$> row) <$> x.

(** Modelled from the spec: log-softmax of one row, stabilised by
    subtracting the maximum of the row before exponentiating. *)
Definition log_softmax_row (row : list R) : list R :=
  let m := max_list row in
  let lse := ln (sum_list ((λ x, exp (x - m)) <$> row)) in
  (λ x, x - m - lse) <$> row.

(** Modelled from the spec: [nn.LogSoftmax(dim=1)], every row normalised
    on its own. *)
Definition log_softmax (x : matrix) : matrix := log_softmax_row <$> x.

(** The softmax probability of class [y]: what the log-normalised entry
    is the logarithm of (section 4.1 of the specification). *)
Definition softmax_probability (row : list R) (y : nat) : option R :=
  (λ xy, exp xy / sum_list (exp <$> row)) <$> row !! y.

(** Modelled from the spec: the forward pass of [nn.Sequential], the
    layers in order, every [Linear] taking its weight and bias from the
    front of the parameter values [θ]. *)
Fixpoint forward (arch : list layer) (θ : list matrix) (x : matrix) : option matrix :=
  match arch with
  | [] => Some x
  | Linear i o :: arch' =>
      match θ with
      | W :: b :: θ' => linear i o W b x ≫= forward arch' θ'
      | _ => None
      end
  | ReLU :: arch' => forward arch' θ (relu x)
  | LogSoftmax :: arch' => forward arch' θ (log_softmax x)
  end.

Inductive criterion := NLLLoss | CrossEntropyLoss.

(** Python exceptions the cells can meet. *)
Inductive exn :=
  | ValueError | IndexError | RuntimeError | ZeroDivisionError | StopIteration
  | AttributeError.

(** Modelled from the spec: the penalty of one example under
    [nn.NLLLoss], the negated entry of the true class. *)
Definition nll_example (row : list R) (y : nat) : option R :=
  Ropp <$> row !! y.

(** Modelled from the spec: the penalty of one example under
    [nn.CrossEntropyLoss]; the row of raw scores is log-normalised, then
    the entry of the true class is negated. *)
Definition cross_entropy_example (row : list R) (y : nat) : option R :=
  Ropp <$> log_softmax_row row !! y.

Definition example_loss (c : criterion) : list R → nat → option R :=
  match c with
  | NLLLoss => nll_example
  | CrossEntropyLoss => cross_entropy_example
  end.

(** Modelled from the spec: [criterion(input, target)] with the default
    mean reduction.  A batch-size mismatch is a [ValueError], a label
    outside the classes an [IndexError].  On an empty batch PyTorch returns
    [nan], which has no real-number counterpart: the model raises
    [RuntimeError] there (no cell reaches that case, [view] rejects an
    empty batch first). *)
Definition loss_value (c : criterion) (input : matrix) (target : list nat) : exn + R :=
  if decide (length input ≠ length target) then inl ValueError
  else if decide (input = []) then inl RuntimeError
  else match mapM (λ p, example_loss c p.1 p.2) (zip input target) with
       | None => inl IndexError
       | Some losses => inr (sum_list losses / INR (length input))
       end.

End Layers.
Export Layers.

(** ** The object store

    The parameters are shared objects: the model and the optimizer both hold
    references to them, [loss.backward()] reaches them through the graph
    recorded by the forward pass.  The store keeps every [nn.Parameter]
    ever created, with its gradient buffer, and every tensor a forward pass
    or a criterion produced, with what autograd recorded for it. *)

Abbreviation ref := nat.

Record parameter := Param {
  data : matrix;
  grad : option matrix;       (* [None] until a backward pass reaches it *)
}.

(** An [nn.Sequential]: its layers and its parameters, in the order of
    [model.parameters()]. *)
Record sequential := Sequential {
  arch : list layer;
  parameters : list ref;
}.

(** [optim.SGD(params, lr=...)] with the defaults of every other option
    (no momentum, no dampening, no weight decay). *)
Record optimizer := SGD {
  param_group : list ref;
  lr : R;
}.

(** What autograd records for the output of [model(input)]: the layers,
    the parameters they read, the values these had and the input.
    (PyTorch also refuses a backward pass when a recorded parameter was
    updated in place since the forward pass; no cell does that, and the
    check is left out.) *)
Record graph := Graph {
  g_arch : list layer;
  g_parameters : list ref;
  g_theta : list matrix;
  g_input : matrix;
}.

Inductive node :=
  | Activation (value : matrix) (grad_fn : graph)
  | Scalar (value : R) (grad_fn : option (graph * criterion * list nat)).

Inductive printed :=
  | TrainingLoss (v : R)                      (* f"Training loss: {v}" *)
  | ShowLoss (v : R)                          (* print(loss) *)
  | ShowTensor (t : option matrix).           (* print(label, tensor) *)

Abbreviation batch := (list image * list nat)%type.

(** The external collaborators of the notebook, kept abstract:
    - [G], the state of PyTorch's default random generator, and
      [next_weight g fan_in], one draw of an initial entry for a layer with
      [fan_in] inputs together with the advanced state;
    - [autograd], the gradient engine: the partial derivative of
      [criterion(forward arch θ x), y] in entry [(i, j)] of the [k]-th
      parameter;
    - [set_to_none], the default of [optimizer.zero_grad]: gradient buffers
      are dropped ([True], PyTorch 2) or zeroed in place ([False]);
    - [uninitialized k], what freshly allocated memory holds at offset [k]
      of a storage that [resize_] has grown: nothing is known of it. *)
Class Torch := {
  G : Type;
  next_weight : G → nat → R * G;
  autograd :
    list layer → list matrix → matrix → criterion → list nat → nat → nat → nat → R;
  set_to_none : bool;
  uninitialized : nat → R;
}.

Section Notebook.
Context `{Torch}.

(** A [DataLoader]: [len(loader)] and one traversal, which yields the
    batches in order and advances the generator (when it shuffles). *)
Record DataLoader := {
  len : nat;
  traverse : G → list batch * G;
}.

Record world := World {
  generator : G;
  params : list parameter;
  tensors : list node;
  stdout : list printed;
}.

(** *** Library calls *)

Inductive event : Type → Type :=
  | NewSequential (layers : list layer) : event sequential
  | Iter (loader : DataLoader) : event (list batch)
  | Forward (model : sequential) (input : matrix) : event ref
  | Criterion (c : criterion) (output : ref) (target : list nat) : event ref
  | Backward (loss : ref) : event unit
  | ZeroGrad (o : optimizer) : event unit
  | Step (o : optimizer) : event unit
  | Item (t : ref) : event R
  | GetGrad (p : ref) : event (option matrix)
  | GetData (p : ref) : event (option matrix)
  | Print (p : printed) : event unit.

(** *** Handlers *)

Local Open Scope R_scope.

Fixpoint draws (n fan_in : nat) (g : G) : list R * G :=
  match n with
  | O => ([], g)
  | S n' => let '(x, g1) := next_weight g fan_in in
            let '(xs, g2) := draws n' fan_in g1 in
            (x :: xs, g2)
  end.

Fixpoint draw_rows (rows cols fan_in : nat) (g : G) : matrix * G :=
  match rows with
  | O => ([], g)
  | S rows' => let '(r, g1) := draws cols fan_in g in
               let '(rs, g2) := draw_rows rows' cols fan_in g1 in
               (r :: rs, g2)
  end.

(** The initial values of the parameters of a model, layer by layer:
    weight ([out_features] rows of [in_features] entries), then bias. *)
Fixpoint init_parameters (layers : list layer) (g : G) : list matrix * G :=
  match layers with
  | [] => ([], g)
  | Linear i o :: layers' =>
      let '(W, g1) := draw_rows o i i g in
      let '(b, g2) := draws o i g1 in
      let '(θ, g3) := init_parameters layers' g2 in
      (W :: [b] :: θ, g3)
  | _ :: layers' => init_parameters layers' g
  end.

(** The place of a reference in a list of references. *)
Definition position (r : ref) (refs : list ref) : option nat :=
  fst <$> list_find (eq r) refs.

(** Update in place the parameters [refs] point to: the [k]-th of them
    by [f k]. Every other parameter is left alone. *)
Definition on_params (refs : list ref) (f : nat → parameter → parameter)
    (ps : list parameter) : list parameter :=
  imap (λ r p, match position r refs with Some k => f k p | None => p end) ps.

(** The gradient of one parameter, in the shape of that parameter. *)
Definition gradient_of (gr : graph) (c : criterion) (y : list nat) (k : nat)
    (d : matrix) : matrix :=
  tabulate_like (autograd (g_arch gr) (g_theta gr) (g_input gr) c y k) d.

(** Modelled from the spec: what [loss.backward()] does to one parameter.
    The new gradient is added onto the buffer; a buffer that does not
    exist yet is created holding the new gradient. *)
Definition accumulate (gr : graph) (c : criterion) (y : list nat) (k : nat)
    (p : parameter) : parameter :=
  let g := gradient_of gr c y k (data p) in
  Param (data p)
    (Some (match grad p with
           | None => g
           | Some g0 => pointwise Rplus g0 g
           end)).

(** Modelled from the spec: what [optimizer.zero_grad()] does to one
    parameter. *)
Definition clear_grad (p : parameter) : parameter :=
  Param (data p) (if set_to_none then None else zeros_like <$> grad p).

(** Modelled from the spec: what [optimizer.step()] of plain SGD does to
    one parameter, [p.add_(p.grad, alpha=-lr)].  A parameter without
    gradient buffer is skipped. *)
Definition sgd_step (rate : R) (p : parameter) : parameter :=
  match grad p with
  | None => p
  | Some g => Param (pointwise (λ x dx, x + (- rate) * dx) (data p) g) (Some g)
  end.

Definition read_data (ps : list parameter) (refs : list ref) : option (list matrix) :=
  mapM (λ r, data <$> ps !! r) refs.

(** Modelled from the spec: what each library call does to the store and
    what it returns, or the exception it raises; the calls are PyTorch's,
    which is not part of the notebook.  A call that raises leaves the
    store as it was. *)
Definition handle {X} (e : event X) (w : world) : (exn + X) * world :=
  match e in event X return (exn + X) * world with
  | NewSequential layers =>
      let '(θ, g) := init_parameters layers (generator w) in
      let refs := seq (length (params w)) (length θ) in
      (inr (Sequential layers refs),
       World g (params w ++ ((λ d, Param d None) <$> θ)) (tensors w) (stdout w))
  | Iter loader =>
      let '(batches, g) := traverse loader (generator w) in
      (inr batches, World g (params w) (tensors w) (stdout w))
  | Forward model input =>
      match read_data (params w) (parameters model) with
      | None => (inl RuntimeError, w)
      | Some θ =>
          match forward (arch model) θ input with
          | None => (inl RuntimeError, w)
          | Some v =>
              (inr (length (tensors w)),
               World (generator w) (params w)
                 (tensors w ++ [Activation v (Graph (arch model) (parameters model) θ input)])
                 (stdout w))
          end
      end
  | Criterion c output target =>
      match tensors w !! output with
      | Some (Activation v gr) =>
          match loss_value c v target with
          | inl ex => (inl ex, w)
          | inr l =>
              (inr (length (tensors w)),
               World (generator w) (params w)
                 (tensors w ++ [Scalar l (Some (gr, c, target))]) (stdout w))
          end
      | _ => (inl RuntimeError, w)
      end
  | Backward loss =>
      match tensors w !! loss with
      | Some (Scalar l (Some (gr, c, y))) =>
          (inr (),
           World (generator w)
             (on_params (g_parameters gr) (accumulate gr c y) (params w))
             (<[loss := Scalar l None]> (tensors w)) (stdout w))
      | _ => (inl RuntimeError, w)
      end
  | ZeroGrad o =>
      (inr (),
       World (generator w) (on_params (param_group o) (λ _, clear_grad) (params w))
         (tensors w) (stdout w))
  | Step o =>
      (inr (),
       World (generator w) (on_params (param_group o) (λ _, sgd_step (lr o)) (params w))
         (tensors w) (stdout w))
  | Item t =>
      match tensors w !! t with
      | Some (Scalar l _) => (inr l, w)
      | _ => (inl RuntimeError, w)
      end
  | GetGrad p => (inr (params w !! p ≫= grad), w)
  | GetData p => (inr (data <$> params w !! p), w)
  | Print p =>
      (inr (), World (generator w) (params w) (tensors w) (stdout w ++ [p]))
  end.

(** *** Programs *)

Inductive prog (A : Type) : Type :=
  | Ret (a : A)
  | Raise (e : exn)
  | Vis {X : Type} (e : event X) (k : X → prog A).
Arguments Ret {A} a.
Arguments Raise {A} e.
Arguments Vis {A X} e k.

Fixpoint bind {A B} (p : prog A) (k : A → prog B) : prog B :=
  match p with
  | Ret a => k a
  | Raise e => Raise e
  | Vis e k' => Vis e (λ x, bind (k' x) k)
  end.

#[global] Instance prog_ret : MRet prog := @Ret.
#[global] Instance prog_bind : MBind prog := λ A B k p, bind p k.

Definition call {X} (e : event X) : prog X := Vis e Ret.

(** A completed library call, with what it returned. *)
Inductive called :=
  | Called {X : Type} (e : event X) (result : X).

(** Running a program: the completed calls in order, the result or the
    exception that ended the run, and the final store. *)
Fixpoint exec {A} (p : prog A) (w : world) : list called * (exn + A) * world :=
  match p with
  | Ret a => ([], inr a, w)
  | Raise e => ([], inl e, w)
  | Vis e k =>
      match handle e w with
      | (inl ex, w') => ([], inl ex, w')
      | (inr x, w') =>
          let '(t, r, w'') := exec (k x) w' in (Called e x :: t, r, w'')
      end
  end.

(** [for x in l: s = body(s, x)] *)
Fixpoint for_each {A S} (body : S → A → prog S) (s : S) (l : list A) : prog S :=
  match l with
  | [] => Ret s
  | a :: l' => s' ← body s a; for_each body s' l'
  end.

(** [for _ in range(n): body] *)
Fixpoint for_range (n : nat) (body : prog unit) : prog unit :=
  match n with
  | O => Ret ()
  | S n' => body;; for_range n' body
  end.

(** Python's [a / n] for a float and an integer. *)
Definition true_div (a : R) (n : nat) : prog R :=
  if decide (n = 0%nat) then Raise ZeroDivisionError else Ret (a / INR n).

Definition or_raise {A} (e : exn) (o : option A) : prog A :=
  match o with Some a => Ret a | None => Raise e end.

(** ** The cells of the notebook

    The names bound by one cell and used by a later one ([model],
    [criterion], [optimizer], [loss]) are passed along as arguments and
    results. *)

Definition first_batch (dataiter : list batch) : prog batch :=
  or_raise StopIteration (head dataiter).

(** [model[0].weight].  When the first layer is [nn.Linear] its weight is
    the first of [model.parameters()].  An activation has no attribute
    [weight], and an empty [nn.Sequential] has no layer 0. *)
Definition first_weight (model : sequential) : prog ref :=
  match arch model with
  | [] => Raise IndexError
  | Linear _ _ :: _ => or_raise IndexError (head (parameters model))
  | _ :: _ => Raise AttributeError
  end.

(** [images.resize_(rows, cols)], in place.  A storage that is too short
    is grown, and the new entries hold whatever the fresh memory holds. *)
Definition resized (rows cols : nat) (images : list image) : matrix :=
  match resize_ rows cols images with
  | Some x => x
  | None =>
      let storage := concat ((λ img, concat (concat img)) <$> images) in
      rows_of rows cols
        (storage ++
         (uninitialized <$> seq (length storage) (rows * cols - length storage)))
  end.

(** Cell 5: raw scores and [nn.CrossEntropyLoss]. *)
Definition cell_5_layers : list layer :=
  [Linear 784 128; ReLU; Linear 128 64; ReLU; Linear 64 10].

Definition cell_5 (trainloader : DataLoader) : prog ref :=
  model ← call (NewSequential cell_5_layers);
  let crit := CrossEntropyLoss in
  dataiter ← call (Iter trainloader);
  '(images, labels) ← first_batch dataiter;
  images ← or_raise RuntimeError (view images);
  logits ← call (Forward model images);
  loss ← call (Criterion crit logits labels);
  l ← call (Item loss);
  call (Print (ShowLoss l));;
  mret loss.

(** Cell 21: log-probabilities and [nn.NLLLoss]. *)
Definition cell_21_layers : list layer :=
  [Linear 784 128; ReLU; Linear 128 64; ReLU; Linear 64 10; LogSoftmax].

Definition cell_21 (trainloader : DataLoader) : prog (sequential * ref) :=
  model ← call (NewSequential cell_21_layers);
  let crit := NLLLoss in
  dataiter ← call (Iter trainloader);
  '(images, labels) ← first_batch dataiter;
  images ← or_raise RuntimeError (view images);
  logits ← call (Forward model images);
  loss ← call (Criterion crit logits labels);
  mret (model, loss).

(** Cell 22: the gradient of the first weight before and after
    [loss.backward()]. *)
Definition cell_22 (model : sequential) (loss : ref) : prog unit :=
  weight ← first_weight model;
  before ← call (GetGrad weight);
  call (Print (ShowTensor before));;
  call (Backward loss);;
  after ← call (GetGrad weight);
  call (Print (ShowTensor after)).

(** Cell 24: [optimizer = optim.SGD(model.parameters(), lr=0.01)]. *)
Definition cell_24 (model : sequential) : optimizer :=
  SGD (parameters model) 0.01.

(** Cells 26 and 27: one training step, printing the weights and the
    gradient on the way. *)
Definition cell_26 (model : sequential) (crit : criterion) (opt : optimizer)
    (trainloader : DataLoader) : prog ref :=
  weight ← first_weight model;
  initial ← call (GetData weight);
  call (Print (ShowTensor initial));;
  dataiter ← call (Iter trainloader);
  '(images, labels) ← first_batch dataiter;
  let images := resized 64 784 images in
  call (ZeroGrad opt);;
  output ← call (Forward model images);
  loss ← call (Criterion crit output labels);
  call (Backward loss);;
  gradient ← call (GetGrad weight);
  call (Print (ShowTensor gradient));;
  mret loss.

Definition cell_27 (model : sequential) (opt : optimizer) : prog unit :=
  call (Step opt);;
  weight ← first_weight model;
  updated ← call (GetData weight);
  call (Print (ShowTensor updated)).

Definition cells_26_27 (model : sequential) (crit : criterion) (opt : optimizer)
    (trainloader : DataLoader) : prog ref :=
  loss ← cell_26 model crit opt trainloader;
  cell_27 model opt;;
  mret loss.

(** Cell 29.  The training pass of one batch: *)
Definition training_pass (model : sequential) (crit : criterion) (opt : optimizer)
    (images : matrix) (labels : list nat) : prog ref :=
  call (ZeroGrad opt);;                           (* optimizer.zero_grad() *)
  output ← call (Forward model images);           (* output = model(images) *)
  loss ← call (Criterion crit output labels);     (* loss = criterion(output, labels) *)
  call (Backward loss);;                          (* loss.backward() *)
  call (Step opt);;                               (* optimizer.step() *)
  mret loss.

(** The body of the inner loop: flatten, training pass,
    [running_loss += loss.item()]. *)
Definition batch_body (model : sequential) (crit : criterion) (opt : optimizer)
    (running_loss : R) (b : batch) : prog R :=
  let '(images, labels) := b in
  images ← or_raise RuntimeError (view images);
  loss ← training_pass model crit opt images labels;
  l ← call (Item loss);
  mret (running_loss + l).

(** The body of the outer loop.  The inner [for] has no [break], so its
    [else] branch always runs when the traversal is over. *)
Definition epoch (model : sequential) (crit : criterion) (opt : optimizer)
    (trainloader : DataLoader) : prog unit :=
  batches ← call (Iter trainloader);
  running_loss ← for_each (batch_body model crit opt) 0 batches;
  mean ← true_div running_loss (len trainloader);
  call (Print (TrainingLoss mean)).

Definition training_loop (epochs : nat) (model : sequential) (crit : criterion)
    (opt : optimizer) (trainloader : DataLoader) : prog unit :=
  for_range epochs (epoch model crit opt trainloader).

(** The whole cell, for any layers, learning rate and number of epochs. *)
Definition train_from_scratch (layers : list layer) (rate : R) (epochs : nat)
    (trainloader : DataLoader) : prog sequential :=
  model ← call (NewSequential layers);
  let crit := NLLLoss in
  let opt := SGD (parameters model) rate in
  training_loop epochs model crit opt trainloader;;
  mret model.

Definition cell_29 (trainloader : DataLoader) : prog sequential :=
  train_from_scratch cell_21_layers 0.003 5 trainloader.

(** ** A functional reading of the training pass

    What one pass computes, as a function of the parameter values alone:
    the gradients the engine returns, the descent step in the words of the
    specification (subtract learning rate times gradient, element-wise) and
    the loss of the batch. *)

Definition gradients (layers : list layer) (θ : list matrix) (x : matrix)
    (c : criterion) (y : list nat) : list matrix :=
  imap (λ k d, tabulate_like (autograd layers θ x c y k) d) θ.

Definition descend (rate : R) (θ grads : list matrix) : list matrix :=
  zip_with (pointwise (λ x dx, x - rate * dx)) θ grads.

Definition loss_at (layers : list layer) (c : criterion) (θ : list matrix)
    (x : matrix) (y : list nat) : option R :=
  forward layers θ x ≫= λ out,
  match loss_value c out y with inr l => Some l | inl _ => None end.

Definition pass_result (layers : list layer) (c : criterion) (rate : R)
    (θ : list matrix) (b : batch) : option (list matrix * R) :=
  view b.1 ≫= λ x,
  loss_at layers c θ x b.2 ≫= λ l,
  Some (descend rate θ (gradients layers θ x c b.2), l).

Fixpoint epoch_result (layers : list layer) (c : criterion) (rate : R)
    (θ : list matrix) (running_loss : R) (bs : list batch) : option (list matrix * R) :=
  match bs with
  | [] => Some (θ, running_loss)
  | b :: bs' =>
      pass_result layers c rate θ b ≫= λ r,
      epoch_result layers c rate r.1 (running_loss + r.2) bs'
  end.

Fixpoint training_result (layers : list layer) (c : criterion) (rate : R)
    (loader : DataLoader) (epochs : nat) (θ : list matrix) (g : G)
    : option (list matrix * G * list R) :=
  match epochs with
  | O => Some (θ, g, [])
  | S n =>
      epoch_result layers c rate θ 0 (traverse loader g).1 ≫= λ r,
      if decide (len loader = 0%nat) then None
      else training_result layers c rate loader n r.1 (traverse loader g).2 ≫= λ s,
           Some (s.1.1, s.1.2, r.2 / INR (len loader) :: s.2)
  end.

(** ** Reading a run *)

(** The values [loss.item()] returned, in order. *)
Definition item_of (c : called) : option R :=
  match c with
  | Called e r =>
      match e in event X return X → option R with
      | Item _ => λ l, Some l
      | _ => λ _, None
      end r
  end.
Definition items (t : list called) : list R := omap item_of t.

(** The traversals of the loader that were started, with their batches. *)
Definition traversal_of (c : called) : option (list batch) :=
  match c with
  | Called e r =>
      match e in event X return X → option (list batch) with
      | Iter _ => λ bs, Some bs
      | _ => λ _, None
      end r
  end.
Definition traversals (t : list called) : list (list batch) := omap traversal_of t.

(** The inputs of the forward passes, in order. *)
Definition forwarded_of (c : called) : option matrix :=
  match c with
  | Called (Forward _ x) _ => Some x
  | _ => None
  end.
Definition forwarded (t : list called) : list matrix := omap forwarded_of t.

(** What was printed, in order. *)
Definition printed_of (c : called) : option printed :=
  match c with
  | Called (Print p) _ => Some p
  | _ => None
  end.
Definition prints (t : list called) : list printed := omap printed_of t.

(** The five stages of a training step. *)
Definition is_stage (c : called) : bool :=
  match c with
  | Called (ZeroGrad _) _ | Called (Forward _ _) _ | Called (Criterion _ _ _) _
  | Called (Backward _) _ | Called (Step _) _ => true
  | _ => false
  end.

Definition is_backward (c : called) : bool :=
  match c with Called (Backward _) _ => true | _ => false end.

Definition is_zero_grad (c : called) : bool :=
  match c with Called (ZeroGrad _) _ => true | _ => false end.

(** The values of the parameters of a model, and their gradient buffers. *)
Definition parameter_values (w : world) (m : sequential) : option (list matrix) :=
  read_data (params w) (parameters m).

Definition gradient_buffers (w : world) (refs : list ref) : list (option matrix) :=
  (λ r, params w !! r ≫= grad) <$> refs.

(** A gradient buffer that holds no accumulated gradient: absent, or zero
    everywhere. *)
Definition cleared (g : option matrix) : Prop :=
  match g with None => True | Some z => all_zero z end.

(** ** Well-formed stores and batches *)

(** The parameters of [m] are distinct objects of the store, their values
    are [θ], and a gradient buffer has the shape of its parameter. *)
Definition holds (w : world) (m : sequential) (θ : list matrix) : Prop :=
  NoDup (parameters m) ∧
  Forall2 (λ r d, ∃ g, params w !! r = Some (Param d g) ∧
                       ∀ g0, g = Some g0 → shape g0 = shape d)
          (parameters m) θ.

(** The width of the output of the layers on inputs of the given width,
    when the shapes of the parameters fit the layers. *)
Fixpoint fits (layers : list layer) (shapes : list (list nat)) (width : nat) : option nat :=
  match layers with
  | [] => Some width
  | Linear i o :: layers' =>
      match shapes with
      | sW :: sb :: shapes' =>
          if decide (sW = replicate o i ∧ sb = [o] ∧ width = i)
          then fits layers' shapes' o else None
      | _ => None
      end
  | _ :: layers' => fits layers' shapes width
  end.

(** The shapes [nn.Sequential] creates its parameters with. *)
Fixpoint layer_shapes (layers : list layer) : list (list nat) :=
  match layers with
  | [] => []
  | Linear i o :: layers' => replicate o i :: [o] :: layer_shapes layers'
  | _ :: layers' => layer_shapes layers'
  end.

(** A batch as the data model has it: at least one example, every image
    of [width] pixels, one label per image, every label a class index. *)
Definition batch_ok (width classes : nat) (b : batch) : Prop :=
  b.1 ≠ [] ∧
  Forall (λ img : image, length (concat (concat img)) = width) b.1 ∧
  length b.2 = length b.1 ∧
  Forall (λ y, y < classes)%nat b.2.

(** [len(loader)] is the number of batches of every traversal. *)
Definition len_ok (loader : DataLoader) : Prop :=
  ∀ g, length (traverse loader g).1 = len loader.

(** Every traversal of the loader yields [len(loader)] well-formed batches. *)
Definition loader_ok (width classes : nat) (loader : DataLoader) : Prop :=
  len_ok loader ∧
  ∀ g, Forall (batch_ok width classes) (traverse loader g).1.

(** The store after the training pass of one batch. *)
Definition after_pass (m : sequential) (c : criterion) (rate : R)
    (x : matrix) (y : list nat) (θ : list matrix) (out : matrix) (l : R)
    (w : world) : world :=
  let gr := Graph (arch m) (parameters m) θ x in
  World (generator w)
    (on_params (parameters m) (λ _, sgd_step rate)
       (on_params (parameters m) (accumulate gr c y)
          (on_params (parameters m) (λ _, clear_grad) (params w))))
    (tensors w ++ [Activation out gr; Scalar l None])
    (stdout w).

(** The store right after [nn.Sequential(...)], and the new model. *)
Definition constructed (layers : list layer) (w : world) : sequential * world :=
  let θ := (init_parameters layers (generator w)).1 in
  (Sequential layers (seq (length (params w)) (length θ)),
   World (init_parameters layers (generator w)).2
     (params w ++ ((λ d, Param d None) <$> θ)) (tensors w) (stdout w)).

(** The completed calls of the inner loop on one batch: the five stages of
    the training step in order, every stage fed with what the one before
    returned, then [loss.item()]. *)
Definition pass_block (m : sequential) (c : criterion) (opt : optimizer)
    (b : batch) (block : list called) : Prop :=
  ∃ (x : matrix) (n : ref) (l : R),
    view b.1 = Some x ∧
    block = [Called (ZeroGrad opt) (); Called (Forward m x) n;
             Called (Criterion c n b.2) (S n); Called (Backward (S n)) ();
             Called (Step opt) (); Called (Item (S n)) l].

(** The batches of [n] successive traversals of a loader. *)
Fixpoint traversal_list (loader : DataLoader) (n : nat) (g : G) : list (list batch) :=
  match n with
  | O => []
  | S n' => (traverse loader g).1 :: traversal_list loader n' (traverse loader g).2
  end.

(** The gradient buffer of a parameter, and the value of a scalar tensor. *)
Definition grad_at (w : world) (r : ref) : option matrix := params w !! r ≫= grad.

Definition scalar_value (w : world) (t : ref) : option R :=
  match tensors w !! t with
  | Some (Scalar l _) => Some l
  | _ => None
  end.

(** The loop returns after [epochs] traversals of the loader, and its
    forward passes are the batches of these traversals, each one once and
    in order. *)
Definition completes_all_traversals (epochs : nat) (m : sequential)
    (c : criterion) (opt : optimizer) (loader : DataLoader) (w : world) : Prop :=
  ∃ t w',
    exec (training_loop epochs m c opt loader) w = (t, inr (), w') ∧
    length (traversals t) = epochs ∧
    Some <$> forwarded t = (λ b, view b.1) <$> concat (traversals t).

End Notebook.

Arguments Ret {H A} a.
Arguments Raise {H A} e.
Arguments Vis {H A X} e k.

(** ** Cell 3: the data

    [transforms.ToTensor], [transforms.Normalize], [datasets.MNIST] and
    [DataLoader] are torchvision's and PyTorch's, modelled as their
    documentation describes them; the cell fixes their arguments.  The
    permutation a shuffling loader draws is left to an abstract
    [randperm]. *)

Section Data.
Context `{Torch}.
Local Open Scope R_scope.

(** [transforms.ToTensor()] on a grey-scale picture of bytes: one channel,
    every pixel divided by 255. *)
Definition to_tensor (picture : list (list nat)) : image :=
  [(λ row : list nat, (λ p, INR p / 255) <$> row) <$> picture].

(** [transforms.Normalize((mean,), (std,))]: every entry minus the mean,
    divided by the standard deviation. *)
Definition normalize (mean std : R) (img : image) : image :=
  (λ channel : list (list R),
     (λ row : list R, (λ v, (v - mean) / std) <$> row) <$> channel) <$> img.

(** [transform = Compose([ToTensor(), Normalize((0.5,), (0.5,))])] *)
Definition transform (picture : list (list nat)) : image :=
  normalize 0.5 0.5 (to_tensor picture).

(** [trainset = datasets.MNIST(..., transform=transform)]: every picture
    transformed, with its label. *)
Definition trainset (raw : list (list (list nat) * nat)) : list (image * nat) :=
  (λ ex, (transform ex.1, ex.2)) <$> raw.

(** The batch sampler of a [DataLoader] that keeps the last, shorter,
    batch: indices are appended to the current batch, which is yielded as
    soon as it holds [batch_size] of them; what is left at the end is
    yielded if it is not empty. *)
Fixpoint batch_sampler (batch_size : nat) (batch : list nat) (indices : list nat)
    : list (list nat) :=
  match indices with
  | [] => match batch with [] => [] | _ => [batch] end
  | idx :: indices' =>
      let batch' := batch ++ [idx] in
      if decide (length batch' = batch_size)
      then batch' :: batch_sampler batch_size [] indices'
      else batch_sampler batch_size batch' indices'
  end.

(** The indices of one traversal: a fresh permutation when the loader
    shuffles, the indices in order otherwise. *)
Definition sampler (randperm : G → nat → list nat * G) (n : nat) (shuffle : bool)
    (g : G) : list nat * G :=
  if shuffle then randperm g n else (seq 0 n, g).

(** [[dataset[i] for i in indices]].  An index outside the dataset raises
    in Python; the sampler yields none, and here it would be skipped. *)
Definition fetch (dataset : list (image * nat)) (indices : list nat)
    : list (image * nat) :=
  omap (λ i, dataset !! i) indices.

(** The default collation: the images of the examples stacked, and their
    labels. *)
Definition collate (examples : list (image * nat)) : batch :=
  (examples.*1, examples.*2).

(** [DataLoader(dataset, batch_size=..., shuffle=...)], for a positive
    batch size (the constructor refuses any other). *)
Definition data_loader (randperm : G → nat → list nat * G)
    (dataset : list (image * nat)) (batch_size : nat) (shuffle : bool)
    : DataLoader :=
  {| len := (length dataset + batch_size - 1) / batch_size;
     traverse := λ g,
       let '(indices, g') := sampler randperm (length dataset) shuffle g in
       (collate <$> (fetch dataset <$> batch_sampler batch_size [] indices), g') |}.

(** [trainloader = torch.utils.data.DataLoader(trainset, batch_size=64,
    shuffle=True)] *)
Definition cell_3 (randperm : G → nat → list nat * G)
    (raw : list (list (list nat) * nat)) : DataLoader :=
  data_loader randperm (trainset raw) 64 true.

(** What [randperm] is trusted to return: a permutation of [0 .. n-1]. *)
Definition randperm_ok (randperm : G → nat → list nat * G) : Prop :=
  ∀ g n, (randperm g n).1 ≡ₚ seq 0 n.

(** The examples of a batch, image and label together again. *)
Definition examples_of (b : batch) : list (image * nat) := zip b.1 b.2.

End Data.

(** ** Cell 31: the class probabilities of one image

    [helper.view_classify], which draws the image and the probabilities,
    is left out. *)

Section Prediction.
Context `{Torch}.
Local Open Scope R_scope.

(** [images[0].view(1, 784)] *)
Definition first_image (images : list image) : exn + matrix :=
  match images with
  | [] => inl IndexError
  | image0 :: _ =>
      let pixels := concat (concat image0) in
      if decide (length pixels = 784%nat) then inr [pixels] else inl RuntimeError
  end.

(** [with torch.no_grad(): logps = model(img)]: the forward pass on the
    current values of the parameters; nothing is recorded for autograd. *)
Definition no_grad_forward (w : world) (model : sequential) (x : matrix)
    : exn + matrix :=
  match read_data (params w) (parameters model) with
  | None => inl RuntimeError
  | Some θ =>
      match forward (arch model) θ x with
      | Some logps => inr logps
      | None => inl RuntimeError
      end
  end.

(** [torch.exp(t)] *)
Definition exp_tensor (t : matrix) : matrix := (λ row : list R, exp <$> row) <$> t.

(** The cell: the probabilities [ps] it computes, or the exception it
    raises, and the store it leaves. *)
Definition cell_31 (model : sequential) (trainloader : DataLoader) (w : world)
    : (exn + matrix) * world :=
  match exec (dataiter ← call (Iter trainloader); first_batch dataiter) w with
  | (_, inl e, w') => (inl e, w')
  | (_, inr (images, _), w') =>
      (match first_image images with
       | inl e => inl e
       | inr img =>
           match no_grad_forward w' model img with
           | inl e => inl e
           | inr logps => inr (exp_tensor logps)
           end
       end, w')
  end.

End Prediction.

(** ** Cells 9 to 18: autograd on a small tensor

    The backward rules of the two operations the cells record,
    [PowBackward0] and [MeanBackward0], are PyTorch's; cell 17 states what
    they must give together. *)

Module AutogradCells.
Local Open Scope R_scope.

(** A leaf tensor that requires a gradient, with its [.grad]. *)
Record leaf := Leaf {
  values : matrix;
  leaf_grad : option matrix;
}.

Definition numel (t : matrix) : nat := length (concat t).

(** [t ** n] *)
Definition pow (n : nat) (t : matrix) : matrix :=
  (λ row : list R, (λ v, v ^ n) <$> row) <$> t.

(** [t.mean()] *)
Definition mean (t : matrix) : R := sum_list (concat t) / INR (numel t).

(** [MeanBackward0]: the incoming gradient, spread over the shape of the
    input and divided by the number of entries. *)
Definition mean_backward (input : matrix) (g : R) : matrix :=
  (λ row : list R, (λ _, g / INR (numel input)) <$> row) <$> input.

(** [PowBackward0]: the incoming gradient times [n * input ** (n - 1)]. *)
Definition pow_backward (n : nat) (input : matrix) (g : matrix) : matrix :=
  pointwise (λ v gv, gv * (INR n * v ^ (n - 1))) input g.

(** Cell 9: [x = torch.randn(2, 2, requires_grad=True)], for any values
    drawn. *)
Definition cell_9 (drawn : matrix) : leaf := Leaf drawn None.

(** Cell 10: [y = x**2] *)
Definition cell_10 (x : leaf) : matrix := pow 2 (values x).

(** Cell 14: [z = y.mean()] *)
Definition cell_14 (y : matrix) : R := mean y.

(** Cell 16: [print(x.grad)] *)
Definition cell_16 (x : leaf) : option matrix := leaf_grad x.

(** [z.backward()] for [z = (x**2).mean()]: the rules of the recorded
    operations in reverse order, starting from 1, and the result added
    onto [x.grad]. *)
Definition z_backward (x : leaf) : leaf :=
  let g := pow_backward 2 (values x) (mean_backward (cell_10 x) 1) in
  Leaf (values x)
    (Some (match leaf_grad x with
           | None => g
           | Some g0 => pointwise Rplus g0 g
           end)).

(** Cell 18: [z.backward()], then [x.grad] and [2 * x / torch.numel(x)]
    are printed. *)
Definition cell_18 (x : leaf) : leaf * option matrix * matrix :=
  let x' := z_backward x in
  (x', leaf_grad x',
   (λ row : list R, (λ v, 2 * v / INR (numel (values x))) <$> row) <$> values x).

(** [t] with entry [(i, j)] replaced by [v]. *)
Definition with_entry (i j : nat) (v : R) (t : matrix) : matrix :=
  alter (λ row : list R, <[j := v]> row) i t.

Definition entry (i j : nat) (t : matrix) : option R := t !! i ≫= (.!! j).

End AutogradCells.

(** ** Parameters a program leaves alone *)
Section FrameDefinitions.
Context `{Torch}.

(** The program leaves the parameter at [r] as it is, on every store and
    whether it returns or raises. *)
Definition keeps_parameter (r : ref) {A} (p : prog A) : Prop :=
  ∀ w, params (exec p w).2 !! r = params w !! r.

End FrameDefinitions.

(** ** A small instance

    A two-class model on two-pixel images, with a made-up generator and
    gradient engine, to run the definitions on concrete inputs. *)

Definition toy_torch : Torch := {|
  G := nat;
  next_weight := λ g _, (INR g, S g);
  autograd := λ _ _ _ _ _ k i j, INR (k + i + j);
  set_to_none := false;
  uninitialized := λ k, INR k;
|}.

Definition toy_layers : list layer := [Linear 2 2; LogSoftmax].

Definition toy_model : sequential := Sequential toy_layers [0; 1].

Definition toy_values : list matrix := [[[1; 0]; [0; 1]]; [[0; 0]]]%R.

(** The first parameter still carries a gradient from an earlier pass. *)
Definition toy_world : world (H := toy_torch) :=
  World (7 : @G toy_torch)
    [Param [[1; 0]; [0; 1]]%R (Some [[5; 5]; [5; 5]]%R); Param [[0; 0]]%R None]
    [] [].

Definition toy_optimizer : optimizer := SGD [0; 1] (1 / 10)%R.

Definition toy_batch : batch := ([[[[1; 2]]]]%R, [0]).

Definition toy_loader : DataLoader (H := toy_torch) :=
  {| len := 1; traverse := λ g, ([toy_batch], g) |}.

(** A loader over an empty dataset. *)
Definition empty_loader : DataLoader (H := toy_torch) :=
  {| len := 0; traverse := λ g, ([], g) |}.

(** The toy store after a forward pass and a loss, before any backward
    pass of that loss. *)
Definition toy_world_with_loss : world (H := toy_torch) :=
  (exec (output ← call (Forward toy_model [[1; 2]]%R);
         call (Criterion NLLLoss output [0])) toy_world).2.

(** ** More small instances

    A dataset of three two-pixel images behind a loader that reverses the
    order instead of shuffling, and MNIST-sized inputs: a blank picture, a
    loader of one blank image, a loader of one full batch, and a one-class
    model on 784 pixels. *)

Definition toy_randperm (g : @G toy_torch) (n : nat) : list nat * @G toy_torch :=
  (reverse (seq 0 n), S g).

Definition toy_dataset : list (image * nat) :=
  [([[[1; 2]]]%R, 0); ([[[3; 4]]]%R, 1); ([[[5; 6]]]%R, 0)].

Definition toy_picture : list (list nat) := [[0; 255]; [128; 64]].

Definition blank_picture : list (list nat) := replicate 28 (replicate 28 0).

Definition blank_image : image := [[replicate 784 0%R]].

Definition one_image_loader : DataLoader (H := toy_torch) :=
  {| len := 1; traverse := λ g, ([([blank_image], [3])], g) |}.

Definition full_batch_loader : DataLoader (H := toy_torch) :=
  {| len := 1; traverse := λ g, ([(replicate 64 blank_image, replicate 64 0)], g) |}.

Definition wide_layers : list layer := [Linear 784 1; LogSoftmax].

Definition wide_model : sequential := (constructed (H := toy_torch) wide_layers toy_world).1.

Definition wide_world : world (H := toy_torch) :=
  (constructed (H := toy_torch) wide_layers toy_world).2.

(** The toy store with one more parameter, which belongs to no model. *)
Definition toy_world_3 : world (H := toy_torch) :=
  World (7 : @G toy_torch)
    [Param [[1; 0]; [0; 1]]%R (Some [[5; 5]; [5; 5]]%R); Param [[0; 0]]%R None;
     Param [[9]]%R (Some [[1]]%R)]
    [] [].

(** ** Properties of the tensor operations *)

Section TensorFacts.
Local Open Scope R_scope.

Lemma shape_zeros_like (m : matrix) : shape (zeros_like m) = shape m.
Proof.
  unfold shape, zeros_like. rewrite <- list_fmap_compose.
  apply list_fmap_ext. intros _ row _. simpl. by rewrite length_fmap.
Qed.

Lemma all_zero_zeros_like (m : matrix) : all_zero (zeros_like m).
Proof.
  unfold all_zero, zeros_like.
  apply Forall_fmap, Forall_true. intros row. simpl.
  by apply Forall_fmap, Forall_true.
Qed.

Lemma shape_tabulate_like (f : nat → nat → R) (m : matrix) :
  shape (tabulate_like f m) = shape m.
Proof.
  unfold shape, tabulate_like. apply list_eq. intros i.
  rewrite !list_lookup_fmap, list_lookup_imap.
  destruct (m !! i); simpl; [|done]. by rewrite length_imap.
Qed.

Lemma zip_with_zero_row (z g : list R) :
  length z = length g → zip_with Rplus ((λ _, 0) <$> z) g = g.
Proof.
  revert g. induction z as [|a z IH]; intros [|b g] Hlen; simpl in *; try done.
  f_equal; [lra | apply IH; lia].
Qed.

(** Adding onto a zeroed buffer of the same shape gives what was added. *)
Lemma pointwise_zeros_like (z g : matrix) :
  shape z = shape g → pointwise Rplus (zeros_like z) g = g.
Proof.
  unfold shape, pointwise, zeros_like. revert g.
  induction z as [|a z IH]; intros [|b g] Hs; simpl in *; try done.
  injection Hs as Hab Hs. f_equal; [by apply zip_with_zero_row | by apply IH].
Qed.

Lemma shape_pointwise (f : R → R → R) (a b : matrix) :
  shape b = shape a → shape (pointwise f a b) = shape a.
Proof.
  unfold shape, pointwise. revert b.
  induction a as [|r a IH]; intros [|s b] Hs; simpl in *; try done.
  injection Hs as Hrs Hs. rewrite length_zip_with, Hrs, Nat.min_id.
  f_equal. by apply IH.
Qed.

Lemma pointwise_ext (f g : R → R → R) (a b : matrix) :
  (∀ x y, f x y = g x y) → pointwise f a b = pointwise g a b.
Proof.
  intros Hfg. unfold pointwise. revert b.
  induction a as [|r a IH]; intros [|s b]; simpl; try done.
  f_equal; [|apply IH]. revert s. induction r as [|x r IHr]; intros [|y s]; simpl; try done.
  by rewrite Hfg, IHr.
Qed.

(** An entry of a combined tensor is the combination of the entries. *)
Lemma lookup_pointwise (f : R → R → R) (a b : matrix) (i j : nat) (x y : R) :
  a !! i ≫= (.!! j) = Some x → b !! i ≫= (.!! j) = Some y →
  pointwise f a b !! i ≫= (.!! j) = Some (f x y).
Proof.
  unfold pointwise. rewrite lookup_zip_with.
  destruct (a !! i) as [ra|]; simpl; [|done].
  destruct (b !! i) as [rb|]; simpl; [|done].
  intros Hx Hy. by rewrite lookup_zip_with, Hx, Hy.
Qed.

Lemma sum_list_app (l k : list R) : sum_list (l ++ k) = sum_list l + sum_list k.
Proof. unfold sum_list. induction l as [|x l IH]; simpl; [lra | rewrite IH; lra]. Qed.

Lemma foldl_Rplus (acc : R) (l : list R) : foldl Rplus acc l = acc + sum_list l.
Proof.
  unfold sum_list. revert acc. induction l as [|x l IH]; intros acc; simpl; [lra|].
  rewrite IH. lra.
Qed.

Lemma sum_list_nonneg (l : list R) : Forall (λ x, 0 <= x) l → 0 <= sum_list l.
Proof.
  unfold sum_list. induction 1 as [|x l Hx _ IH]; simpl; lra.
Qed.

(** A sum of positive terms is positive and at least each of its terms. *)
Lemma sum_list_term (l : list R) (i : nat) (x : R) :
  Forall (λ x, 0 < x) l → l !! i = Some x → x <= sum_list l.
Proof.
  intros Hpos. revert i x. unfold sum_list.
  induction Hpos as [|a l Ha Hl IH]; intros [|i] x Hi; simpl in *; try done.
  - injection Hi as ->. assert (0 <= foldr Rplus 0 l).
    { apply sum_list_nonneg. eapply List.Forall_impl; [|exact Hl]. simpl. intros; lra. }
    lra.
  - specialize (IH _ _ Hi). lra.
Qed.

End TensorFacts.

(** ** Properties of the layers and the criteria *)

Section LayerFacts.
Local Open Scope R_scope.

Lemma sum_list_cons (x : R) (l : list R) : sum_list (x :: l) = x + sum_list l.
Proof. done. Qed.

Lemma ln_monotone (a b : R) : 0 < a → a <= b → ln a <= ln b.
Proof.
  intros Ha [Hlt | ->]; [|lra]. left. by apply ln_increasing.
Qed.

Lemma length_log_softmax_row (row : list R) :
  length (log_softmax_row row) = length row.
Proof. unfold log_softmax_row. by rewrite length_fmap. Qed.

Lemma shape_log_softmax (x : matrix) : shape (log_softmax x) = shape x.
Proof.
  unfold shape, log_softmax. rewrite <- list_fmap_compose.
  apply list_fmap_ext. intros _ row _. simpl. apply length_log_softmax_row.
Qed.

Lemma shape_relu (x : matrix) : shape (relu x) = shape x.
Proof.
  unfold shape, relu. rewrite <- list_fmap_compose.
  apply list_fmap_ext. intros _ row _. simpl. by rewrite length_fmap.
Qed.

Lemma sum_list_exp_pos (row : list R) (c : R) (y : nat) (xy : R) :
  row !! y = Some xy →
  exp (xy - c) <= sum_list ((λ x, exp (x - c)) <$> row).
Proof.
  intros Hy. apply sum_list_term with (i := y).
  - apply Forall_fmap, Forall_true. intros x. simpl. apply exp_pos.
  - by rewrite list_lookup_fmap, Hy.
Qed.

(** A log-normalised entry is the logarithm of a probability: it is never
    positive. *)
Lemma log_softmax_row_nonpos (row : list R) (y : nat) (v : R) :
  log_softmax_row row !! y = Some v → v <= 0.
Proof.
  unfold log_softmax_row. rewrite list_lookup_fmap.
  destruct (row !! y) as [xy|] eqn:Hy; simpl; [|done]. intros [= <-].
  pose proof (sum_list_exp_pos row (max_list row) y xy Hy) as Hle.
  pose proof (exp_pos (xy - max_list row)) as Hpos.
  apply ln_monotone in Hle; [|done]. rewrite ln_exp in Hle. lra.
Qed.

Lemma foldr_Rmax_ge (d : R) (l : list R) :
  d <= foldr Rmax d l ∧ Forall (λ x, x <= foldr Rmax d l) l.
Proof.
  induction l as [|a l [IHd IHl]]; cbn [foldr]; [split; [lra | constructor]|].
  pose proof (Rmax_l a (foldr Rmax d l)). pose proof (Rmax_r a (foldr Rmax d l)).
  split; [lra|]. constructor; [done|].
  eapply List.Forall_impl; [|exact IHl]. cbn. intros; lra.
Qed.

(** No entry of a row exceeds [max_list]. *)
Lemma max_list_ge (row : list R) (y : nat) (x : R) :
  row !! y = Some x → x <= max_list row.
Proof.
  intros Hy. unfold max_list.
  destruct (foldr_Rmax_ge (hd 0 row) row) as [_ Hall].
  rewrite Forall_lookup in Hall. exact (Hall _ _ Hy).
Qed.

Lemma foldr_Rmax_elem (d : R) (l : list R) :
  foldr Rmax d l = d ∨ foldr Rmax d l ∈ l.
Proof.
  induction l as [|a l IH]; cbn [foldr]; [by left|].
  destruct (Rle_dec a (foldr Rmax d l)) as [Hle|Hgt].
  - rewrite (Rmax_right _ _ Hle).
    destruct IH as [->|IH]; [by left | right; by apply list_elem_of_further].
  - rewrite Rmax_left by lra. right. apply list_elem_of_here.
Qed.

(** The maximum of a row with at least one entry is one of its entries. *)
Lemma max_list_elem (row : list R) : row ≠ [] → max_list row ∈ row.
Proof.
  intros Hne. unfold max_list. destruct row as [|a row]; [done|]. cbn [hd].
  destruct (foldr_Rmax_elem a (a :: row)) as [->|Hin]; [apply list_elem_of_here | done].
Qed.

(** The effect of the stabilisation: every exponential that is summed lies
    in (0, 1], and the sum in [1, n]; no intermediate value can overflow,
    and the logarithm is taken of a number that is at least 1. *)
Lemma stabilised_sum_bounds (row : list R) :
  row ≠ [] →
  let exps := (λ x, exp (x - max_list row)) <$> row in
  Forall (λ e, 0 < e <= 1) exps ∧
  1 <= sum_list exps <= INR (length row).
Proof.
  intros Hne exps.
  assert (Forall (λ e, 0 < e <= 1) exps) as Hall.
  { apply Forall_lookup. intros i e He. unfold exps in He.
    rewrite list_lookup_fmap in He.
    destruct (row !! i) as [x|] eqn:Hx; [|done]. injection He as <-.
    split; [apply exp_pos|]. pose proof (max_list_ge row i x Hx).
    rewrite <- exp_0. destruct (Req_dec (x - max_list row) 0) as [->|Hneq]; [lra|].
    left. apply exp_increasing. lra. }
  split; [done|]. split.
  - apply max_list_elem, list_elem_of_lookup in Hne as [i Hi].
    assert (exps !! i = Some 1) as H1.
    { unfold exps. rewrite list_lookup_fmap, Hi. cbn.
      by rewrite Rminus_diag, exp_0. }
    clear -Hall H1. revert i H1. unfold sum_list.
    induction Hall as [|e es [He0 He1] Hes IH]; intros [|i] Hi; cbn in *; try done.
    + injection Hi as ->.
      assert (0 <= foldr Rplus 0 es).
      { clear -Hes. induction Hes as [|?? [??] _ IH]; cbn; lra. }
      lra.
    + specialize (IH _ Hi). lra.
  - replace (length row) with (length exps) by (unfold exps; apply length_fmap).
    clear -Hall. unfold sum_list.
    induction Hall as [|e es [He0 He1] Hes IH]; [cbn; lra|].
    cbn [foldr length]. rewrite S_INR. lra.
Qed.

(** A log-normalised entry lies between the centred score minus [ln n]
    and zero: it is a finite number whenever the scores are. *)
Lemma log_softmax_row_bounds (row : list R) (y : nat) (x v : R) :
  row !! y = Some x → log_softmax_row row !! y = Some v →
  x - max_list row - ln (INR (length row)) <= v <= x - max_list row.
Proof.
  intros Hx. unfold log_softmax_row. rewrite list_lookup_fmap, Hx. intros [= <-].
  assert (row ≠ []) as Hne by (intros ->; done).
  destruct (stabilised_sum_bounds row Hne) as [_ [Hlo Hhi]]. cbn zeta in Hlo, Hhi.
  set (S := sum_list ((λ x0, exp (x0 - max_list row)) <$> row)) in *.
  assert (0 <= ln S) as H0 by (rewrite <- ln_1; apply ln_monotone; lra).
  assert (ln S <= ln (INR (length row))) as H1 by (apply ln_monotone; lra).
  lra.
Qed.

Lemma sum_list_scale (row : list R) (c : R) :
  sum_list ((λ x, exp (x - c)) <$> row) = exp (- c) * sum_list (exp <$> row).
Proof.
  induction row as [|x row IH]; [unfold sum_list; simpl; lra|].
  rewrite !fmap_cons, !sum_list_cons, IH.
  replace (x - c) with (x + - c) by lra. rewrite exp_plus. lra.
Qed.

(** Subtracting the maximum changes nothing in the value: a log-normalised
    entry is the logarithm of the softmax probability of its class. *)
Lemma log_softmax_row_log_probability (row : list R) (y : nat) (v : R) :
  log_softmax_row row !! y = Some v →
  ∃ p, softmax_probability row y = Some p ∧ 0 < p ∧ v = ln p.
Proof.
  unfold log_softmax_row, softmax_probability. rewrite list_lookup_fmap.
  destruct (row !! y) as [xy|] eqn:Hy; simpl; [|done]. intros [= <-].
  eexists. split; [done|].
  assert (0 < sum_list (exp <$> row)) as HS.
  { pose proof (sum_list_exp_pos row 0 y xy Hy) as Hle.
    pose proof (exp_pos (xy - 0)) as Hpos.
    replace (sum_list ((λ x, exp (x - 0)) <$> row)) with (sum_list (exp <$> row)) in Hle.
    - lra.
    - f_equal. apply list_fmap_ext. intros _ x _. f_equal. lra. }
  pose proof (exp_pos xy) as Hxy. pose proof (exp_pos (- max_list row)) as Hm.
  split; [by apply Rdiv_lt_0_compat|].
  rewrite sum_list_scale, ln_mult, ln_exp by done.
  unfold Rdiv. rewrite ln_mult, ln_Rinv, ln_exp by (done || by apply Rinv_0_lt_compat).
  lra.
Qed.

(** A model that ends in [nn.LogSoftmax] outputs the log-normalised scores
    of the model without that last layer. *)
Lemma forward_app_log_softmax (layers : list layer) (θ : list matrix) (x : matrix) :
  forward (layers ++ [LogSoftmax]) θ x = log_softmax <$> forward layers θ x.
Proof.
  revert θ x. induction layers as [|l layers IH]; intros θ x; [done|].
  destruct l as [i o| |]; simpl; [|apply IH..].
  destruct θ as [|W [|b θ]]; [done..|].
  destruct (linear i o W b x) as [x'|]; simpl; [apply IH | done].
Qed.

Lemma mapM_log_softmax (scores : matrix) (labels : list nat) :
  mapM (λ p, example_loss NLLLoss p.1 p.2) (zip (log_softmax scores) labels) =
  mapM (λ p, example_loss CrossEntropyLoss p.1 p.2) (zip scores labels).
Proof.
  revert labels. induction scores as [|row scores IH]; intros [|y labels]; try done.
  simpl. unfold log_softmax in IH. by rewrite IH.
Qed.

(** The two criteria agree: the negative log-likelihood of the
    log-normalised scores is the cross-entropy of the raw scores. *)
Lemma loss_value_log_softmax (scores : matrix) (labels : list nat) :
  loss_value NLLLoss (log_softmax scores) labels =
  loss_value CrossEntropyLoss scores labels.
Proof.
  unfold loss_value. rewrite mapM_log_softmax.
  assert (length (log_softmax scores) = length scores) as ->
    by (unfold log_softmax; apply length_fmap).
  destruct scores; [|done]. done.
Qed.

Lemma example_loss_nonneg (c : criterion) (row : list R) (y : nat) (l : R) :
  (c = NLLLoss → Forall (λ v, v <= 0) row) →
  example_loss c row y = Some l → 0 <= l.
Proof.
  intros Hrow. destruct c; simpl.
  - unfold nll_example. destruct (row !! y) as [v|] eqn:Hy; simpl; [|done].
    intros [= <-]. specialize (Hrow eq_refl).
    rewrite Forall_lookup in Hrow. specialize (Hrow _ _ Hy). simpl in Hrow. lra.
  - unfold cross_entropy_example.
    destruct (log_softmax_row row !! y) as [v|] eqn:Hy; simpl; [|done].
    intros [= <-]. apply log_softmax_row_nonpos in Hy. lra.
Qed.

(** The loss of a batch is never negative: under [nn.NLLLoss] when the
    input holds log-probabilities, under [nn.CrossEntropyLoss] always. *)
Lemma loss_value_nonneg (c : criterion) (input : matrix) (target : list nat) (l : R) :
  (c = NLLLoss → Forall (Forall (λ v, v <= 0)) input) →
  loss_value c input target = inr l → 0 <= l.
Proof.
  intros Hin. unfold loss_value. repeat case_decide; try done.
  destruct (mapM _ _) as [losses|] eqn:HM; [|done]. intros [= <-].
  apply mapM_Some_1 in HM.
  assert (0 <= sum_list losses) as Hsum.
  { apply sum_list_nonneg, Forall_lookup. intros i l Hl.
    destruct (Forall2_lookup_r _ _ _ _ _ HM Hl) as (p & Hp & Hex).
    eapply example_loss_nonneg; [|exact Hex]. intros Hc. specialize (Hin Hc).
    unfold zip in Hp. apply lookup_zip_with_Some in Hp.
    destruct Hp as (row & y & -> & Hrow & _). simpl.
    by apply (Forall_lookup_1 _ _ _ _ Hin Hrow). }
  assert (0 < INR (length input)) as Hn.
  { apply lt_0_INR. destruct input; [done | simpl; lia]. }
  apply Rmult_le_pos; [done|]. left. by apply Rinv_0_lt_compat.
Qed.

Lemma all_nonpos_log_softmax (x : matrix) :
  Forall (Forall (λ v, v <= 0)) (log_softmax x).
Proof.
  unfold log_softmax. apply Forall_fmap, Forall_true. intros row. simpl.
  apply Forall_lookup. intros y v. apply log_softmax_row_nonpos.
Qed.

(** The output of a model whose last layer is [nn.LogSoftmax]. *)
Lemma forward_last_log_softmax (layers : list layer) (θ : list matrix) (x out : matrix) :
  list.last layers = Some LogSoftmax → forward layers θ x = Some out →
  Forall (Forall (λ v, v <= 0)) out.
Proof.
  intros Hlast. apply last_Some in Hlast as [layers' ->].
  rewrite forward_app_log_softmax.
  destruct (forward layers' θ x) as [out'|]; simpl; [|done].
  intros [= <-]. apply all_nonpos_log_softmax.
Qed.

End LayerFacts.

(** ** Properties of the store and of the interpreter *)

Section StoreFacts.
Context `{Torch}.
Local Open Scope R_scope.

Lemma position_Some (refs : list ref) (r : ref) (k : nat) :
  position r refs = Some k → refs !! k = Some r.
Proof.
  unfold position. destruct (list_find _ _) as [[i x]|] eqn:Hf; simpl; [|done].
  intros [= <-]. apply list_find_Some in Hf as (Hi & -> & _). done.
Qed.

Lemma position_lookup (refs : list ref) (r : ref) (k : nat) :
  NoDup refs → refs !! k = Some r → position r refs = Some k.
Proof.
  intros Hnd Hk. unfold position.
  destruct (list_find _ _) as [[i x]|] eqn:Hf; simpl.
  - apply list_find_Some in Hf as (Hi & -> & _).
    f_equal. by eapply NoDup_lookup.
  - apply list_find_None in Hf. rewrite Forall_lookup in Hf.
    by destruct (Hf _ _ Hk).
Qed.

Lemma position_None (refs : list ref) (r : ref) :
  r ∉ refs → position r refs = None.
Proof.
  intros Hr. unfold position.
  destruct (list_find _ _) as [[i x]|] eqn:Hf; simpl; [|done].
  apply list_find_Some in Hf as (Hi & -> & _).
  destruct Hr. by eapply list_elem_of_lookup_2.
Qed.

Lemma lookup_on_params (refs : list ref) (f : nat → parameter → parameter)
    (ps : list parameter) (r : ref) :
  on_params refs f ps !! r =
  (λ p, match position r refs with Some k => f k p | None => p end) <$> ps !! r.
Proof. unfold on_params. apply list_lookup_imap. Qed.

Lemma length_on_params (refs : list ref) (f : nat → parameter → parameter)
    (ps : list parameter) :
  length (on_params refs f ps) = length ps.
Proof. unfold on_params. apply length_imap. Qed.

(** An update that keeps the values keeps what a forward pass reads. *)
Lemma read_data_on_params (refs rs : list ref) (f : nat → parameter → parameter)
    (ps : list parameter) :
  (∀ k p, data (f k p) = data p) →
  read_data (on_params refs f ps) rs = read_data ps rs.
Proof.
  intros Hf. unfold read_data. apply mapM_ext. intros r.
  rewrite lookup_on_params. destruct (ps !! r) as [p|]; simpl; [|done].
  destruct (position r refs); by rewrite ?Hf.
Qed.

Lemma read_data_holds (w : world) (m : sequential) (θ : list matrix) :
  holds w m θ → read_data (params w) (parameters m) = Some θ.
Proof.
  intros [_ Hθ]. unfold read_data. apply mapM_Some_2.
  eapply Forall2_impl; [|exact Hθ]. simpl. intros r d (g & -> & _). done.
Qed.

(** *** Running a sequence *)

Lemma exec_bind {A B} (p : prog A) (k : A → prog B) (w : world) :
  exec (p ≫= k) w =
  let '(t, r, w1) := exec p w in
  match r with
  | inl e => (t, inl e, w1)
  | inr a => let '(t2, r2, w2) := exec (k a) w1 in (t ++ t2, r2, w2)
  end.
Proof.
  revert w. induction p as [a|e|X e k' IH]; intros w.
  - simpl. by destruct (exec (k a) w) as [[t r] w'].
  - done.
  - change (Vis e k' ≫= k) with (Vis e (λ x, k' x ≫= k)). simpl.
    destruct (handle e w) as [[ex|x] w']; [done|].
    rewrite IH. destruct (exec (k' x) w') as [[t [ex|a]] w1]; [done|].
    by destruct (exec (k a) w1) as [[t2 r2] w2].
Qed.

Lemma exec_call {X} (e : event X) (w : world) :
  exec (call e) w =
  match handle e w with
  | (inl ex, w') => ([], inl ex, w')
  | (inr x, w') => ([Called e x], inr x, w')
  end.
Proof. unfold call. simpl. by destruct (handle e w) as [[ex|x] w']. Qed.

End StoreFacts.

Section PassFacts.
Context `{Torch}.
Local Open Scope R_scope.

Lemma handle_Forward (w : world) (m : sequential) (x : matrix)
    (θ : list matrix) (out : matrix) :
  read_data (params w) (parameters m) = Some θ →
  forward (arch m) θ x = Some out →
  handle (Forward m x) w =
  (inr (length (tensors w)),
   World (generator w) (params w)
     (tensors w ++ [Activation out (Graph (arch m) (parameters m) θ x)])
     (stdout w)).
Proof. intros Hr Hf. simpl. by rewrite Hr, Hf. Qed.

Lemma handle_Criterion (w : world) (c : criterion) (output : ref)
    (y : list nat) (v : matrix) (gr : graph) (l : R) :
  tensors w !! output = Some (Activation v gr) →
  loss_value c v y = inr l →
  handle (Criterion c output y) w =
  (inr (length (tensors w)),
   World (generator w) (params w)
     (tensors w ++ [Scalar l (Some (gr, c, y))]) (stdout w)).
Proof. intros Ho Hl. simpl. by rewrite Ho, Hl. Qed.

Lemma handle_Backward (w : world) (loss : ref) (l : R) (gr : graph)
    (c : criterion) (y : list nat) :
  tensors w !! loss = Some (Scalar l (Some (gr, c, y))) →
  handle (Backward loss) w =
  (inr (),
   World (generator w)
     (on_params (g_parameters gr) (accumulate gr c y) (params w))
     (<[loss := Scalar l None]> (tensors w)) (stdout w)).
Proof. intros Hl. simpl. by rewrite Hl. Qed.

Lemma handle_Item (w : world) (t : ref) (l : R) (tape : option (graph * criterion * list nat)) :
  tensors w !! t = Some (Scalar l tape) →
  handle (Item t) w = (inr l, w).
Proof. intros Hl. simpl. by rewrite Hl. Qed.

Lemma exec_training_pass (w : world) (m : sequential) (c : criterion)
    (opt : optimizer) (x : matrix) (y : list nat) (θ : list matrix)
    (out : matrix) (l : R) :
  holds w m θ → param_group opt = parameters m →
  forward (arch m) θ x = Some out → loss_value c out y = inr l →
  let n := length (tensors w) in
  exec (training_pass m c opt x y) w =
  ([Called (ZeroGrad opt) (); Called (Forward m x) n;
    Called (Criterion c n y) (S n); Called (Backward (S n)) ();
    Called (Step opt) ()],
   inr (S n), after_pass m c (lr opt) x y θ out l w).
Proof.
  intros Hw Hopt Hfw Hloss n. unfold training_pass.
  cbn [exec mbind prog_bind bind call].
  change (handle (ZeroGrad opt) w) with
    (@inr exn unit (), World (generator w)
       (on_params (param_group opt) (λ _, clear_grad) (params w))
       (tensors w) (stdout w)).
  cbn iota. rewrite Hopt.
  erewrite handle_Forward; [|cbn [params]|exact Hfw]; cycle 1.
  { rewrite read_data_on_params by done. by apply read_data_holds. }
  cbn [tensors params generator stdout]. fold n.
  erewrite handle_Criterion; [| |exact Hloss]; cycle 1.
  { cbn [tensors]. apply list_lookup_middle. done. }
  cbn [tensors params generator stdout].
  erewrite handle_Backward; cycle 1.
  { cbn [tensors]. by apply list_lookup_middle. }
  cbn [tensors params generator stdout g_parameters].
  change (handle (Step opt) ?w0) with
    (@inr exn unit (), World (generator w0)
       (on_params (param_group opt) (λ _, sgd_step (lr opt)) (params w0))
       (tensors w0) (stdout w0)).
  cbn [tensors params generator stdout exec mret prog_ret]. rewrite Hopt.
  rewrite insert_app_r_alt by done. rewrite Nat.sub_diag. cbn [insert list_insert].
  rewrite <- app_assoc. cbn [app].
  rewrite length_app. cbn [length]. rewrite Nat.add_1_r. done.
Qed.

(** What the pass leaves in a parameter of the model: the value has moved
    against this batch's gradient, and the buffer holds exactly this
    batch's gradient, whatever it held before. *)
Lemma after_pass_param (w : world) (m : sequential) (c : criterion) (rate : R)
    (x : matrix) (y : list nat) (θ : list matrix) (out : matrix) (l : R)
    (k : nat) (r : ref) (d : matrix) :
  holds w m θ → parameters m !! k = Some r → θ !! k = Some d →
  let g := tabulate_like (autograd (arch m) θ x c y k) d in
  params (after_pass m c rate x y θ out l w) !! r =
  Some (Param (pointwise (λ a da, a - rate * da) d g) (Some g)).
Proof.
  intros [Hnd Hθ] Hr Hd g.
  destruct (Forall2_lookup_lr _ _ _ _ _ _ Hθ Hr Hd) as (g0 & Hp & Hshape).
  unfold after_pass. cbn [params]. rewrite !lookup_on_params, Hp.
  rewrite (position_lookup _ _ _ Hnd Hr). cbn [fmap option_fmap option_map].
  unfold sgd_step, accumulate, clear_grad, gradient_of.
  cbn [data grad g_arch g_theta g_input]. fold g.
  assert (match (if set_to_none then None else zeros_like <$> g0) with
          | Some z => pointwise Rplus z g
          | None => g
          end = g) as ->.
  { destruct set_to_none; [done|]. destruct g0 as [g0|]; [|done]. simpl.
    apply pointwise_zeros_like. rewrite (Hshape _ eq_refl).
    unfold g. by rewrite shape_tabulate_like. }
  do 2 f_equal. apply pointwise_ext. intros a da. lra.
Qed.

(** Parameters that do not belong to the model are left alone. *)
Lemma after_pass_other (w : world) (m : sequential) (c : criterion) (rate : R)
    (x : matrix) (y : list nat) (θ : list matrix) (out : matrix) (l : R) (r : ref) :
  r ∉ parameters m →
  params (after_pass m c rate x y θ out l w) !! r = params w !! r.
Proof.
  intros Hr. unfold after_pass. cbn [params].
  rewrite !lookup_on_params, (position_None _ _ Hr).
  by destruct (params w !! r).
Qed.

Lemma length_gradients (layers : list layer) (θ : list matrix) (x : matrix)
    (c : criterion) (y : list nat) :
  length (gradients layers θ x c y) = length θ.
Proof. unfold gradients. apply length_imap. Qed.

Lemma lookup_descend (rate : R) (layers : list layer) (θ : list matrix)
    (x : matrix) (c : criterion) (y : list nat) (k : nat) :
  descend rate θ (gradients layers θ x c y) !! k =
  (λ d, pointwise (λ a da, a - rate * da) d
          (tabulate_like (autograd layers θ x c y k) d)) <$> θ !! k.
Proof.
  unfold descend, gradients. rewrite lookup_zip_with, list_lookup_imap.
  by destruct (θ !! k).
Qed.

Lemma shape_descend (rate : R) (layers : list layer) (θ : list matrix)
    (x : matrix) (c : criterion) (y : list nat) :
  shape <$> descend rate θ (gradients layers θ x c y) = shape <$> θ.
Proof.
  apply list_eq. intros k. rewrite !list_lookup_fmap, lookup_descend.
  destruct (θ !! k) as [d|]; simpl; [|done]. f_equal.
  apply shape_pointwise, shape_tabulate_like.
Qed.

(** The store stays well formed, with the values one descent step away. *)
Lemma holds_after_pass (w : world) (m : sequential) (c : criterion) (rate : R)
    (x : matrix) (y : list nat) (θ : list matrix) (out : matrix) (l : R) :
  holds w m θ →
  holds (after_pass m c rate x y θ out l w) m
        (descend rate θ (gradients (arch m) θ x c y)).
Proof.
  intros Hw. split; [apply Hw|].
  apply Forall2_same_length_lookup. split.
  - destruct Hw as [_ Hθ]. apply Forall2_length in Hθ.
    unfold descend. rewrite length_zip_with, length_gradients. lia.
  - intros k r d' Hr Hd'. rewrite lookup_descend in Hd'.
    destruct (θ !! k) as [d|] eqn:Hd; simpl in Hd'; [|done].
    injection Hd' as <-. eexists. split.
    + by apply after_pass_param.
    + intros g0 [= <-]. rewrite shape_tabulate_like.
      symmetry. apply shape_pointwise, shape_tabulate_like.
Qed.

End PassFacts.

Section LoopFacts.
Context `{Torch}.
Local Open Scope R_scope.

Lemma bind_Ret {A B} (a : A) (k : A → prog B) : Ret a ≫= k = k a.
Proof. done. Qed.

Lemma pass_result_Some (layers : list layer) (c : criterion) (rate : R)
    (θ : list matrix) (b : batch) (r : list matrix * R) :
  pass_result layers c rate θ b = Some r →
  ∃ x out, view b.1 = Some x ∧ forward layers θ x = Some out ∧
           loss_value c out b.2 = inr r.2 ∧
           r.1 = descend rate θ (gradients layers θ x c b.2).
Proof.
  unfold pass_result, loss_at.
  destruct (view b.1) as [x|]; simpl; [|done].
  destruct (forward layers θ x) as [out|] eqn:Hout; simpl; [|done].
  destruct (loss_value c out b.2) as [e|l] eqn:Hl; simpl; [done|].
  intros Hr. injection Hr as <-. by exists x, out.
Qed.

Lemma lookup_loss_after_pass (w : world) (m : sequential) (c : criterion) (rate : R)
    (x : matrix) (y : list nat) (θ : list matrix) (out : matrix) (l : R) :
  tensors (after_pass m c rate x y θ out l w) !! S (length (tensors w)) =
  Some (Scalar l None).
Proof.
  unfold after_pass. cbn [tensors].
  rewrite lookup_app_r by lia.
  replace (S (length (tensors w)) - length (tensors w))%nat with 1%nat by lia.
  done.
Qed.

(** One turn of the inner loop. *)
Lemma exec_batch_body (w : world) (m : sequential) (c : criterion)
    (opt : optimizer) (acc : R) (b : batch) (θ : list matrix)
    (r : list matrix * R) :
  holds w m θ → param_group opt = parameters m →
  pass_result (arch m) c (lr opt) θ b = Some r →
  ∃ x out,
    view b.1 = Some x ∧ forward (arch m) θ x = Some out ∧
    loss_value c out b.2 = inr r.2 ∧
    let n := length (tensors w) in
    exec (batch_body m c opt acc b) w =
    ([Called (ZeroGrad opt) (); Called (Forward m x) n;
      Called (Criterion c n b.2) (S n); Called (Backward (S n)) ();
      Called (Step opt) (); Called (Item (S n)) r.2],
     inr (acc + r.2), after_pass m c (lr opt) x b.2 θ out r.2 w).
Proof.
  intros Hw Hopt Hr.
  destruct (pass_result_Some _ _ _ _ _ _ Hr) as (x & out & Hx & Hout & Hl & _).
  exists x, out. split_and!; try done. intros n.
  destruct b as [images labels]. cbn [fst snd] in *.
  unfold batch_body. rewrite Hx. unfold or_raise. rewrite bind_Ret.
  rewrite exec_bind, (exec_training_pass _ _ _ _ _ _ _ _ _ Hw Hopt Hout Hl).
  rewrite exec_bind, exec_call.
  erewrite handle_Item by apply lookup_loss_after_pass.
  done.
Qed.


Lemma items_app (t1 t2 : list called) : items (t1 ++ t2) = items t1 ++ items t2.
Proof. apply omap_app. Qed.
Lemma forwarded_app (t1 t2 : list called) :
  forwarded (t1 ++ t2) = forwarded t1 ++ forwarded t2.
Proof. apply omap_app. Qed.
Lemma traversals_app (t1 t2 : list called) :
  traversals (t1 ++ t2) = traversals t1 ++ traversals t2.
Proof. apply omap_app. Qed.
Lemma prints_app (t1 t2 : list called) : prints (t1 ++ t2) = prints t1 ++ prints t2.
Proof. apply omap_app. Qed.

(** What a sequence of per-batch blocks shows to the observers. *)
Lemma blocks_observed (m : sequential) (c : criterion) (opt : optimizer)
    (bs : list batch) (blocks : list (list called)) :
  Forall2 (pass_block m c opt) bs blocks →
  length (items (concat blocks)) = length bs ∧
  Some <$> forwarded (concat blocks) = (λ b, view b.1) <$> bs ∧
  traversals (concat blocks) = [] ∧
  prints (concat blocks) = [].
Proof.
  induction 1 as [|b block bs blocks (x & n & l & Hx & ->) _ IH]; [done|].
  destruct IH as (IH1 & IH2 & IH3 & IH4).
  cbn [concat]. rewrite items_app, forwarded_app, traversals_app, prints_app.
  rewrite IH3, IH4. cbn. rewrite IH1, IH2, Hx. done.
Qed.

(** The inner loop over the batches of one traversal. *)
Lemma exec_for_each (w : world) (m : sequential) (c : criterion)
    (opt : optimizer) (acc : R) (bs : list batch) (θ : list matrix)
    (r : list matrix * R) :
  holds w m θ → param_group opt = parameters m →
  epoch_result (arch m) c (lr opt) θ acc bs = Some r →
  ∃ blocks w',
    exec (for_each (batch_body m c opt) acc bs) w = (concat blocks, inr r.2, w') ∧
    Forall2 (pass_block m c opt) bs blocks ∧
    holds w' m r.1 ∧ generator w' = generator w ∧ stdout w' = stdout w ∧
    r.2 = foldl Rplus acc (items (concat blocks)).
Proof.
  revert w acc θ. induction bs as [|b bs IH]; intros w acc θ Hw Hopt Hr.
  - injection Hr as <-. exists [], w. by split_and!.
  - cbn [epoch_result] in Hr.
    destruct (pass_result (arch m) c (lr opt) θ b) as [r1|] eqn:Hb; [|done].
    cbn [mbind option_bind] in Hr.
    destruct (exec_batch_body w m c opt acc b θ r1 Hw Hopt Hb)
      as (x & out & Hx & Hout & Hl & Hex).
    destruct (pass_result_Some _ _ _ _ _ _ Hb) as (x' & _ & Hx' & _ & _ & Hθ1).
    assert (x' = x) as -> by congruence.
    pose proof (holds_after_pass w m c (lr opt) x b.2 θ out r1.2 Hw) as Hw1.
    rewrite <- Hθ1 in Hw1.
    destruct (IH _ _ _ Hw1 Hopt Hr) as (blocks & w' & Hex' & Hblocks & Hw' & Hg & Hs & Hsum).
    eexists (_ :: blocks), w'. split_and!.
    + cbn [for_each]. rewrite exec_bind, Hex, Hex'. cbn [concat]. done.
    + constructor; [|done]. by exists x, (length (tensors w)), r1.2.
    + done.
    + by rewrite Hg.
    + by rewrite Hs.
    + rewrite Hsum. cbn [concat]. rewrite items_app. done.
Qed.


(** One turn of the outer loop. *)
Lemma exec_epoch (w : world) (m : sequential) (c : criterion)
    (opt : optimizer) (loader : DataLoader) (θ : list matrix)
    (r : list matrix * R) :
  holds w m θ → param_group opt = parameters m → len loader ≠ 0%nat →
  epoch_result (arch m) c (lr opt) θ 0 (traverse loader (generator w)).1 = Some r →
  let bs := (traverse loader (generator w)).1 in
  let mean := r.2 / INR (len loader) in
  ∃ blocks w',
    exec (epoch m c opt loader) w =
      ([Called (Iter loader) bs] ++ concat blocks ++
         [Called (Print (TrainingLoss mean)) ()],
       inr (), w') ∧
    Forall2 (pass_block m c opt) bs blocks ∧
    holds w' m r.1 ∧
    generator w' = (traverse loader (generator w)).2 ∧
    stdout w' = stdout w ++ [TrainingLoss mean] ∧
    r.2 = foldl Rplus 0 (items (concat blocks)).
Proof.
  intros Hw Hopt Hlen Hr bs mean.
  set (w1 := World (traverse loader (generator w)).2 (params w) (tensors w) (stdout w)).
  assert (holds w1 m θ) as Hw1 by exact Hw.
  destruct (exec_for_each w1 m c opt 0 bs θ r Hw1 Hopt Hr)
    as (blocks & w' & Hex & Hblocks & Hw' & Hg & Hs & Hsum).
  exists blocks, (World (generator w') (params w') (tensors w') (stdout w' ++ [TrainingLoss mean])).
  split_and!; try done.
  - unfold epoch. rewrite exec_bind, exec_call. cbn [handle].
    destruct (traverse loader (generator w)) as [bs' g'] eqn:Htr.
    cbn [fst snd] in *. subst bs. fold w1.
    rewrite exec_bind, Hex. unfold true_div.
    rewrite decide_False by done. rewrite bind_Ret, exec_call. cbn [handle].
    done.
  - cbn [stdout]. by rewrite Hs.
Qed.

Lemma length_traversal_list (loader : DataLoader) (n : nat) (g : G) :
  length (traversal_list loader n g) = n.
Proof. revert g. induction n as [|n IH]; intros g; simpl; [done | by rewrite IH]. Qed.

(** The outer loop. *)
Lemma exec_training_loop (epochs : nat) (w : world) (m : sequential)
    (c : criterion) (opt : optimizer) (loader : DataLoader) (θ : list matrix)
    (s : list matrix * G * list R) :
  holds w m θ → param_group opt = parameters m →
  training_result (arch m) c (lr opt) loader epochs θ (generator w) = Some s →
  ∃ t w',
    exec (training_loop epochs m c opt loader) w = (t, inr (), w') ∧
    holds w' m s.1.1 ∧ generator w' = s.1.2 ∧
    stdout w' = stdout w ++ (TrainingLoss <$> s.2) ∧
    prints t = TrainingLoss <$> s.2 ∧
    length s.2 = epochs ∧
    traversals t = traversal_list loader epochs (generator w) ∧
    Some <$> forwarded t = (λ b, view b.1) <$> concat (traversals t).
Proof.
  revert w θ s. induction epochs as [|n IH]; intros w θ s Hw Hopt Hs.
  - injection Hs as <-. exists [], w. split_and!; try done.
    cbn. by rewrite app_nil_r.
  - cbn [training_result] in Hs.
    destruct (epoch_result _ _ _ _ _ _) as [r|] eqn:Hr; [|done].
    cbn [mbind option_bind] in Hs. case_decide as Hlen; [done|].
    destruct (training_result _ _ _ _ _ _ _) as [s'|] eqn:Hs'; [|done].
    cbn [mbind option_bind] in Hs. injection Hs as <-.
    destruct (exec_epoch w m c opt loader θ r Hw Hopt Hlen Hr)
      as (blocks & w1 & Hex & Hblocks & Hw1 & Hg1 & Hout1 & Hsum).
    rewrite <- Hg1 in Hs'.
    destruct (IH _ _ _ Hw1 Hopt Hs')
      as (t & w' & Hex' & Hw' & Hg' & Hout' & Hprints & Hlen' & Htr & Hfw).
    destruct (blocks_observed _ _ _ _ _ Hblocks) as (_ & Hfw1 & Htr1 & Hpr1).
    eexists _, w'. split_and!.
    + unfold training_loop. cbn [for_range].
      fold (training_loop n m c opt loader). rewrite exec_bind, Hex, Hex'. done.
    + done.
    + done.
    + rewrite Hout', Hout1, <- app_assoc. done.
    + cbn [fst snd]. rewrite !prints_app, Hpr1, Hprints. done.
    + cbn [snd length]. by rewrite Hlen'.
    + rewrite !traversals_app, Htr1, Htr, Hg1. done.
    + rewrite !traversals_app, !forwarded_app, Htr1.
      cbn [traversals forwarded omap list_omap traversal_of forwarded_of app].
      rewrite concat_cons, !fmap_app, Hfw1, Hfw, fmap_nil, app_nil_r. done.
Qed.

End LoopFacts.

Section Totality.
Context `{Torch}.
Local Open Scope R_scope.

Lemma shape_replicate_lookup (x : matrix) (n width : nat) (i : nat) (row : list R) :
  shape x = replicate n width → x !! i = Some row → length row = width.
Proof.
  intros Hs Hi. assert (shape x !! i = Some (length row)) as Hl
    by (unfold shape; by rewrite list_lookup_fmap, Hi).
  rewrite Hs in Hl. by apply lookup_replicate in Hl as [-> _].
Qed.

Lemma shape_constant (x : matrix) (width : nat) :
  (∀ row, row ∈ x → length row = width) → shape x = replicate (length x) width.
Proof.
  intros Hrow. unfold shape. induction x as [|row x IH]; [done|].
  cbn. rewrite Hrow by left. f_equal. apply IH. intros r Hr. apply Hrow. by right.
Qed.

(** A well-formed batch flattens to one row of [width] entries per example. *)
Lemma view_batch_ok (width classes : nat) (b : batch) :
  batch_ok width classes b →
  ∃ x, view b.1 = Some x ∧ shape x = replicate (length x) width ∧
       length x = length b.2 ∧ x ≠ [].
Proof.
  intros (Hne & Himg & Hlen & _). destruct b as [images labels]. cbn [fst snd] in *.
  destruct images as [|img images]; [done|]. eexists. split; [done|]. split_and!.
  - apply shape_constant. intros row Hrow.
    apply list_elem_of_fmap in Hrow as (img' & -> & Himg').
    rewrite List.Forall_forall in Himg. apply Himg. by apply list_elem_of_In.
  - by rewrite length_fmap.
  - done.
Qed.

Lemma linear_fits (i o : nat) (W b x : matrix) :
  shape W = replicate o i → shape b = [o] → shape x = replicate (length x) i →
  ∃ out, linear i o W b x = Some out ∧ shape out = replicate (length x) o.
Proof.
  intros HW Hb Hx. unfold linear. rewrite decide_True by done.
  eexists. split; [done|].
  assert (length W = o) as HlW.
  { apply (f_equal length) in HW. unfold shape in HW.
    by rewrite length_fmap, length_replicate in HW. }
  assert (length (concat b) = o) as Hlb.
  { destruct b as [|b0 [|??]]; try done. injection Hb as Hb.
    cbn. by rewrite app_nil_r. }
  rewrite <- (length_fmap (λ row, zip_with (λ wrow bj, dot wrow row + bj) W (concat b)) x).
  apply shape_constant. intros row Hrow.
  apply list_elem_of_fmap in Hrow as (r & -> & _).
  rewrite length_zip_with. lia.
Qed.

Lemma length_relu (x : matrix) : length (relu x) = length x.
Proof. unfold relu. apply length_fmap. Qed.
Lemma length_log_softmax (x : matrix) : length (log_softmax x) = length x.
Proof. unfold log_softmax. apply length_fmap. Qed.

(** When the shapes of the parameters fit the layers, the forward pass
    succeeds on every input of the right width. *)
Lemma forward_fits (layers : list layer) (θ : list matrix) (x : matrix)
    (width classes : nat) :
  fits layers (shape <$> θ) width = Some classes →
  shape x = replicate (length x) width →
  ∃ out, forward layers θ x = Some out ∧
         shape out = replicate (length x) classes.
Proof.
  revert θ x width. induction layers as [|l layers IH]; intros θ x width Hfit Hx.
  - injection Hfit as <-. by exists x.
  - destruct l as [i o| |]; cbn [fits forward] in *.
    + destruct θ as [|W [|b θ]]; [done..|]. cbn [fmap list_fmap] in Hfit.
      case_decide as Hc; [|done]. destruct Hc as (HW & Hb & ->).
      destruct (linear_fits i o W b x HW Hb Hx) as (x' & -> & Hx').
      cbn [mbind option_bind].
      assert (length x' = length x) as Hlen.
      { apply (f_equal length) in Hx'. unfold shape in Hx'.
        by rewrite length_fmap, length_replicate in Hx'. }
      rewrite <- Hlen in Hx' |- *. by apply (IH θ x' o).
    + rewrite <- (length_relu x). apply (IH θ (relu x) width Hfit).
      by rewrite shape_relu, length_relu.
    + rewrite <- (length_log_softmax x). apply (IH θ (log_softmax x) width Hfit).
      by rewrite shape_log_softmax, length_log_softmax.
Qed.

(** On scores of the right shape and valid labels the criterion returns. *)
Lemma loss_value_total (c : criterion) (out : matrix) (y : list nat) (classes : nat) :
  shape out = replicate (length out) classes → length out = length y →
  out ≠ [] → Forall (λ k, k < classes)%nat y →
  ∃ l, loss_value c out y = inr l.
Proof.
  intros Hs Hlen Hne Hy. unfold loss_value.
  rewrite decide_False by (intros ?; done).
  rewrite decide_False by done.
  destruct (mapM _ _) as [losses|] eqn:HM; [by eexists|].
  apply mapM_None_1, Exists_exists in HM as ([row k] & Hin & Hnone).
  apply list_elem_of_In, list_elem_of_lookup in Hin as [i Hi].
  unfold zip in Hi. apply lookup_zip_with_Some in Hi as (row' & k' & [= <- <-] & Hrow & Hk).
  cbn [fst snd] in Hnone.
  pose proof (shape_replicate_lookup _ _ _ _ _ Hs Hrow) as Hrowlen.
  rewrite List.Forall_forall in Hy.
  assert (k < classes)%nat as Hkc by (apply Hy; eapply list_elem_of_In, list_elem_of_lookup_2; done).
  destruct c; cbn in Hnone.
  - unfold nll_example in Hnone.
    destruct (lookup_lt_is_Some_2 row k) as [v Hv]; [lia|]. by rewrite Hv in Hnone.
  - unfold cross_entropy_example in Hnone.
    destruct (lookup_lt_is_Some_2 (log_softmax_row row) k) as [v Hv];
      [rewrite length_log_softmax_row; lia|]. by rewrite Hv in Hnone.
Qed.

Lemma pass_result_total (layers : list layer) (c : criterion) (rate : R)
    (θ : list matrix) (b : batch) (width classes : nat) :
  fits layers (shape <$> θ) width = Some classes →
  batch_ok width classes b →
  ∃ r, pass_result layers c rate θ b = Some r ∧ shape <$> r.1 = shape <$> θ.
Proof.
  intros Hfit Hb.
  destruct (view_batch_ok _ _ _ Hb) as (x & Hx & Hsx & Hlen & Hne).
  destruct (forward_fits _ _ _ _ _ Hfit Hsx) as (out & Hout & Hso).
  assert (length out = length x) as Hlo.
  { apply (f_equal length) in Hso. unfold shape in Hso.
    by rewrite length_fmap, length_replicate in Hso. }
  destruct (loss_value_total c out b.2 classes) as [l Hl].
  - by rewrite Hlo.
  - lia.
  - intros ->. by destruct x.
  - apply Hb.
  - unfold pass_result, loss_at. rewrite Hx. cbn [mbind option_bind].
    rewrite Hout. cbn [mbind option_bind]. rewrite Hl. cbn [mbind option_bind].
    eexists. split; [done|]. cbn [fst]. apply shape_descend.
Qed.

Lemma epoch_result_total (layers : list layer) (c : criterion) (rate : R)
    (θ : list matrix) (acc : R) (bs : list batch) (width classes : nat) :
  fits layers (shape <$> θ) width = Some classes →
  Forall (batch_ok width classes) bs →
  ∃ r, epoch_result layers c rate θ acc bs = Some r ∧ shape <$> r.1 = shape <$> θ.
Proof.
  intros Hfit Hbs. revert θ acc Hfit.
  induction Hbs as [|b bs Hb _ IH]; intros θ acc Hfit.
  - by eexists.
  - destruct (pass_result_total layers c rate θ b _ _ Hfit Hb) as (r1 & Hr1 & Hs1).
    cbn [epoch_result]. rewrite Hr1. cbn [mbind option_bind].
    rewrite <- Hs1 in Hfit. destruct (IH r1.1 (acc + r1.2) Hfit) as (r & Hr & Hs).
    exists r. split; [done|]. by rewrite Hs.
Qed.

(** On a loader that yields well-formed batches, and at least one of them,
    the whole training has a result. *)
Lemma training_result_total (layers : list layer) (c : criterion) (rate : R)
    (loader : DataLoader) (epochs : nat) (θ : list matrix) (g : G)
    (width classes : nat) :
  fits layers (shape <$> θ) width = Some classes →
  loader_ok width classes loader → len loader ≠ 0%nat →
  ∃ s, training_result layers c rate loader epochs θ g = Some s.
Proof.
  intros Hfit [_ Hl] Hlen. revert θ g Hfit.
  induction epochs as [|n IH]; intros θ g Hfit; [by eexists|].
  pose proof (Hl g) as Hbs.
  destruct (epoch_result_total layers c rate θ 0 _ _ _ Hfit Hbs) as (r & Hr & Hs).
  cbn [training_result]. rewrite Hr. cbn [mbind option_bind].
  rewrite decide_False by done. rewrite <- Hs in Hfit.
  destruct (IH r.1 (traverse loader g).2 Hfit) as [s ->]. by eexists.
Qed.

End Totality.

Section Construction.
Context `{Torch}.
Local Open Scope R_scope.

Lemma length_draws (n fan_in : nat) (g : G) : length (draws n fan_in g).1 = n.
Proof.
  revert g. induction n as [|n IH]; intros g; [done|]. cbn [draws].
  destruct (next_weight g fan_in) as [x g1]. specialize (IH g1).
  destruct (draws n fan_in g1) as [xs g2]. cbn in *. by rewrite IH.
Qed.

Lemma shape_draw_rows (rows cols fan_in : nat) (g : G) :
  shape (draw_rows rows cols fan_in g).1 = replicate rows cols.
Proof.
  revert g. induction rows as [|n IH]; intros g; [done|]. cbn [draw_rows].
  pose proof (length_draws cols fan_in g) as Hr.
  destruct (draws cols fan_in g) as [r g1]. specialize (IH g1).
  destruct (draw_rows n cols fan_in g1) as [rs g2]. cbn [fst snd] in *.
  unfold shape in *. by rewrite fmap_cons, Hr, IH.
Qed.

(** [nn.Sequential] creates every parameter with the shape its layer
    declares. *)
Lemma shape_init_parameters (layers : list layer) (g : G) :
  shape <$> (init_parameters layers g).1 = layer_shapes layers.
Proof.
  revert g. induction layers as [|l layers IH]; intros g; [done|].
  destruct l as [i o| |]; cbn [init_parameters layer_shapes]; [|apply IH..].
  pose proof (shape_draw_rows o i i g) as HW.
  destruct (draw_rows o i i g) as [W g1].
  pose proof (length_draws o i g1) as Hb.
  destruct (draws o i g1) as [b g2]. specialize (IH g2).
  destruct (init_parameters layers g2) as [θ g3]. cbn [fst snd] in *.
  rewrite !fmap_cons, HW, IH. unfold shape. rewrite fmap_cons, Hb. done.
Qed.

Lemma handle_NewSequential (layers : list layer) (w : world) :
  handle (NewSequential layers) w =
  (inr (constructed layers w).1, (constructed layers w).2).
Proof.
  unfold constructed. cbn [handle fst snd].
  by destruct (init_parameters layers (generator w)) as [θ g].
Qed.

(** A fresh model holds its initial values, in parameters of its own. *)
Lemma holds_constructed (layers : list layer) (w : world) :
  holds (constructed layers w).2 (constructed layers w).1
        (init_parameters layers (generator w)).1.
Proof.
  unfold constructed. cbn [fst snd].
  set (θ := (init_parameters layers (generator w)).1).
  split; cbn [parameters params].
  - apply NoDup_seq.
  - apply Forall2_same_length_lookup. split; [by rewrite length_seq|].
    intros k r d Hr Hd. apply lookup_seq in Hr as [-> Hk].
    exists None. split; [|done].
    rewrite lookup_app_r by lia.
    replace (length (params w) + k - length (params w))%nat with k by lia.
    by rewrite list_lookup_fmap, Hd.
Qed.

(** Cell 29 as a whole: the run of [train_from_scratch] on any store. *)
Lemma exec_train_from_scratch (layers : list layer) (rate : R) (epochs : nat)
    (loader : DataLoader) (w : world) (s : list matrix * G * list R) :
  training_result layers NLLLoss rate loader epochs
    (init_parameters layers (generator w)).1
    (init_parameters layers (generator w)).2 = Some s →
  let m := (constructed layers w).1 in
  ∃ t w',
    exec (train_from_scratch layers rate epochs loader) w =
      ([Called (NewSequential layers) m] ++ t, inr m, w') ∧
    holds w' m s.1.1 ∧ generator w' = s.1.2 ∧
    stdout w' = stdout w ++ (TrainingLoss <$> s.2) ∧
    prints t = TrainingLoss <$> s.2 ∧
    length s.2 = epochs ∧
    traversals t = traversal_list loader epochs (init_parameters layers (generator w)).2 ∧
    Some <$> forwarded t = (λ b, view b.1) <$> concat (traversals t).
Proof.
  intros Hs m.
  pose proof (holds_constructed layers w) as Hw1. fold m in Hw1.
  set (w1 := (constructed layers w).2) in *.
  destruct (exec_training_loop epochs w1 m NLLLoss (SGD (parameters m) rate) loader
              _ s Hw1 eq_refl Hs)
    as (t & w' & Hex & Hw' & Hg & Hout & Hpr & Hlen & Htr & Hfw).
  exists t, w'. split_and!; try done.
  unfold train_from_scratch. rewrite exec_bind, exec_call, handle_NewSequential.
  fold m w1. rewrite exec_bind, Hex. cbn. by rewrite app_nil_r.
Qed.

End Construction.

Section AnyRun.
Context `{Torch}.
Local Open Scope R_scope.

(** Case analysis on the outcome of a library call. *)
Ltac handle_cases :=
  cbn [handle]; repeat case_match; cbn [fst snd]; try done.

(** A failed call leaves the store as it was. *)
Lemma handle_raises {X} (e : event X) (w : world) (ex : exn) :
  (handle e w).1 = inl ex → (handle e w).2 = w.
Proof. destruct e; handle_cases. Qed.

(** Only [print] writes to the standard output. *)
Lemma handle_stdout {X} (e : event X) (w : world) :
  stdout (handle e w).2 =
  stdout w ++ match (handle e w).1 with
              | inr x => prints [Called e x]
              | inl _ => []
              end.
Proof. destruct e; handle_cases; cbn; by rewrite ?app_nil_r. Qed.

Lemma exec_stdout {A} (p : prog A) (w : world) :
  stdout (exec p w).2 = stdout w ++ prints (exec p w).1.1.
Proof.
  revert w. induction p as [a|e|X e k IH]; intros w; cbn [exec];
    [symmetry; apply app_nil_r..|].
  pose proof (handle_stdout e w) as Hh.
  destruct (handle e w) as [[ex|x] w1]; cbn [fst snd] in *.
  - exact Hh.
  - specialize (IH x w1). destruct (exec (k x) w1) as [[t r] w2]. cbn [fst snd] in *.
    rewrite IH, Hh, <- app_assoc.
    change (Called e x :: t) with ([Called e x] ++ t). by rewrite prints_app.
Qed.


(** The calls of one training pass, on any store: when the pass completes
    they are the five stages in order, each one fed with the result of the
    one before; when a stage raises, the calls made so far are the
    stages before it. *)
Lemma training_pass_calls (w : world) (m : sequential) (c : criterion)
    (opt : optimizer) (x : matrix) (y : list nat) :
  let '(t, r, _) := exec (training_pass m c opt x y) w in
  match r with
  | inr loss =>
      ∃ output,
        t = [Called (ZeroGrad opt) (); Called (Forward m x) output;
             Called (Criterion c output y) loss; Called (Backward loss) ();
             Called (Step opt) ()]
  | inl _ =>
      ∃ output loss,
        t `prefix_of` [Called (ZeroGrad opt) (); Called (Forward m x) output;
                       Called (Criterion c output y) loss;
                       Called (Backward loss) (); Called (Step opt) ()] ∧
        (length t < 5)%nat
  end.
Proof.
  unfold training_pass. cbn [exec mbind prog_bind bind call].
  destruct (handle (ZeroGrad opt) w) as [[e1|[]] w1].
  { exists 0%nat, 0%nat. split; [by eexists | cbn; lia]. }
  destruct (handle (Forward m x) w1) as [[e2|output] w2].
  { exists 0%nat, 0%nat. split; [by eexists | cbn; lia]. }
  destruct (handle (Criterion c output y) w2) as [[e3|loss] w3].
  { exists output, 0%nat. split; [by eexists | cbn; lia]. }
  destruct (handle (Backward loss) w3) as [[e4|[]] w4].
  { exists output, loss. split; [by eexists | cbn; lia]. }
  destruct (handle (Step opt) w4) as [[e5|[]] w5].
  { exists output, loss. split; [by eexists | cbn; lia]. }
  cbn. by exists output.
Qed.

(** One turn of the inner loop, on any store: nothing is printed, no
    traversal is started, and when the turn completes exactly one loss
    was read and added to the running sum. *)
Lemma batch_body_observed (w : world) (m : sequential) (c : criterion)
    (opt : optimizer) (acc : R) (b : batch) :
  let '(t, r, _) := exec (batch_body m c opt acc b) w in
  prints t = [] ∧ traversals t = [] ∧
  match r with
  | inr total => ∃ l, items t = [l] ∧ total = acc + l
  | inl _ => True
  end.
Proof.
  destruct b as [images labels]. unfold batch_body.
  destruct (view images) as [x|]; cbn [or_raise]; [|done].
  rewrite bind_Ret, exec_bind.
  pose proof (training_pass_calls w m c opt x labels) as Hpass.
  destruct (exec (training_pass m c opt x labels) w) as [[t [ex|loss]] w1].
  - destruct Hpass as (output & loss & [k Hk] & Hlen).
    assert (prints (t ++ k) = [] ∧ traversals (t ++ k) = []) as [Hp Ht]
      by (by rewrite <- Hk).
    rewrite prints_app in Hp. rewrite traversals_app in Ht.
    apply app_eq_nil in Hp as [-> _]. apply app_eq_nil in Ht as [-> _]. done.
  - destruct Hpass as [output ->]. rewrite exec_bind, exec_call.
    destruct (handle (Item loss) w1) as [[ex|l] w2]; [done|].
    cbn. split_and!; try done. by exists l.
Qed.

Lemma for_each_observed (w : world) (m : sequential) (c : criterion)
    (opt : optimizer) (acc : R) (bs : list batch) :
  let '(t, r, _) := exec (for_each (batch_body m c opt) acc bs) w in
  prints t = [] ∧ traversals t = [] ∧
  match r with
  | inr total => total = foldl Rplus acc (items t) ∧ length (items t) = length bs
  | inl _ => True
  end.
Proof.
  revert w acc. induction bs as [|b bs IH]; intros w acc; [done|].
  cbn [for_each]. rewrite exec_bind.
  pose proof (batch_body_observed w m c opt acc b) as Hb.
  destruct (exec (batch_body m c opt acc b) w) as [[t1 [ex|acc1]] w1]; [by destruct Hb as (? & ? & _)|].
  destruct Hb as (Hp1 & Ht1 & l & Hi1 & ->).
  specialize (IH w1 (acc + l)).
  destruct (exec (for_each (batch_body m c opt) (acc + l) bs) w1) as [[t2 r] w2].
  destruct IH as (Hp2 & Ht2 & Hr).
  rewrite prints_app, traversals_app, Hp1, Ht1, Hp2, Ht2. split_and!; try done.
  destruct r as [ex|total]; [done|]. destruct Hr as [-> Hlen].
  rewrite items_app, Hi1. cbn. by rewrite Hlen.
Qed.

(** A completed turn of the outer loop, on any store: one traversal, one
    loss per batch, one line of output, the mean of the losses. *)
Lemma epoch_observed (w : world) (m : sequential) (c : criterion)
    (opt : optimizer) (loader : DataLoader) (t : list called) (w' : world) :
  exec (epoch m c opt loader) w = (t, inr (), w') →
  ∃ bs, traversals t = [bs] ∧ bs = (traverse loader (generator w)).1 ∧
        length (items t) = length bs ∧ len loader ≠ 0%nat ∧
        prints t = [TrainingLoss (foldl Rplus 0 (items t) / INR (len loader))].
Proof.
  unfold epoch. rewrite exec_bind, exec_call. cbn [handle].
  destruct (traverse loader (generator w)) as [bs g] eqn:Htr. cbn [fst snd].
  rewrite exec_bind.
  match goal with |- context [exec (for_each _ _ _) ?w0] => set (w1 := w0) end.
  pose proof (for_each_observed w1 m c opt 0 bs) as Hloop.
  destruct (exec (for_each (batch_body m c opt) 0 bs) w1) as [[t1 [ex|total]] w2]; [done|].
  destruct Hloop as (Hp & Ht & -> & Hlen).
  unfold true_div. case_decide as Hz; [done|].
  rewrite bind_Ret, exec_call. cbn [handle].
  intros [= <- <-]. exists bs.
  change (Called (Iter loader) bs :: ?l) with ([Called (Iter loader) bs] ++ l).
  rewrite !traversals_app, !items_app, !prints_app, Hp, Ht.
  cbn. rewrite !app_nil_r. done.
Qed.

End AnyRun.

Section Frames.
Context `{Torch}.
Local Open Scope R_scope.

Lemma position_elem (refs : list ref) (r : ref) :
  r ∈ refs → is_Some (position r refs).
Proof.
  intros Hr. unfold position.
  destruct (list_find (eq r) refs) as [[i x]|] eqn:Hf; [by eexists|].
  apply list_find_None in Hf. rewrite List.Forall_forall in Hf.
  destruct (Hf r); [by apply list_elem_of_In | done].
Qed.

Lemma grad_at_on_params (w : world) (refs : list ref)
    (f : nat → parameter → parameter) (r : ref) (ps : list parameter) :
  (∀ k p, grad (f k p) = grad p) →
  on_params refs f ps !! r ≫= grad = ps !! r ≫= grad.
Proof.
  intros Hf. rewrite lookup_on_params. destruct (ps !! r) as [p|]; [|done].
  cbn. destruct (position r refs); by rewrite ?Hf.
Qed.

Lemma grad_sgd_step (rate : R) (p : parameter) : grad (sgd_step rate p) = grad p.
Proof. unfold sgd_step. by destruct (grad p) eqn:Hg. Qed.

(** No library call other than [zero_grad] and [backward] touches a
    gradient buffer. *)
Lemma handle_keeps_grad {X} (e : event X) (x : X) (w : world) (r : ref) :
  is_backward (Called e x) = false → is_zero_grad (Called e x) = false →
  grad_at (handle e w).2 r = grad_at w r.
Proof.
  unfold grad_at. destruct e; try done; intros _ _;
    cbn [handle]; repeat case_match; cbn [snd params]; try done.
  - destruct (decide (r < length (params w))%nat) as [Hlt|Hge].
    + by rewrite lookup_app_l.
    + rewrite lookup_app_r by lia. rewrite (lookup_ge_None_2 (params w)) by lia.
      rewrite list_lookup_fmap. by destruct (_ !! _).
  - apply (grad_at_on_params w). intros _ p. apply grad_sgd_step.
Qed.

Lemma cleared_clear_grad (p : parameter) : cleared (grad (clear_grad p)).
Proof.
  unfold clear_grad. cbn [grad]. destruct set_to_none; [done|].
  destruct (grad p); [apply all_zero_zeros_like | done].
Qed.

(** Right after [optimizer.zero_grad()] every buffer of the optimizer's
    parameters is cleared. *)
Lemma zero_grad_clears (w : world) (opt : optimizer) (r : ref) :
  r ∈ param_group opt → cleared (grad_at (handle (ZeroGrad opt) w).2 r).
Proof.
  intros Hr. unfold grad_at. cbn [handle snd params].
  rewrite lookup_on_params. destruct (params w !! r) as [p|]; [|done].
  destruct (position_elem _ _ Hr) as [k ->]. cbn. apply cleared_clear_grad.
Qed.

(** Every call but [backward] keeps a cleared buffer cleared. *)
Lemma handle_keeps_cleared {X} (e : event X) (x : X) (w : world) (r : ref) :
  is_backward (Called e x) = false →
  cleared (grad_at w r) → cleared (grad_at (handle e w).2 r).
Proof.
  intros Hb Hc.
  destruct (is_zero_grad (Called e x)) eqn:Hz;
    [|by rewrite (handle_keeps_grad e x)].
  destruct e; try done. unfold grad_at in *. cbn [handle snd params].
  rewrite lookup_on_params. destruct (params w !! r) as [p|]; [|done].
  cbn in *. destruct (position r (param_group o)); [apply cleared_clear_grad | done].
Qed.

Lemma exec_keeps_cleared {A} (p : prog A) (w : world) (r : ref) :
  cleared (grad_at w r) →
  Forall (λ c, is_backward c = false) (exec p w).1.1 →
  cleared (grad_at (exec p w).2 r).
Proof.
  revert w. induction p as [a|e|X e k IH]; intros w Hc Ht; cbn [exec] in *; try done.
  pose proof (handle_raises e w) as Hr.
  pose proof (λ x, handle_keeps_cleared e x w r) as Hk.
  destruct (handle e w) as [[ex|x] w1]; cbn [fst snd] in *.
  - by rewrite (Hr ex eq_refl).
  - specialize (IH x w1). destruct (exec (k x) w1) as [[t res] w2]. cbn [fst snd] in *.
    apply List.Forall_cons_iff in Ht as [Hb Ht]. apply IH; [|done]. by apply (Hk x).
Qed.

Lemma exec_keeps_grad {A} (p : prog A) (w : world) (r : ref) :
  Forall (λ c, is_backward c = false ∧ is_zero_grad c = false) (exec p w).1.1 →
  grad_at (exec p w).2 r = grad_at w r.
Proof.
  revert w. induction p as [a|e|X e k IH]; intros w Ht; cbn [exec] in *; try done.
  pose proof (handle_raises e w) as Hr.
  pose proof (λ x, handle_keeps_grad e x w r) as Hk.
  destruct (handle e w) as [[ex|x] w1]; cbn [fst snd] in *.
  - by rewrite (Hr ex eq_refl).
  - specialize (IH x w1). destruct (exec (k x) w1) as [[t res] w2]. cbn [fst snd] in *.
    apply List.Forall_cons_iff in Ht as [[Hb Hz] Ht]. rewrite IH by done. by apply (Hk x).
Qed.

(** What a library call does to the tensors: nothing, or it adds one, or
    (for [backward]) it frees the graph of a scalar. *)
Lemma handle_tensors {X} (e : event X) (w : world) :
  tensors (handle e w).2 = tensors w ∨
  (∃ nd, tensors (handle e w).2 = tensors w ++ [nd]) ∨
  (∃ loss l tape, tensors w !! loss = Some (Scalar l tape) ∧
                  tensors (handle e w).2 = <[loss := Scalar l None]> (tensors w)).
Proof.
  destruct e; cbn [handle]; repeat case_match; cbn [snd tensors]; subst; eauto 10.
Qed.

(** A scalar that has been computed keeps its value, whatever is called
    afterwards: [backward] frees its graph and nothing else, the optimizer
    writes to parameters only. *)
Lemma handle_keeps_scalar {X} (e : event X) (w : world) (t : ref) (v : R) :
  scalar_value w t = Some v → scalar_value (handle e w).2 t = Some v.
Proof.
  unfold scalar_value. intros Hv.
  destruct (tensors w !! t) as [nd|] eqn:Ht; [|done].
  pose proof (lookup_lt_Some _ _ _ Ht) as Hlt.
  destruct (handle_tensors e w) as [->|[[nd' ->]|(loss & l & tape & Hl & ->)]].
  - by rewrite Ht.
  - by rewrite lookup_app_l, Ht.
  - destruct (decide (loss = t)) as [->|Hne].
    + rewrite list_lookup_insert_eq by done. rewrite Ht in Hl. by injection Hl as ->.
    + rewrite list_lookup_insert_ne by done. by rewrite Ht.
Qed.

Lemma exec_keeps_scalar {A} (p : prog A) (w : world) (t : ref) (v : R) :
  scalar_value w t = Some v → scalar_value (exec p w).2 t = Some v.
Proof.
  revert w. induction p as [a|e|X e k IH]; intros w Hv; cbn [exec]; try done.
  pose proof (handle_keeps_scalar e w t v Hv) as Hk.
  destruct (handle e w) as [[ex|x] w1]; cbn [fst snd] in *; [done|].
  specialize (IH x w1 Hk). by destruct (exec (k x) w1) as [[t' res] w2].
Qed.

End Frames.

Section MoreFacts.
Context `{Torch}.
Local Open Scope R_scope.

(** What [loss.backward()] does to a parameter the loss depends on. *)
Lemma backward_accumulates (w : world) (loss : ref) (l : R) (gr : graph)
    (c : criterion) (y : list nat) (k : nat) (r : ref) (p : parameter) :
  tensors w !! loss = Some (Scalar l (Some (gr, c, y))) →
  NoDup (g_parameters gr) → g_parameters gr !! k = Some r →
  params w !! r = Some p →
  params (handle (Backward loss) w).2 !! r =
  Some (Param (data p)
          (Some (match grad p with
                 | None => gradient_of gr c y k (data p)
                 | Some g0 => pointwise Rplus g0 (gradient_of gr c y k (data p))
                 end))).
Proof.
  intros Hl Hnd Hk Hp. erewrite handle_Backward by done. cbn [snd params].
  by rewrite lookup_on_params, Hp, (position_lookup _ _ _ Hnd Hk).
Qed.

(** What [optimizer.step()] does to a parameter of the optimizer. *)
Lemma step_descends (w : world) (opt : optimizer) (r : ref) (p : parameter)
    (g : matrix) :
  r ∈ param_group opt → params w !! r = Some p → grad p = Some g →
  params (handle (Step opt) w).2 !! r =
  Some (Param (pointwise (λ a da, a - lr opt * da) (data p) g) (Some g)).
Proof.
  intros Hr Hp Hg. cbn [handle snd params].
  rewrite lookup_on_params, Hp. destruct (position_elem _ _ Hr) as [k ->].
  cbn. unfold sgd_step. rewrite Hg. do 2 f_equal.
  apply pointwise_ext. intros a da. lra.
Qed.

(** After a pass the buffers of the model are this batch's gradients. *)
Lemma gradient_buffers_after_pass (w : world) (m : sequential) (c : criterion)
    (rate : R) (x : matrix) (y : list nat) (θ : list matrix) (out : matrix) (l : R) :
  holds w m θ →
  grad_at (after_pass m c rate x y θ out l w) <$> parameters m =
  Some <$> gradients (arch m) θ x c y.
Proof.
  intros Hw. apply list_eq. intros k. rewrite !list_lookup_fmap.
  unfold gradients. rewrite list_lookup_imap.
  destruct Hw as [Hnd Hθ].
  destruct (parameters m !! k) as [r|] eqn:Hr.
  - destruct (Forall2_lookup_l _ _ _ _ _ Hθ Hr) as (d & Hd & _).
    rewrite Hd. cbn. unfold grad_at.
    by rewrite (after_pass_param w m c rate x y θ out l k r d (conj Hnd Hθ) Hr Hd).
  - apply Forall2_length in Hθ. apply lookup_ge_None in Hr.
    rewrite (lookup_ge_None_2 θ) by lia. done.
Qed.

Lemma pass_result_nonneg (layers : list layer) (c : criterion) (rate : R)
    (θ : list matrix) (b : batch) (r : list matrix * R) :
  (c = NLLLoss → list.last layers = Some LogSoftmax) →
  pass_result layers c rate θ b = Some r → 0 <= r.2.
Proof.
  intros Hc Hr.
  destruct (pass_result_Some _ _ _ _ _ _ Hr) as (x & out & _ & Hout & Hl & _).
  eapply loss_value_nonneg; [|exact Hl].
  intros ->. eapply forward_last_log_softmax; [by apply Hc | exact Hout].
Qed.

Lemma epoch_result_nonneg (layers : list layer) (c : criterion) (rate : R)
    (θ : list matrix) (acc : R) (bs : list batch) (r : list matrix * R) :
  (c = NLLLoss → list.last layers = Some LogSoftmax) →
  0 <= acc → epoch_result layers c rate θ acc bs = Some r → 0 <= r.2.
Proof.
  intros Hc. revert θ acc. induction bs as [|b bs IH]; intros θ acc Hacc Hr.
  - by injection Hr as <-.
  - cbn [epoch_result] in Hr.
    destruct (pass_result layers c rate θ b) as [r1|] eqn:Hb; [|done].
    cbn [mbind option_bind] in Hr. apply (IH _ _) in Hr; [done|].
    pose proof (pass_result_nonneg _ _ _ _ _ _ Hc Hb). lra.
Qed.

(** The means of a training are never negative. *)
Lemma training_result_nonneg (layers : list layer) (c : criterion) (rate : R)
    (loader : DataLoader) (epochs : nat) (θ : list matrix) (g : G)
    (s : list matrix * G * list R) :
  (c = NLLLoss → list.last layers = Some LogSoftmax) →
  training_result layers c rate loader epochs θ g = Some s →
  Forall (λ v, 0 <= v) s.2.
Proof.
  intros Hc. revert θ g s. induction epochs as [|n IH]; intros θ g s Hs.
  - injection Hs as <-. constructor.
  - cbn [training_result] in Hs.
    destruct (epoch_result _ _ _ _ _ _) as [r|] eqn:Hr; [|done].
    cbn [mbind option_bind] in Hs. case_decide as Hlen; [done|].
    destruct (training_result _ _ _ _ _ _ _) as [s'|] eqn:Hs'; [|done].
    cbn [mbind option_bind] in Hs. injection Hs as <-. cbn [snd].
    constructor; [|by eapply IH].
    apply epoch_result_nonneg in Hr; [|done|lra].
    apply Rmult_le_pos; [done|]. left. apply Rinv_0_lt_compat, lt_0_INR. lia.
Qed.

(** Cell 29 on batches of 784-pixel images with ten classes: the run
    completes and prints five means, none of them negative. *)
Corollary cell_29_prints_five_means (loader : DataLoader) (w : world) :
  loader_ok 784 10 loader → len loader ≠ 0%nat →
  ∃ t m w' (means : list R),
    exec (cell_29 loader) w = (t, inr m, w') ∧
    stdout w' = stdout w ++ (TrainingLoss <$> means) ∧
    length means = 5%nat ∧
    Forall (λ v, 0 <= v) means.
Proof.
  intros Hl Hlen. unfold cell_29.
  assert (fits cell_21_layers
            (shape <$> (init_parameters cell_21_layers (generator w)).1) 784 =
          Some 10%nat) as Hfit by (by rewrite shape_init_parameters).
  destruct (training_result_total cell_21_layers NLLLoss 0.003 loader 5 _
              (init_parameters cell_21_layers (generator w)).2 784 10 Hfit Hl Hlen)
    as [s Hs].
  destruct (exec_train_from_scratch cell_21_layers 0.003 5 loader w s Hs)
    as (t & w' & Hex & _ & _ & Hout & _ & Hn & _).
  eexists _, _, w', s.2. split_and!; [exact Hex | done | done |].
  apply (training_result_nonneg cell_21_layers NLLLoss _ _ _ _ _ _) in Hs; done.
Qed.

End MoreFacts.

(** ** The single step of cells 24 to 27 *)

Section SingleStep.
Context `{Torch}.
Local Open Scope R_scope.

Ltac run := cbn [exec mbind prog_bind bind call or_raise mret prog_ret].

Lemma handle_GetData (w : world) (p : ref) :
  handle (GetData p) w = (inr (data <$> params w !! p), w).
Proof. done. Qed.

Lemma handle_GetGrad (w : world) (p : ref) :
  handle (GetGrad p) w = (inr (params w !! p ≫= grad), w).
Proof. done. Qed.

Lemma handle_Print (w : world) (p : printed) :
  handle (Print p) w =
  (inr (), World (generator w) (params w) (tensors w) (stdout w ++ [p])).
Proof. done. Qed.

Lemma handle_Iter (w : world) (loader : DataLoader) :
  handle (Iter loader) w =
  (inr (traverse loader (generator w)).1,
   World (traverse loader (generator w)).2 (params w) (tensors w) (stdout w)).
Proof. cbn [handle]. by destruct (traverse loader (generator w)). Qed.

Lemma handle_ZeroGrad (w : world) (o : optimizer) :
  handle (ZeroGrad o) w =
  (inr (), World (generator w) (on_params (param_group o) (λ _, clear_grad) (params w))
             (tensors w) (stdout w)).
Proof. done. Qed.

Lemma handle_Step (w : world) (o : optimizer) :
  handle (Step o) w =
  (inr (), World (generator w)
             (on_params (param_group o) (λ _, sgd_step (lr o)) (params w))
             (tensors w) (stdout w)).
Proof. done. Qed.

Lemma rows_of_concat (cols : nat) (x : matrix) :
  Forall (λ row, length row = cols) x →
  rows_of (length x) cols (concat x) = x ∧ length (concat x) = (length x * cols)%nat.
Proof.
  induction 1 as [|row x Hrow _ [IH1 IH2]]; [done|].
  cbn [length concat rows_of].
  rewrite take_app_length', drop_app_length', IH1, length_app, IH2 by done.
  split; [done | lia].
Qed.

Lemma resize_full_batch (rows cols : nat) (images : list image) :
  length images = rows →
  Forall (λ img : image, length (concat (concat img)) = cols) images →
  resize_ rows cols images = Some ((λ img : image, concat (concat img)) <$> images).
Proof.
  intros Hrows Hpx.
  destruct (rows_of_concat cols ((λ img : image, concat (concat img)) <$> images))
    as [Hx Hlen]; [by apply Forall_fmap|].
  rewrite length_fmap, Hrows in Hx, Hlen.
  unfold resize_. cbn zeta. rewrite decide_True by lia. by rewrite Hx.
Qed.

(** On a full batch nothing is grown. *)
Lemma resized_full_batch (rows cols : nat) (images : list image) :
  length images = rows →
  Forall (λ img : image, length (concat (concat img)) = cols) images →
  resized rows cols images = (λ img : image, concat (concat img)) <$> images.
Proof.
  intros Hrows Hpx. unfold resized. by rewrite (resize_full_batch _ _ _ Hrows Hpx).
Qed.

Lemma first_weight_linear (m : sequential) (i o : nat) (layers : list layer) :
  arch m = Linear i o :: layers →
  first_weight m = or_raise IndexError (head (parameters m)).
Proof. intros Harch. unfold first_weight. by rewrite Harch. Qed.

(** Cells 26 and 27 on a model whose first layer is linear and a first
    batch of 64 images: every call the two cells make, with what it
    returns. *)
Lemma exec_cells_26_27 (w : world) (m : sequential) (θ : list matrix)
    (c : criterion) (opt : optimizer) (loader : DataLoader) (o classes : nat)
    (layers : list layer) (images : list image) (labels : list nat) :
  holds w m θ → param_group opt = parameters m →
  arch m = Linear 784 o :: layers →
  fits (arch m) (shape <$> θ) 784 = Some classes →
  head (traverse loader (generator w)).1 = Some (images, labels) →
  batch_ok 784 classes (images, labels) → length images = 64%nat →
  ∃ weight W θ' x out l w',
    θ = W :: θ' ∧ head (parameters m) = Some weight ∧
    view images = Some x ∧ forward (arch m) θ x = Some out ∧
    loss_value c out labels = inr l ∧
    let n := length (tensors w) in
    let g := tabulate_like (autograd (arch m) θ x c labels 0) W in
    let W' := pointwise (λ a da, a - lr opt * da) W g in
    exec (cells_26_27 m c opt loader) w =
      ([Called (GetData weight) (Some W); Called (Print (ShowTensor (Some W))) ();
        Called (Iter loader) (traverse loader (generator w)).1;
        Called (ZeroGrad opt) (); Called (Forward m x) n;
        Called (Criterion c n labels) (S n); Called (Backward (S n)) ();
        Called (GetGrad weight) (Some g); Called (Print (ShowTensor (Some g))) ();
        Called (Step opt) (); Called (GetData weight) (Some W');
        Called (Print (ShowTensor (Some W'))) ()],
       inr (S n), w').
Proof.
  intros [Hnd Hθ] Hopt Harch Hfit Hhead Hb Hfull.
  assert (∃ W θ', θ = W :: θ') as (W0 & θ' & ->).
  { rewrite Harch in Hfit. cbn [fits] in Hfit. destruct θ as [|W θ']; [done|]. eauto. }
  destruct (parameters m) as [|r0 refs] eqn:Hrefs; [by apply Forall2_nil_cons_inv in Hθ|].
  pose proof Hθ as Hθ0. apply List.Forall2_cons_iff in Hθ0 as [(g0 & Hp & Hshape) _].
  assert (position r0 (parameters m) = Some 0%nat) as Hpos.
  { apply position_lookup; rewrite Hrefs; [done | reflexivity]. }
  destruct (view_batch_ok _ _ _ Hb) as (x & Hx & Hsx & Hlen & Hxne).
  cbn [fst snd] in *.
  assert (resized 64 784 images = x) as Hresize.
  { rewrite (resized_full_batch 64 784 images Hfull) by apply Hb.
    destruct images; [done|]. by injection Hx as <-. }
  destruct (forward_fits _ _ _ _ _ Hfit Hsx) as (out & Hout & Hso).
  assert (length out = length x) as Hlo.
  { apply (f_equal length) in Hso. unfold shape in Hso.
    by rewrite length_fmap, length_replicate in Hso. }
  destruct (loss_value_total c out labels classes) as [l Hloss].
  { by rewrite Hlo. }
  { by rewrite Hlo. }
  { intros ->. by destruct x. }
  { apply Hb. }
  set (gr := Graph (arch m) (parameters m) (W0 :: θ') x).
  set (g := gradient_of gr c labels 0 W0).
  assert (match (if set_to_none then None else zeros_like <$> g0) with
          | Some z => pointwise Rplus z g
          | None => g
          end = g) as Hacc.
  { destruct set_to_none; [done|]. destruct g0 as [g0|]; [|done]. cbn.
    apply pointwise_zeros_like. rewrite (Hshape _ eq_refl).
    symmetry. apply shape_tabulate_like. }
  destruct (traverse loader (generator w)) as [bs g'] eqn:Htr. cbn [fst] in Hhead.
  destruct bs as [|b bs]; [done|]. injection Hhead as ->.
  eexists r0, W0, θ', x, out, l, _.
  split_and!; [done | done | done | done | done |].
  cbn zeta. fold gr. change (tabulate_like _ W0) with g.
  unfold cells_26_27, cell_26, cell_27.
  rewrite (first_weight_linear m _ _ _ Harch).
  revert Hresize. generalize (resized 64 784). intros resize Hresize.
  rewrite Hrefs. cbn [head]. run.
  rewrite handle_GetData, Hp. cbn iota. cbn [fmap option_fmap option_map data].
  rewrite handle_Print. cbn iota.
  rewrite handle_Iter. cbn [generator]. rewrite Htr. cbn iota. cbn [fst snd].
  unfold first_batch. cbn [head generator params tensors stdout]. run.
  rewrite Hresize.
  rewrite handle_ZeroGrad. cbn iota. rewrite Hopt, <- Hrefs.
  erewrite handle_Forward; [|cbn [params]|exact Hout]; cycle 1.
  { rewrite read_data_on_params by done. apply read_data_holds.
    split; [by rewrite Hrefs | by rewrite Hrefs]. }
  fold gr. cbn iota. cbn [generator params tensors stdout].
  erewrite handle_Criterion; [|cbn [tensors]; by apply list_lookup_middle|exact Hloss].
  cbn iota. cbn [generator params tensors stdout].
  erewrite handle_Backward; cycle 1.
  { cbn [tensors]. by apply list_lookup_middle. }
  change (g_parameters gr) with (parameters m).
  cbn iota. cbn [generator params tensors stdout].
  rewrite handle_GetGrad. cbn [params].
  rewrite Hrefs, !lookup_on_params, Hp, <- Hrefs, Hpos.
  cbn [fmap option_fmap option_map mbind option_bind].
  unfold accumulate, clear_grad. cbn [grad data].
  fold g. rewrite Hacc. cbn iota.
  rewrite handle_Print. cbn iota. cbn [generator params tensors stdout].
  rewrite handle_Step. cbn iota. rewrite Hopt.
  cbn [generator params tensors stdout].
  rewrite handle_GetData. cbn [params].
  rewrite Hrefs, !lookup_on_params, Hp, <- Hrefs, Hpos.
  cbn [fmap option_fmap option_map].
  unfold sgd_step, accumulate, clear_grad. cbn [grad data].
  fold g. rewrite !Hacc.
  rewrite (pointwise_ext _ (λ a da, a - lr opt * da)) by (intros; lra).
  cbn iota. rewrite handle_Print. cbn iota.
  rewrite length_app. cbn [length]. rewrite Nat.add_1_r. reflexivity.
Qed.

End SingleStep.

(** ** The claims of the specification *)

Section Claims.
Context `{Torch}.
Local Open Scope R_scope.

(** Unfold the interpreter up to the next library call. *)
Ltac run := cbn [exec mbind prog_bind bind call or_raise mret prog_ret].

(** Three claims of the specification speak of floating-point behaviour:
    two float computations that agree within a relative tolerance, repeated
    runs that are bit-identical, reported means that are finite.  With
    real-number scalars, and with the generator, the gradient engine and
    the loader as functions, these hold by construction or cannot be
    written; they are not stated here.  What the reals do show of them
    (the loss of cell 5 is the loss of cell 21, the means cell 29 prints
    are not negative) is proved further down, cell by cell. *)

(** C2. The training pass of cell 29, on a store that holds the model and
    a batch the model and the criterion accept, completes, having made
    exactly five library calls in this order: clear the gradients, forward
    pass, loss, backward pass, optimizer step; the loss is computed from
    what the forward pass returned, the backward pass starts from that
    loss, and the store it leaves is the one these calls build in that
    order (buffers cleared, then this batch's gradients added, then the
    values moved).  On any store, a pass that completes has made exactly
    these five calls, and a pass that raises a proper initial part of them.
    The single-step demo of cells 26 and 27, on a model whose first layer
    is linear and a first batch of 64 images, completes as well, and its
    stage calls are the same five in the same order; on any store, so are
    the stage calls of every run of the demo that completes. *)
Theorem training_step_stages :
  (∀ (w : world) (m : sequential) (c : criterion) (opt : optimizer)
     (images : matrix) (labels : list nat) (θ : list matrix) (out : matrix) (l : R),
     holds w m θ → param_group opt = parameters m →
     forward (arch m) θ images = Some out → loss_value c out labels = inr l →
     ∃ output loss,
       exec (training_pass m c opt images labels) w =
       ([Called (ZeroGrad opt) (); Called (Forward m images) output;
         Called (Criterion c output labels) loss; Called (Backward loss) ();
         Called (Step opt) ()],
        inr loss, after_pass m c (lr opt) images labels θ out l w)) ∧
  (∀ (w : world) (m : sequential) (c : criterion) (opt : optimizer)
     (images : matrix) (labels : list nat),
     let '(t, r, _) := exec (training_pass m c opt images labels) w in
     match r with
     | inr loss =>
         ∃ output,
           t = [Called (ZeroGrad opt) (); Called (Forward m images) output;
                Called (Criterion c output labels) loss; Called (Backward loss) ();
                Called (Step opt) ()]
     | inl _ =>
         ∃ output loss,
           t `prefix_of` [Called (ZeroGrad opt) (); Called (Forward m images) output;
                          Called (Criterion c output labels) loss;
                          Called (Backward loss) (); Called (Step opt) ()] ∧
           (length t < 5)%nat
     end) ∧
  (∀ (w : world) (m : sequential) (θ : list matrix) (c : criterion)
     (opt : optimizer) (loader : DataLoader) (o classes : nat)
     (layers : list layer) (images : list image) (labels : list nat),
     holds w m θ → param_group opt = parameters m →
     arch m = Linear 784 o :: layers →
     fits (arch m) (shape <$> θ) 784 = Some classes →
     head (traverse loader (generator w)).1 = Some (images, labels) →
     batch_ok 784 classes (images, labels) → length images = 64%nat →
     ∃ t loss w' x output,
       exec (cells_26_27 m c opt loader) w = (t, inr loss, w') ∧
       view images = Some x ∧
       List.filter is_stage t =
       [Called (ZeroGrad opt) (); Called (Forward m x) output;
        Called (Criterion c output labels) loss; Called (Backward loss) ();
        Called (Step opt) ()]) ∧
  (∀ (w : world) (m : sequential) (c : criterion) (opt : optimizer)
     (loader : DataLoader),
     let '(t, r, _) := exec (cells_26_27 m c opt loader) w in
     match r with
     | inr loss =>
         ∃ x y output,
           List.filter is_stage t =
           [Called (ZeroGrad opt) (); Called (Forward m x) output;
            Called (Criterion c output y) loss; Called (Backward loss) ();
            Called (Step opt) ()]
     | inl _ => True
     end).
Proof.
  split_and!.
  - intros w m c opt images labels θ out l Hw Hopt Hout Hl.
    exists (length (tensors w)), (S (length (tensors w))).
    apply (exec_training_pass w m c opt images labels θ out l Hw Hopt Hout Hl).
  - intros w m c opt images labels. apply training_pass_calls.
  - intros w m θ c opt loader o classes layers images labels
      Hw Hopt Harch Hfit Hhead Hb Hfull.
    destruct (exec_cells_26_27 w m θ c opt loader o classes layers images labels
                Hw Hopt Harch Hfit Hhead Hb Hfull)
      as (weight & W & θ' & x & out & l & w' & _ & _ & Hx & _ & _ & Hex).
    cbn zeta in Hex. eexists _, _, w', x, _. split_and!; [exact Hex | exact Hx |].
    reflexivity.
  - intros w m c opt loader.
    unfold cells_26_27, cell_26, cell_27, first_weight, first_batch.
    generalize (resized 64 784). intros resize.
    destruct (arch m) as [|[i o| |] layers]; run; try done.
    destruct (head (parameters m)) as [weight|]; run; [|done].
    destruct (handle (GetData weight) w) as [[?|initial] w1]; [done|].
    destruct (handle (Print (ShowTensor initial)) w1) as [[?|[]] w2]; [done|].
    destruct (handle (Iter loader) w2) as [[?|dataiter] w3]; [done|].
    destruct (head dataiter) as [[imgs y]|]; run; [|done].
    set (x := resize imgs).
    destruct (handle (ZeroGrad opt) w3) as [[?|[]] w4]; [done|].
    destruct (handle (Forward m x) w4) as [[?|output] w5]; [done|].
    destruct (handle (Criterion c output y) w5) as [[?|loss] w6]; [done|].
    destruct (handle (Backward loss) w6) as [[?|[]] w7]; [done|].
    destruct (handle (GetGrad weight) w7) as [[?|gradient] w8]; [done|].
    destruct (handle (Print (ShowTensor gradient)) w8) as [[?|[]] w9]; [done|].
    run.
    destruct (handle (Step opt) w9) as [[?|[]] w10]; [done|].
    destruct (handle (GetData weight) w10) as [[?|updated] w11]; [done|].
    destruct (handle (Print (ShowTensor updated)) w11) as [[?|[]] w12]; [done|].
    cbn. by exists x, y, output.
Qed.

(** C3. A completed epoch has traversed the loader once, has read one
    loss per batch, and has printed exactly one line: the sum of these
    losses divided by the number of batches of the loader.  Nothing else
    reached the standard output. *)
Theorem epoch_reports_mean_loss (w : world) (m : sequential) (c : criterion)
    (opt : optimizer) (loader : DataLoader) (t : list called) (w' : world) :
  len_ok loader →
  exec (epoch m c opt loader) w = (t, inr (), w') →
  let mean := foldl Rplus 0 (items t) / INR (len loader) in
  length (traversals t) = 1%nat ∧
  length (items t) = len loader ∧
  prints t = [TrainingLoss mean] ∧
  stdout w' = stdout w ++ [TrainingLoss mean].
Proof.
  intros Hlen Hex mean.
  destruct (epoch_observed _ _ _ _ _ _ _ Hex) as (bs & Ht & -> & Hitems & _ & Hp).
  pose proof (exec_stdout (epoch m c opt loader) w) as Hout.
  rewrite Hex in Hout. cbn [fst snd] in Hout.
  split_and!.
  - by rewrite Ht.
  - by rewrite Hitems, Hlen.
  - done.
  - by rewrite Hout, Hp.
Qed.

(** C4. Right after [optimizer.zero_grad()] returns, the gradient buffer
    of every parameter of the optimizer is cleared (absent, or zero in
    every entry), and it is still cleared after any further run of calls
    in which no backward pass completes. *)
Theorem zero_grad_clears_buffers (w : world) (opt : optimizer) (r : ref) :
  r ∈ param_group opt →
  let w0 := (handle (ZeroGrad opt) w).2 in
  cleared (grad_at w0 r) ∧
  ∀ (A : Type) (p : prog A),
    Forall (λ c, is_backward c = false) (exec p w0).1.1 →
    cleared (grad_at (exec p w0).2 r).
Proof.
  intros Hr w0. pose proof (zero_grad_clears w opt r Hr) as Hc. split; [done|].
  intros A p Hp. by apply exec_keeps_cleared.
Qed.

(** C5. A backward pass adds the new gradient of a parameter onto its
    buffer (a buffer that does not exist yet starts as that gradient);
    after a training pass, which clears first, the buffers of the model
    hold exactly the gradients of that pass; and no library call other
    than clear-gradients and backward changes a gradient buffer. *)
Theorem backward_accumulates_gradients :
  (∀ (w : world) (loss : ref) (l : R) (gr : graph) (c : criterion)
     (y : list nat) (k : nat) (r : ref) (p : parameter),
     tensors w !! loss = Some (Scalar l (Some (gr, c, y))) →
     NoDup (g_parameters gr) → g_parameters gr !! k = Some r →
     params w !! r = Some p →
     grad_at (handle (Backward loss) w).2 r =
     Some (match grad p with
           | None => gradient_of gr c y k (data p)
           | Some g0 => pointwise Rplus g0 (gradient_of gr c y k (data p))
           end)) ∧
  (∀ (w : world) (m : sequential) (c : criterion) (opt : optimizer)
     (x : matrix) (y : list nat) (θ : list matrix) (out : matrix) (l : R),
     holds w m θ → param_group opt = parameters m →
     forward (arch m) θ x = Some out → loss_value c out y = inr l →
     grad_at (exec (training_pass m c opt x y) w).2 <$> parameters m =
     Some <$> gradients (arch m) θ x c y) ∧
  (∀ (X : Type) (e : event X) (x : X) (w : world) (r : ref),
     is_backward (Called e x) = false → is_zero_grad (Called e x) = false →
     grad_at (handle e w).2 r = grad_at w r).
Proof.
  split_and!.
  - intros w loss l gr c y k r p Hl Hnd Hk Hp. unfold grad_at.
    by rewrite (backward_accumulates w loss l gr c y k r p Hl Hnd Hk Hp).
  - intros w m c opt x y θ out l Hw Hopt Hout Hl.
    rewrite (exec_training_pass _ _ _ _ _ _ _ _ _ Hw Hopt Hout Hl). cbn [snd].
    by apply gradient_buffers_after_pass.
  - intros X e x w r. apply handle_keeps_grad.
Qed.

(** C6. The optimizer step replaces the value of every parameter that has
    a gradient buffer by that value minus the learning rate times the
    buffer, entry by entry, and keeps the buffer; nothing but the value,
    the buffer and the learning rate enters the update.  After a training
    pass the values of the model are the previous values minus the
    learning rate times the gradients of the pass. *)
Theorem sgd_step_subtracts_scaled_gradient :
  (∀ (w : world) (opt : optimizer) (r : ref) (p : parameter) (g : matrix),
     r ∈ param_group opt → params w !! r = Some p → grad p = Some g →
     ∃ d', params (handle (Step opt) w).2 !! r = Some (Param d' (Some g)) ∧
           d' = pointwise (λ a da, a - lr opt * da) (data p) g ∧
           ∀ i j a da,
             data p !! i ≫= (.!! j) = Some a → g !! i ≫= (.!! j) = Some da →
             d' !! i ≫= (.!! j) = Some (a - lr opt * da)) ∧
  (∀ (w : world) (m : sequential) (c : criterion) (opt : optimizer)
     (x : matrix) (y : list nat) (θ : list matrix) (out : matrix) (l : R),
     holds w m θ → param_group opt = parameters m →
     forward (arch m) θ x = Some out → loss_value c out y = inr l →
     parameter_values (exec (training_pass m c opt x y) w).2 m =
     Some (descend (lr opt) θ (gradients (arch m) θ x c y))).
Proof.
  split.
  - intros w opt r p g Hr Hp Hg. eexists. split; [by apply step_descends|].
    split; [done|]. intros i j a da.
    apply (lookup_pointwise (λ a da, a - lr opt * da)).
  - intros w m c opt x y θ out l Hw Hopt Hout Hl.
    rewrite (exec_training_pass _ _ _ _ _ _ _ _ _ Hw Hopt Hout Hl). cbn [snd].
    apply read_data_holds. by apply holds_after_pass.
Qed.

(** C7, for a loader with at least one batch.  For every positive number
    of epochs and every loader that yields well-formed batches, at least
    one of them, the loop returns after exactly that many traversals of
    the loader, and its forward passes are the batches of these
    traversals, each one once and in order. *)
Theorem training_loop_completes (epochs : nat) (w : world) (m : sequential)
    (c : criterion) (opt : optimizer) (loader : DataLoader) (θ : list matrix)
    (width classes : nat) :
  (0 < epochs)%nat → len loader ≠ 0%nat →
  holds w m θ → param_group opt = parameters m →
  fits (arch m) (shape <$> θ) width = Some classes →
  loader_ok width classes loader →
  completes_all_traversals epochs m c opt loader w.
Proof.
  intros _ Hlen Hw Hopt Hfit Hl.
  destruct (training_result_total (arch m) c (lr opt) loader epochs θ (generator w)
              width classes Hfit Hl Hlen) as [s Hs].
  destruct (exec_training_loop epochs w m c opt loader θ s Hw Hopt Hs)
    as (t & w' & Hex & _ & _ & _ & _ & _ & Htr & Hfw).
  exists t, w'. split_and!; [done| |done].
  by rewrite Htr, length_traversal_list.
Qed.

(** C10. In one turn of the inner loop the value added to the running sum
    is the loss of the batch at the values the parameters had before the
    turn, although by then the optimizer step has moved the parameters;
    and no library call, the backward pass and the optimizer step
    included, changes the value of a scalar that has been computed. *)
Theorem running_loss_adds_loss_before_update :
  (∀ (w : world) (m : sequential) (c : criterion) (opt : optimizer)
     (running_loss : R) (images : list image) (labels : list nat)
     (θ : list matrix) (x : matrix) (l : R),
     holds w m θ → param_group opt = parameters m →
     view images = Some x → loss_at (arch m) c θ x labels = Some l →
     ∃ t w',
       exec (batch_body m c opt running_loss (images, labels)) w =
         (t, inr (running_loss + l), w') ∧
       items t = [l] ∧
       parameter_values w' m =
         Some (descend (lr opt) θ (gradients (arch m) θ x c labels))) ∧
  (∀ (X : Type) (e : event X) (w : world) (t : ref) (v : R),
     scalar_value w t = Some v → scalar_value (handle e w).2 t = Some v).
Proof.
  split; [|intros X e w t v; apply handle_keeps_scalar].
  intros w m c opt running_loss images labels θ x l Hw Hopt Hx Hl.
  assert (pass_result (arch m) c (lr opt) θ (images, labels) =
          Some (descend (lr opt) θ (gradients (arch m) θ x c labels), l)) as Hr.
  { unfold pass_result. cbn [fst snd]. rewrite Hx. cbn [mbind option_bind].
    by rewrite Hl. }
  destruct (exec_batch_body w m c opt running_loss _ θ _ Hw Hopt Hr)
    as (x' & out & Hx' & Hout & Hloss & Hex).
  cbn [fst snd] in *. assert (x' = x) as -> by congruence.
  eexists _, _. split_and!; [exact Hex | done |].
  apply read_data_holds. by apply holds_after_pass.
Qed.

End Claims.

(** * More of the notebook

    The cells the training loop does not reach: the data of cell 3, the
    autograd demonstration of cells 9 to 18, the single steps of cells 21
    to 27 and the predictions of cell 31; and what a run leaves alone. *)

(** ** The batches of a loader *)

Section DataFacts.
Context `{Torch}.

Lemma concat_batch_sampler (batch_size : nat) (batch indices : list nat) :
  concat (batch_sampler batch_size batch indices) = batch ++ indices.
Proof.
  revert batch. induction indices as [|idx indices IH]; intros batch.
  - destruct batch; cbn; by rewrite ?app_nil_r.
  - cbn [batch_sampler]. case_decide.
    + cbn [concat]. by rewrite IH, <- app_assoc.
    + by rewrite IH, <- app_assoc.
Qed.

(** Every batch of indices is full, except possibly the last one, and none
    is empty. *)
Lemma batch_sampler_sizes (batch_size : nat) (batch indices : list nat) :
  length batch < batch_size →
  let batches := batch_sampler batch_size batch indices in
  Forall (λ b, 0 < length b ≤ batch_size) batches ∧
  ∀ i b, batches !! i = Some b → S i < length batches → length b = batch_size.
Proof.
  revert batch. induction indices as [|idx indices IH]; intros batch Hlt.
  - destruct batch as [|i0 batch]; cbn.
    + split; [constructor | by intros []].
    + split; [constructor; [cbn in *; lia | constructor]|].
      intros [|i] b; cbn; [lia | done].
  - cbn [batch_sampler]. case_decide as Hfull.
    + destruct (IH [] ltac:(cbn; lia)) as [Hall Hfullb]. cbn zeta in *. split.
      * constructor; [lia | done].
      * intros [|i] b Hb Hi; cbn in *; [by injection Hb as <- |].
        apply (Hfullb i b Hb). lia.
    + apply IH. rewrite length_app in *. cbn in *. lia.
Qed.

Lemma length_batch_sampler (batch_size : nat) (batch indices : list nat) :
  length batch < batch_size →
  length (batch_sampler batch_size batch indices) =
  (length batch + length indices + batch_size - 1) / batch_size.
Proof.
  revert batch. induction indices as [|idx indices IH]; intros batch Hlt.
  - destruct batch as [|i0 batch]; cbn [batch_sampler length] in *.
    + symmetry. apply Nat.div_small. lia.
    + apply (Nat.div_unique _ _ 1 (length batch)); lia.
  - cbn [batch_sampler]. case_decide as Hfull; rewrite length_app in Hfull; cbn in Hfull.
    + cbn [length]. rewrite IH by (cbn; lia). cbn [length].
      rewrite Nat.add_0_l.
      pose proof (Nat.div_mod_eq (length indices + batch_size - 1) batch_size) as Hdm.
      pose proof (Nat.mod_upper_bound (length indices + batch_size - 1) batch_size
                    ltac:(lia)) as Hr.
      apply (Nat.div_unique _ _ _ ((length indices + batch_size - 1) mod batch_size));
        [done|].
      revert Hdm Hr.
      generalize ((length indices + batch_size - 1) `div` batch_size).
      generalize ((length indices + batch_size - 1) `mod` batch_size).
      intros r q Hdm Hr. nia.
    + rewrite IH by (rewrite length_app; cbn; lia).
      rewrite length_app. cbn [length]. f_equal. lia.
Qed.

Lemma fetch_all (front dataset : list (image * nat)) :
  fetch (front ++ dataset) (seq (length front) (length dataset)) = dataset.
Proof.
  unfold fetch. revert front. induction dataset as [|ex dataset IH]; intros front; [done|].
  cbn [length seq omap list_omap]. rewrite list_lookup_middle by done.
  f_equal. specialize (IH (front ++ [ex])).
  rewrite <- app_assoc, length_app in IH. cbn in IH.
  by rewrite Nat.add_1_r in IH.
Qed.

(** Fetching along a permutation of the indices gives a permutation of the
    dataset. *)
Lemma fetch_permutation (dataset : list (image * nat)) (indices : list nat) :
  indices ≡ₚ seq 0 (length dataset) → fetch dataset indices ≡ₚ dataset.
Proof.
  intros Hperm. unfold fetch. rewrite Hperm.
  pose proof (fetch_all [] dataset) as Hall. unfold fetch in Hall. cbn in Hall.
  by rewrite Hall.
Qed.

Lemma fetch_concat (dataset : list (image * nat)) (batches : list (list nat)) :
  concat (fetch dataset <$> batches) = fetch dataset (concat batches).
Proof.
  unfold fetch. induction batches as [|b batches IH]; [done|].
  cbn [concat fmap list_fmap]. by rewrite omap_app, <- IH.
Qed.

Lemma length_fetch (dataset : list (image * nat)) (indices : list nat) :
  Forall (λ i, i < length dataset) indices →
  length (fetch dataset indices) = length indices.
Proof.
  unfold fetch. induction 1 as [|i indices Hi _ IH]; [done|].
  cbn [omap list_omap]. destruct (lookup_lt_is_Some_2 dataset i Hi) as [ex ->].
  cbn. by rewrite IH.
Qed.

Lemma fetch_elem (dataset : list (image * nat)) (indices : list nat) (ex : image * nat) :
  ex ∈ fetch dataset indices → ex ∈ dataset.
Proof.
  unfold fetch. rewrite list_elem_of_omap. intros (i & _ & Hi).
  by eapply list_elem_of_lookup_2.
Qed.

Lemma examples_of_collate (examples : list (image * nat)) :
  examples_of (collate examples) = examples.
Proof. unfold examples_of, collate. apply zip_fst_snd. Qed.

Lemma sampler_permutation (randperm : G → nat → list nat * G) (n : nat)
    (shuffle : bool) (g : G) :
  randperm_ok randperm → (sampler randperm n shuffle g).1 ≡ₚ seq 0 n.
Proof. intros Hok. unfold sampler. destruct shuffle; [apply Hok | done]. Qed.

Lemma traverse_data_loader (randperm : G → nat → list nat * G)
    (dataset : list (image * nat)) (batch_size : nat) (shuffle : bool) (g : G) :
  (traverse (data_loader randperm dataset batch_size shuffle) g).1 =
  collate <$> (fetch dataset <$>
    batch_sampler batch_size [] (sampler randperm (length dataset) shuffle g).1).
Proof.
  cbn [traverse data_loader].
  by destruct (sampler randperm (length dataset) shuffle g).
Qed.

End DataFacts.

Section LoaderFacts.
Context `{Torch}.

Lemma sampled_indices_valid (randperm : G → nat → list nat * G) (n batch_size : nat)
    (shuffle : bool) (g : G) (ib : list nat) :
  randperm_ok randperm →
  ib ∈ batch_sampler batch_size [] (sampler randperm n shuffle g).1 →
  Forall (λ i, i < n) ib.
Proof.
  intros Hok Hib. apply List.Forall_forall. intros i Hi.
  assert (i ∈ concat (batch_sampler batch_size [] (sampler randperm n shuffle g).1)) as Hc
    by (apply list_elem_of_In, in_concat; exists ib; split;
        [by apply list_elem_of_In | done]).
  rewrite concat_batch_sampler, app_nil_l, (sampler_permutation _ _ _ _ Hok) in Hc.
  apply elem_of_seq in Hc. lia.
Qed.

(** X1. [len(trainloader)] is the number of batches of every pass over the
    loader: the number of examples over the batch size, rounded up. *)
Theorem data_loader_len (randperm : G → nat → list nat * G)
    (dataset : list (image * nat)) (batch_size : nat) (shuffle : bool) (g : G) :
  0 < batch_size → randperm_ok randperm →
  let loader := data_loader randperm dataset batch_size shuffle in
  length (traverse loader g).1 = len loader ∧
  len loader = (length dataset + batch_size - 1) / batch_size ∧
  (dataset ≠ [] → len loader ≠ 0).
Proof.
  intros Hpos Hok loader. unfold loader.
  rewrite traverse_data_loader, !length_fmap, length_batch_sampler by done.
  rewrite (Permutation_length (sampler_permutation _ _ shuffle g Hok)), length_seq.
  cbn [length len data_loader]. split_and!; [done..|].
  intros Hne Hz. apply Nat.div_small_iff in Hz; [|lia].
  destruct dataset; [done|]. cbn [length] in Hz. lia.
Qed.

(** X2. One pass over the loader yields every example of the dataset exactly
    once, each image with its own label, whatever the order. *)
Theorem data_loader_covers_dataset (randperm : G → nat → list nat * G)
    (dataset : list (image * nat)) (batch_size : nat) (shuffle : bool) (g : G) :
  0 < batch_size → randperm_ok randperm →
  concat (examples_of <$>
    (traverse (data_loader randperm dataset batch_size shuffle) g).1) ≡ₚ dataset.
Proof.
  intros _ Hok. rewrite traverse_data_loader, <- !list_fmap_compose.
  rewrite (list_fmap_ext (examples_of ∘ collate ∘ fetch dataset) (fetch dataset))
    by (intros _ ib _; apply examples_of_collate).
  rewrite fetch_concat, concat_batch_sampler, app_nil_l.
  apply fetch_permutation, sampler_permutation, Hok.
Qed.

(** X3. Every batch holds as many labels as images, at least one and at most
    [batch_size] of them, and every batch but the last one is full. *)
Theorem data_loader_batch_sizes (randperm : G → nat → list nat * G)
    (dataset : list (image * nat)) (batch_size : nat) (shuffle : bool) (g : G) :
  0 < batch_size → randperm_ok randperm →
  let batches := (traverse (data_loader randperm dataset batch_size shuffle) g).1 in
  Forall (λ b : batch, length b.2 = length b.1 ∧ 0 < length b.1 ≤ batch_size) batches ∧
  ∀ i b, batches !! i = Some b → S i < length batches → length b.1 = batch_size.
Proof.
  intros Hpos Hok batches. unfold batches. rewrite traverse_data_loader.
  set (indices := (sampler randperm (length dataset) shuffle g).1).
  destruct (batch_sampler_sizes batch_size [] indices Hpos) as [Hall Hfull].
  cbn zeta in Hfull.
  assert (∀ ib, ib ∈ batch_sampler batch_size [] indices →
            length (fetch dataset ib) = length ib) as Hlen.
  { intros ib Hib. apply length_fetch. by eapply sampled_indices_valid. }
  split.
  - apply List.Forall_forall. intros b Hb%list_elem_of_In.
    apply list_elem_of_fmap in Hb as (exs & -> & Hexs).
    apply list_elem_of_fmap in Hexs as (ib & -> & Hib).
    cbn [collate fst snd]. rewrite !length_fmap, (Hlen ib Hib). split; [done|].
    rewrite List.Forall_forall in Hall. apply Hall. by apply list_elem_of_In.
  - intros i b Hb Hi. rewrite !length_fmap in Hi. rewrite !list_lookup_fmap in Hb.
    destruct (batch_sampler batch_size [] indices !! i) as [ib|] eqn:Hib; [|done].
    cbn in Hb. injection Hb as <-. cbn [collate fst]. rewrite length_fmap.
    rewrite Hlen by (by eapply list_elem_of_lookup_2). by eapply Hfull.
Qed.

(** A loader over a dataset of images of [width] pixels with labels below
    [classes] yields well-formed batches. *)
Lemma data_loader_ok (randperm : G → nat → list nat * G)
    (dataset : list (image * nat)) (batch_size : nat) (shuffle : bool)
    (width classes : nat) :
  0 < batch_size → randperm_ok randperm →
  Forall (λ ex : image * nat,
            length (concat (concat ex.1)) = width ∧ ex.2 < classes) dataset →
  loader_ok width classes (data_loader randperm dataset batch_size shuffle).
Proof.
  intros Hpos Hok Hdata. split.
  - intros g. by apply data_loader_len.
  - intros g. rewrite traverse_data_loader.
    apply List.Forall_forall. intros b Hb%list_elem_of_In.
    apply list_elem_of_fmap in Hb as (exs & -> & Hexs).
    apply list_elem_of_fmap in Hexs as (ib & -> & Hib).
    assert (Forall (λ ex : image * nat,
              length (concat (concat ex.1)) = width ∧ ex.2 < classes)
              (fetch dataset ib)) as Hexs.
    { apply List.Forall_forall. intros ex Hex%list_elem_of_In%fetch_elem.
      rewrite List.Forall_forall in Hdata. by apply Hdata, list_elem_of_In. }
    pose proof (length_fetch dataset ib
                  (sampled_indices_valid _ _ _ _ _ _ Hok Hib)) as Hlen.
    destruct (batch_sampler_sizes batch_size []
                (sampler randperm (length dataset) shuffle g).1 Hpos) as [Hall _].
    rewrite List.Forall_forall in Hall.
    specialize (Hall ib ltac:(by apply list_elem_of_In)). cbn beta in Hall.
    unfold batch_ok. cbn [collate fst snd]. split_and!.
    + intros Hnil. apply (f_equal length) in Hnil.
      rewrite length_fmap, Hlen in Hnil. cbn in Hnil. lia.
    + apply Forall_fmap. eapply List.Forall_impl; [|exact Hexs]. by intros ex [? _].
    + by rewrite !length_fmap.
    + apply Forall_fmap. eapply List.Forall_impl; [|exact Hexs]. by intros ex [_ ?].
Qed.

End LoaderFacts.

(** ** The transform, and training on the data of cell 3 *)

Section TransformFacts.
Context `{Torch}.
Local Open Scope R_scope.

Lemma length_concat_fmap {A B} (f : A → B) (ls : list (list A)) :
  length (concat (fmap (M := list) f <$> ls)) = length (concat ls).
Proof.
  induction ls as [|l ls IH]; [done|].
  cbn [fmap list_fmap concat]. rewrite !length_app, IH. f_equal. apply length_fmap.
Qed.

(** The transform keeps the pixels of the picture, all in one channel. *)
Lemma transform_pixels (picture : list (list nat)) :
  length (concat (concat (transform picture))) = length (concat picture).
Proof.
  unfold transform, normalize, to_tensor. cbn [fmap list_fmap concat].
  rewrite app_nil_r. by rewrite !length_concat_fmap.
Qed.

(** X4. The transform of cell 3 maps the grey levels 0 to 255 into the
    interval from -1 to 1: level [p] becomes [2 p / 255 - 1]. *)
Theorem transform_range (picture : list (list nat)) :
  Forall (Forall (λ p, (p ≤ 255)%nat)) picture →
  transform picture = [(λ row : list nat, (λ p, 2 * INR p / 255 - 1) <$> row) <$> picture] ∧
  Forall (Forall (Forall (λ v, -1 <= v <= 1))) (transform picture).
Proof.
  intros Hpic.
  assert (transform picture =
          [(λ row : list nat, (λ p, 2 * INR p / 255 - 1) <$> row) <$> picture]) as ->.
  { unfold transform, normalize, to_tensor. cbn [fmap list_fmap]. f_equal.
    rewrite <- list_fmap_compose. apply list_fmap_ext. intros _ row _. cbn.
    rewrite <- list_fmap_compose. apply list_fmap_ext. intros _ p _. cbn. lra. }
  split; [done|]. constructor; [|constructor].
  apply Forall_fmap. eapply List.Forall_impl; [|exact Hpic].
  intros row Hrow. cbn. apply Forall_fmap. eapply List.Forall_impl; [|exact Hrow].
  intros p Hp. cbn.
  pose proof (pos_INR p) as H0. apply le_INR in Hp.
  replace (INR 255) with 255 in Hp by (cbn; lra). lra.
Qed.

Lemma length_concat_traversal_list (loader : DataLoader) (n : nat) (g : G) :
  len_ok loader →
  length (concat (traversal_list loader n g)) = (n * len loader)%nat.
Proof.
  intros Hlen. revert g. induction n as [|n IH]; intros g; [done|].
  cbn [traversal_list concat]. rewrite length_app, IH, Hlen. lia.
Qed.

(** X5. Cells 3 and 29 together.  On a non-empty dataset of pictures of 784
    pixels with labels below ten, the training of cell 29 completes: it
    makes five passes of [ceil(N / 64)] training steps each and prints five
    means, none of them negative. *)
Theorem cell_29_on_cell_3 (randperm : G → nat → list nat * G)
    (raw : list (list (list nat) * nat)) (w : world) :
  raw ≠ [] → randperm_ok randperm →
  Forall (λ ex : list (list nat) * nat,
            length (concat ex.1) = 784%nat ∧ (ex.2 < 10)%nat) raw →
  ∃ t m w' (means : list R),
    exec (cell_29 (cell_3 randperm raw)) w = (t, inr m, w') ∧
    length (forwarded t) = (5 * ((length raw + 63) / 64))%nat ∧
    stdout w' = stdout w ++ (TrainingLoss <$> means) ∧
    length means = 5%nat ∧
    Forall (λ v, 0 <= v) means.
Proof.
  intros Hne Hok Hraw. unfold cell_29.
  set (loader := cell_3 randperm raw).
  assert (loader_ok 784 10 loader) as Hl.
  { apply data_loader_ok; [lia | done |]. unfold trainset.
    apply Forall_fmap. eapply List.Forall_impl; [|exact Hraw].
    intros [picture label] [Hpx Hlab]. unfold compose. cbn [fst snd] in *.
    by rewrite transform_pixels. }
  assert (len loader = ((length raw + 63) / 64)%nat) as Hlen.
  { unfold loader, cell_3. cbn [len data_loader]. unfold trainset.
    rewrite length_fmap. f_equal. lia. }
  assert (len loader ≠ 0%nat) as Hlen0.
  { rewrite Hlen. intros Hz. apply Nat.div_small_iff in Hz; [|lia].
    destruct raw; [done|]. cbn [length] in Hz. lia. }
  assert (fits cell_21_layers
            (shape <$> (init_parameters cell_21_layers (generator w)).1) 784 =
          Some 10%nat) as Hfit by (by rewrite shape_init_parameters).
  destruct (training_result_total cell_21_layers NLLLoss 0.003 loader 5 _
              (init_parameters cell_21_layers (generator w)).2 784 10 Hfit Hl Hlen0)
    as [s Hs].
  destruct (exec_train_from_scratch cell_21_layers 0.003 5 loader w s Hs)
    as (t & w' & Hex & _ & _ & Hout & _ & Hn & Htr & Hfw).
  eexists _, _, w', s.2. split_and!; [exact Hex | | done | done |].
  - rewrite forwarded_app. cbn [forwarded omap list_omap forwarded_of app].
    apply (f_equal length) in Hfw. rewrite !length_fmap, Htr in Hfw.
    rewrite Hfw, length_concat_traversal_list by apply Hl. by rewrite Hlen.
  - apply (training_result_nonneg cell_21_layers NLLLoss _ _ _ _ _ _) in Hs; done.
Qed.

End TransformFacts.

(** ** Autograd on the small tensor of cells 9 to 18 *)

Section AutogradFacts.
Import AutogradCells.
Local Open Scope R_scope.

Lemma numel_fmap (f : R → R) (t : matrix) :
  numel ((λ row : list R, f <$> row) <$> t) = numel t.
Proof.
  unfold numel. induction t as [|row t IH]; [done|].
  cbn [fmap list_fmap concat]. rewrite !length_app, IH. f_equal. apply length_fmap.
Qed.

Lemma numel_with_entry (i j : nat) (v : R) (t : matrix) :
  numel (with_entry i j v t) = numel t.
Proof.
  unfold numel, with_entry. revert i. induction t as [|row t IH]; intros [|i]; try done.
  - change (alter ?g 0%nat (row :: t)) with (g row :: t).
    cbn [concat]. by rewrite !length_app, length_insert.
  - change (alter ?g (S i) (row :: t)) with (row :: alter g i t).
    cbn [concat]. rewrite !length_app. f_equal. apply IH.
Qed.

Lemma sum_list_insert (f : R → R) (row : list R) (j : nat) (v t : R) :
  row !! j = Some v →
  sum_list (f <$> <[j := t]> row) = sum_list (f <$> row) - f v + f t.
Proof.
  revert j. induction row as [|x row IH]; intros [|j] Hj; try done.
  - injection Hj as ->. change (<[0%nat := t]> (v :: row)) with (t :: row).
    rewrite !fmap_cons, !sum_list_cons. lra.
  - change (<[S j := t]> (x :: row)) with (x :: <[j := t]> row).
    rewrite !fmap_cons, !sum_list_cons, (IH j Hj). lra.
Qed.

Lemma sum_list_with_entry (f : R → R) (x : matrix) (i j : nat) (v t : R) :
  entry i j x = Some v →
  sum_list (concat ((λ row : list R, f <$> row) <$> with_entry i j t x)) =
  sum_list (concat ((λ row : list R, f <$> row) <$> x)) - f v + f t.
Proof.
  unfold entry, with_entry. revert i. induction x as [|row x IH]; intros [|i] Hv; try done.
  - cbn in Hv.
    change (alter ?g 0%nat (row :: x)) with (g row :: x).
    rewrite !fmap_cons. cbn [concat].
    rewrite !sum_list_app, (sum_list_insert f row j v t Hv). lra.
  - change (alter ?g (S i) (row :: x)) with (row :: alter g i x).
    rewrite !fmap_cons. cbn [concat]. rewrite !sum_list_app, (IH i Hv). lra.
Qed.

Lemma entry_fmap (f : R → R) (t : matrix) (i j : nat) :
  entry i j ((λ row : list R, f <$> row) <$> t) = f <$> entry i j t.
Proof.
  unfold entry. rewrite list_lookup_fmap. destruct (t !! i) as [row|]; [|done].
  cbn. apply list_lookup_fmap.
Qed.

Lemma shape_fmap (f : R → R) (t : matrix) :
  shape ((λ row : list R, f <$> row) <$> t) = shape t.
Proof.
  unfold shape. rewrite <- list_fmap_compose. apply list_fmap_ext.
  intros _ row _. cbn. apply length_fmap.
Qed.

(** What [z.backward()] leaves in [x.grad], entry by entry. *)
Lemma z_backward_entry (x : leaf) (i j : nat) (v : R) :
  leaf_grad x = None → entry i j (values x) = Some v →
  leaf_grad (z_backward x) ≫= entry i j = Some (2 * v / INR (numel (values x))).
Proof.
  intros Hnone Hv. unfold z_backward. rewrite Hnone. cbn [leaf_grad mbind option_bind].
  assert (entry i j (mean_backward (cell_10 x) 1) = Some (1 / INR (numel (values x))))
    as Hg.
  { unfold mean_backward, cell_10, pow.
    rewrite entry_fmap, entry_fmap, Hv, numel_fmap. done. }
  unfold pow_backward, entry in *.
  rewrite (lookup_pointwise _ _ _ i j _ _ Hv Hg). f_equal. cbn. lra.
Qed.

Lemma pointwise_constant (f : R → R → R) (h : R → R) (c : R) (x : matrix) :
  pointwise f x ((λ row : list R, (λ _, c) <$> row) <$>
                   ((λ row : list R, h <$> row) <$> x)) =
  (λ row : list R, (λ v, f v c) <$> row) <$> x.
Proof.
  unfold pointwise. induction x as [|row x IH]; [done|].
  rewrite !fmap_cons. cbn [zip_with]. rewrite IH. f_equal.
  clear. induction row as [|v row IH]; [done|].
  rewrite !fmap_cons. cbn [zip_with]. by rewrite IH.
Qed.

(** X6. Cells 9 to 18.  Before [z.backward()] the tensor [x] has no
    gradient (cell 16 prints [None]); cell 18 then prints twice the same
    tensor: the gradient autograd leaves in [x.grad] is [2 * x / numel(x)],
    the closed form the notebook gives. *)
Theorem cell_18_prints_agree (drawn : matrix) :
  let x := cell_9 drawn in
  let '(x', grad, formula) := cell_18 x in
  cell_16 x = None ∧
  values x' = drawn ∧ grad = Some formula ∧ shape formula = shape drawn.
Proof.
  unfold cell_18, cell_16, cell_9, z_backward. cbn [values leaf_grad].
  split_and!; [done | done | | apply shape_fmap]. f_equal.
  unfold pow_backward, mean_backward, cell_10, pow. cbn [values].
  rewrite pointwise_constant, numel_fmap.
  apply list_fmap_ext. intros _ row _. apply list_fmap_ext. intros _ v _. cbn. lra.
Qed.

(** X7. The tensor [z.backward()] leaves in [x.grad] is the gradient of [z]:
    its entry at any position is the derivative of [z], computed as cells
    10 and 14 compute it, with respect to the entry of [x] at that
    position. *)
Theorem x_grad_is_gradient_of_z (drawn : matrix) (i j : nat) (v : R) :
  entry i j drawn = Some v →
  ∃ g, leaf_grad (z_backward (cell_9 drawn)) ≫= entry i j = Some g ∧
       derivable_pt_lim
         (λ t, cell_14 (cell_10 (cell_9 (with_entry i j t drawn)))) v g.
Proof.
  intros Hv. eexists. split; [by apply (z_backward_entry (cell_9 drawn))|].
  cbn [cell_9 values].
  set (n := numel drawn).
  set (rest := sum_list (concat (pow 2 drawn)) - v ^ 2).
  apply (derivable_pt_lim_ext
           (mult_real_fct (/ INR n) (fct_cte rest + (λ y, y ^ 2))%F)).
  - intros t. unfold mult_real_fct, plus_fct, fct_cte, cell_14, cell_10, cell_9, mean.
    cbn [values]. unfold pow at 2. rewrite numel_fmap, numel_with_entry. fold n.
    unfold pow. rewrite (sum_list_with_entry (λ y, y ^ 2) _ _ _ _ t Hv).
    unfold rest, pow. lra.
  - replace (2 * v / INR n) with (/ INR n * (0 + INR 2 * v ^ pred 2)) by (cbn; lra).
    apply derivable_pt_lim_scal, derivable_pt_lim_plus;
      [apply derivable_pt_lim_const | apply derivable_pt_lim_pow].
Qed.

End AutogradFacts.

(** ** The predictions of cell 31 *)

Section PredictionFacts.
Context `{Torch}.
Local Open Scope R_scope.

(** The exponentials of a log-normalised row are probabilities. *)
Lemma exp_log_softmax_row_range (row : list R) :
  Forall (λ p, 0 < p <= 1) (exp <$> log_softmax_row row).
Proof.
  apply Forall_fmap, Forall_lookup. intros y v Hv. cbn.
  apply log_softmax_row_nonpos in Hv. split; [apply exp_pos|].
  destruct Hv as [Hv | ->]; [|rewrite exp_0; lra].
  left. rewrite <- exp_0. by apply exp_increasing.
Qed.

Lemma sum_list_fmap_scale (c : R) (l : list R) :
  sum_list ((λ x, x * c) <$> l) = sum_list l * c.
Proof.
  induction l as [|x l IH]; [unfold sum_list; cbn; lra|].
  rewrite !fmap_cons, !sum_list_cons, IH. lra.
Qed.

(** They sum to one. *)
Lemma exp_log_softmax_row_sum (row : list R) :
  row ≠ [] → sum_list (exp <$> log_softmax_row row) = 1.
Proof.
  intros Hne. destruct (stabilised_sum_bounds row Hne) as [_ [Hlo _]].
  cbn zeta in Hlo. unfold log_softmax_row.
  set (m := max_list row) in *.
  set (S := sum_list ((λ x, exp (x - m)) <$> row)) in *.
  rewrite <- list_fmap_compose.
  rewrite (list_fmap_ext _ ((λ x, x * / S) ∘ (λ x, exp (x - m))) row).
  - rewrite list_fmap_compose, sum_list_fmap_scale. fold S. apply Rinv_r. lra.
  - intros _ x _. cbn.
    replace (x - m - ln S) with ((x - m) + - ln S) by lra.
    rewrite exp_plus, exp_Ropp, exp_ln by lra. done.
Qed.

Lemma forward_one_row (layers : list layer) (θ : list matrix) (pixels : list R)
    (width classes : nat) :
  fits layers (shape <$> θ) width = Some classes →
  list.last layers = Some LogSoftmax → length pixels = width → (0 < classes)%nat →
  ∃ scores, forward layers θ [pixels] = Some [log_softmax_row scores] ∧
            length scores = classes.
Proof.
  intros Hfit Hlast Hpx Hpos.
  destruct (forward_fits layers θ [pixels] width classes Hfit) as (out & Hout & Hs).
  { cbn. by rewrite Hpx. }
  apply last_Some in Hlast as [layers' ->].
  rewrite forward_app_log_softmax in Hout |- *.
  destruct (forward layers' θ [pixels]) as [out'|]; [|done].
  cbn in Hout. injection Hout as <-. rewrite shape_log_softmax in Hs.
  destruct out' as [|scores [|? ?]]; [done | | done].
  cbn in Hs. injection Hs as Hs. by exists scores.
Qed.

(** Cell 31 on a store that holds the model: the scores of the first image
    of the first batch, log-normalised, then exponentiated. *)
Lemma cell_31_runs (w : world) (model : sequential) (θ : list matrix)
    (loader : DataLoader) (classes labels : nat) :
  holds w model θ →
  fits (arch model) (shape <$> θ) 784 = Some classes →
  list.last (arch model) = Some LogSoftmax → (0 < classes)%nat →
  loader_ok 784 labels loader → len loader ≠ 0%nat →
  ∃ scores,
    cell_31 model loader w =
      (inr [exp <$> log_softmax_row scores],
       World (traverse loader (generator w)).2 (params w) (tensors w) (stdout w)) ∧
    length scores = classes.
Proof.
  intros Hw Hfit Hlast Hpos [Hlen Hbs] Hne.
  specialize (Hlen (generator w)). specialize (Hbs (generator w)).
  unfold cell_31. rewrite exec_bind, exec_call. cbn [handle].
  destruct (traverse loader (generator w)) as [bs g'] eqn:Htr. cbn [fst snd] in *.
  destruct bs as [|[images labs] bs]; [cbn in Hlen; lia|].
  apply List.Forall_cons_iff in Hbs as [(Himg & Hpx & _) _]. cbn [fst snd] in *.
  cbn [first_batch head or_raise exec].
  destruct images as [|image0 images]; [done|].
  apply List.Forall_cons_iff in Hpx as [Hpx _].
  unfold first_image. cbn zeta. rewrite decide_True by exact Hpx.
  unfold no_grad_forward. cbn [params]. rewrite (read_data_holds _ _ _ Hw).
  destruct (forward_one_row _ _ _ _ _ Hfit Hlast Hpx Hpos) as (scores & -> & Hsc).
  by exists scores.
Qed.

(** X8. Cell 31 on a model that ends in [nn.LogSoftmax]: taking the
    exponential of the output gives one row of class probabilities, every
    one positive and at most one, summing to one.  The cell draws one
    traversal of the loader and changes nothing else in the store. *)
Theorem cell_31_class_probabilities (w : world) (model : sequential)
    (θ : list matrix) (loader : DataLoader) (classes labels : nat) :
  holds w model θ →
  fits (arch model) (shape <$> θ) 784 = Some classes →
  list.last (arch model) = Some LogSoftmax → (0 < classes)%nat →
  loader_ok 784 labels loader → len loader ≠ 0%nat →
  ∃ ps,
    cell_31 model loader w =
      (inr [ps], World (traverse loader (generator w)).2 (params w) (tensors w) (stdout w)) ∧
    length ps = classes ∧
    Forall (λ p, 0 < p <= 1) ps ∧
    sum_list ps = 1.
Proof.
  intros Hw Hfit Hlast Hpos Hl Hne.
  destruct (cell_31_runs w model θ loader classes labels Hw Hfit Hlast Hpos Hl Hne)
    as (scores & Hrun & Hsc).
  exists (exp <$> log_softmax_row scores). split_and!.
  - exact Hrun.
  - by rewrite length_fmap, length_log_softmax_row.
  - apply exp_log_softmax_row_range.
  - apply exp_log_softmax_row_sum. intros ->. cbn in Hsc. lia.
Qed.

(** Training keeps the shapes of the parameters. *)
Lemma training_result_shapes (layers : list layer) (c : criterion) (rate : R)
    (loader : DataLoader) (epochs : nat) (θ : list matrix) (g : G)
    (width classes : nat) (s : list matrix * G * list R) :
  fits layers (shape <$> θ) width = Some classes →
  loader_ok width classes loader →
  training_result layers c rate loader epochs θ g = Some s →
  shape <$> s.1.1 = shape <$> θ.
Proof.
  intros Hfit [_ Hl]. revert θ g s Hfit.
  induction epochs as [|n IH]; intros θ g s Hfit Hs.
  - by injection Hs as <-.
  - cbn [training_result] in Hs.
    destruct (epoch_result_total layers c rate θ 0 _ _ _ Hfit (Hl g)) as (r & Hr & Hsh).
    rewrite Hr in Hs. cbn [mbind option_bind] in Hs. case_decide; [done|].
    destruct (training_result _ _ _ _ _ _ _) as [s'|] eqn:Hs'; [|done].
    cbn [mbind option_bind] in Hs. injection Hs as <-. cbn [fst].
    rewrite <- Hsh in Hfit. rewrite (IH _ _ _ Hfit Hs'). exact Hsh.
Qed.

(** X9. Cells 29 and 31 together.  The model cell 29 has trained is one
    cell 31 can use: on the store the training leaves, the cell yields the
    probabilities of the ten classes, summing to one. *)
Theorem cell_31_after_cell_29 (loader : DataLoader) (w : world) :
  loader_ok 784 10 loader → len loader ≠ 0%nat →
  ∃ t model w' ps w'',
    exec (cell_29 loader) w = (t, inr model, w') ∧
    cell_31 model loader w' = (inr [ps], w'') ∧
    params w'' = params w' ∧
    length ps = 10%nat ∧ Forall (λ p, 0 < p <= 1) ps ∧ sum_list ps = 1.
Proof.
  intros Hl Hlen. unfold cell_29.
  assert (fits cell_21_layers
            (shape <$> (init_parameters cell_21_layers (generator w)).1) 784 =
          Some 10%nat) as Hfit by (by rewrite shape_init_parameters).
  destruct (training_result_total cell_21_layers NLLLoss 0.003 loader 5 _
              (init_parameters cell_21_layers (generator w)).2 784 10 Hfit Hl Hlen)
    as [s Hs].
  pose proof (training_result_shapes _ _ _ _ _ _ _ _ _ _ Hfit Hl Hs) as Hsh.
  destruct (exec_train_from_scratch cell_21_layers 0.003 5 loader w s Hs)
    as (t & w' & Hex & Hw' & _).
  rewrite <- Hsh in Hfit.
  destruct (cell_31_runs w' (constructed cell_21_layers w).1 s.1.1 loader 10 10)
    as (scores & Hrun & Hsc); [done | done | done | lia | done | done |].
  eexists _, _, w', (exp <$> log_softmax_row scores), _.
  split_and!; [exact Hex | exact Hrun | done | | |].
  - by rewrite length_fmap, length_log_softmax_row.
  - apply exp_log_softmax_row_range.
  - apply exp_log_softmax_row_sum. intros ->. cbn in Hsc. lia.
Qed.

End PredictionFacts.

(** ** [resize_] and [view] *)

Section ResizeFacts.
Local Open Scope R_scope.

(** X10. On a batch of exactly [rows] images of [cols] pixels each, the
    [images.resize_(rows, cols)] of cell 26 gives the tensor that the
    [images.view(images.shape[0], -1)] of the other cells gives. *)
Theorem resize_agrees_with_view (rows cols : nat) (images : list image) :
  length images = rows → (0 < rows)%nat →
  Forall (λ img : image, length (concat (concat img)) = cols) images →
  resize_ rows cols images = view images ∧
  ∃ x, view images = Some x ∧ shape x = replicate rows cols.
Proof.
  intros Hrows Hpos Hpx.
  assert (view images = Some ((λ img : image, concat (concat img)) <$> images)) as ->.
  { destruct images; [cbn in Hrows; lia | done]. }
  split; [by apply resize_full_batch|].
  eexists. split; [done|].
  rewrite <- Hrows, <- (length_fmap (λ img : image, concat (concat img))).
  apply shape_constant. intros row Hrow.
  apply list_elem_of_fmap in Hrow as (img & -> & Himg).
  rewrite List.Forall_forall in Hpx. by apply Hpx, list_elem_of_In.
Qed.

End ResizeFacts.

(** ** Cells 21 and 22 *)

Section CellFacts.
Context `{Torch}.
Local Open Scope R_scope.

Ltac run := cbn [exec mbind prog_bind bind call or_raise mret prog_ret].

(** The first batch of a loader that has one. *)
Lemma first_batch_ok (width classes : nat) (loader : DataLoader) (g : G) :
  loader_ok width classes loader → len loader ≠ 0%nat →
  ∃ b bs, (traverse loader g).1 = b :: bs ∧ batch_ok width classes b.
Proof.
  intros [Hlen Hbs] Hne. specialize (Hlen g). specialize (Hbs g).
  destruct (traverse loader g).1 as [|b bs]; [cbn in Hlen; lia|].
  apply List.Forall_cons_iff in Hbs as [Hb _]. by exists b, bs.
Qed.

(** The first parameter of a fresh model is its first weight, without
    gradient buffer. *)
Lemma constructed_first_weight (layers : list layer) (w : world) (W : matrix)
    (θ : list matrix) :
  (init_parameters layers (generator w)).1 = W :: θ →
  head (parameters (constructed layers w).1) = Some (length (params w)) ∧
  params (constructed layers w).2 !! length (params w) = Some (Param W None).
Proof.
  intros Hθ. unfold constructed. cbn [fst snd parameters params]. rewrite Hθ. split.
  - done.
  - rewrite lookup_app_r by lia. by rewrite Nat.sub_diag.
Qed.

Lemma init_parameters_cell_21 (g : G) :
  ∃ W θ, (init_parameters cell_21_layers g).1 = W :: θ ∧ shape W = replicate 128%nat 784%nat.
Proof.
  pose proof (shape_init_parameters cell_21_layers g) as Hs.
  destruct (init_parameters cell_21_layers g).1 as [|W θ]; [done|].
  exists W, θ. split; [done|]. rewrite fmap_cons in Hs.
  change (layer_shapes cell_21_layers) with
    (replicate 128%nat 784%nat :: [128%nat] :: layer_shapes (tail cell_21_layers)) in Hs.
  by injection Hs as -> _.
Qed.

(** Cell 21 on a loader of MNIST-shaped batches: the fresh model, its
    output on the first batch and the loss, still with its graph. *)
Lemma exec_cell_21 (loader : DataLoader) (w : world) :
  loader_ok 784 10 loader → len loader ≠ 0%nat →
  let m := (constructed cell_21_layers w).1 in
  let w1 := (constructed cell_21_layers w).2 in
  let θ := (init_parameters cell_21_layers (generator w)).1 in
  ∃ t images labels x out l,
    head (traverse loader (generator w1)).1 = Some (images, labels) ∧
    view images = Some x ∧
    forward cell_21_layers θ x = Some out ∧
    loss_value NLLLoss out labels = inr l ∧
    exec (cell_21 loader) w =
      (t, inr (m, S (length (tensors w))),
       World (traverse loader (generator w1)).2 (params w1)
         (tensors w ++ [Activation out (Graph cell_21_layers (parameters m) θ x);
                        Scalar l (Some (Graph cell_21_layers (parameters m) θ x,
                                        NLLLoss, labels))])
         (stdout w)) ∧
    prints t = [].
Proof.
  intros Hl Hne m w1 θ.
  pose proof (holds_constructed cell_21_layers w) as Hw1. fold m w1 θ in Hw1.
  destruct (first_batch_ok 784 10 loader (generator w1) Hl Hne)
    as ([images labels] & bs & Htr & Hb).
  destruct (view_batch_ok _ _ _ Hb) as (x & Hx & Hsx & Hlen & Hxne).
  cbn [fst snd] in *.
  assert (fits cell_21_layers (shape <$> θ) 784 = Some 10%nat) as Hfit
    by (unfold θ; by rewrite shape_init_parameters).
  destruct (forward_fits _ _ _ _ _ Hfit Hsx) as (out & Hout & Hso).
  assert (length out = length x) as Hlo.
  { apply (f_equal length) in Hso. unfold shape in Hso.
    by rewrite length_fmap, length_replicate in Hso. }
  destruct (loss_value_total NLLLoss out labels 10) as [l Hloss].
  { by rewrite Hlo. }
  { by rewrite Hlo. }
  { intros ->. by destruct x. }
  { apply Hb. }
  eexists _, images, labels, x, out, l. split_and!; [by rewrite Htr | done..| |].
  - unfold cell_21. rewrite exec_bind, exec_call, handle_NewSequential.
    fold m w1. rewrite exec_bind, exec_call. cbn [handle].
    destruct (traverse loader (generator w1)) as [bs' g'] eqn:Htr'.
    cbn [fst snd] in Htr. subst bs'. cbn [first_batch head or_raise].
    rewrite bind_Ret, Hx. cbn [or_raise]. rewrite bind_Ret.
    rewrite exec_bind, exec_call.
    erewrite handle_Forward; [|cbn [params]; by apply read_data_holds|exact Hout].
    cbn [tensors params generator stdout].
    rewrite exec_bind, exec_call.
    erewrite handle_Criterion; [|cbn [tensors]; by apply list_lookup_middle|exact Hloss].
    cbn [tensors params generator stdout exec mret prog_ret fst snd].
    rewrite length_app, <- app_assoc. cbn [length app].
    rewrite Nat.add_1_r. reflexivity.
  - done.
Qed.

(** X11. Cells 21 and 22.  The weight of the first layer of the fresh model
    has no gradient before [loss.backward()], and afterwards a gradient of
    the shape of the weight, 128 rows of 784 entries: the cell prints
    [None], then a tensor. *)
Theorem cell_22_gradient_appears (loader : DataLoader) (w : world) :
  loader_ok 784 10 loader → len loader ≠ 0%nat →
  ∃ t w' g,
    exec (p ← cell_21 loader; cell_22 p.1 p.2) w = (t, inr (), w') ∧
    prints t = [ShowTensor None; ShowTensor (Some g)] ∧
    stdout w' = stdout w ++ [ShowTensor None; ShowTensor (Some g)] ∧
    shape g = replicate 128%nat 784%nat ∧
    grad_at w' (length (params w)) = Some g.
Proof.
  intros Hl Hne.
  destruct (exec_cell_21 loader w Hl Hne)
    as (t1 & images & labels & x & out & l & _ & _ & _ & _ & Hex & Hpr).
  cbn zeta in Hex.
  pose proof (holds_constructed cell_21_layers w) as [Hnd _].
  destruct (init_parameters_cell_21 (generator w)) as (W & θ & Hθ & HW).
  destruct (constructed_first_weight cell_21_layers w W θ Hθ) as [Hhead Hp].
  set (m := (constructed cell_21_layers w).1) in *.
  set (w1 := (constructed cell_21_layers w).2) in *.
  set (gr := Graph cell_21_layers (parameters m)
               (init_parameters cell_21_layers (generator w)).1 x) in *.
  set (g := gradient_of gr NLLLoss labels 0 W).
  assert (parameters m !! 0%nat = Some (length (params w))) as Hk
    by (by destruct (parameters m)).
  eexists _, _, g. split_and!.
  - rewrite exec_bind, Hex. cbn [fst snd]. unfold cell_22.
    rewrite (first_weight_linear m 784 128 (tail cell_21_layers) eq_refl).
    rewrite Hhead. cbn [or_raise]. rewrite bind_Ret.
    rewrite exec_bind, exec_call. cbn [handle params]. rewrite Hp.
    cbn [mbind option_bind grad]. rewrite exec_bind, exec_call. cbn [handle].
    cbn [tensors params generator stdout].
    rewrite exec_bind, exec_call.
    erewrite handle_Backward; cycle 1.
    { cbn [tensors]. rewrite lookup_app_r by lia.
      replace (S (length (tensors w)) - length (tensors w))%nat with 1%nat by lia.
      reflexivity. }
    change (g_parameters gr) with (parameters m).
    cbn [tensors params generator stdout].
    rewrite exec_bind, exec_call. cbn [handle params].
    rewrite lookup_on_params, Hp, (position_lookup _ _ _ Hnd Hk).
    cbn [fmap option_fmap option_map mbind option_bind accumulate grad data].
    fold g. rewrite exec_call. cbn [handle]. reflexivity.
  - rewrite !prints_app, Hpr. reflexivity.
  - cbn [stdout]. by rewrite <- app_assoc.
  - unfold g, gradient_of. by rewrite shape_tabulate_like.
  - unfold grad_at. cbn [params].
    rewrite lookup_on_params, Hp, (position_lookup _ _ _ Hnd Hk). reflexivity.
Qed.

End CellFacts.

(** ** Cells 24 to 27, and a step that fails *)

Section StepCells.
Context `{Torch}.
Local Open Scope R_scope.

Ltac run := cbn [exec mbind prog_bind bind call or_raise mret prog_ret].

(** X12. Cells 24, 26 and 27 on a model whose first layer is linear and a
    first batch of 64 images.  The three tensors the cells print are the
    weight of the first layer, its gradient on the batch (the one the
    engine gives for the current values, whatever the buffer held before),
    and the weight less 0.01 times that gradient. *)
Theorem cells_26_27_update (w : world) (model : sequential) (θ : list matrix)
    (crit : criterion) (loader : DataLoader) (o classes : nat)
    (layers : list layer) (images : list image) (labels : list nat) :
  holds w model θ → arch model = Linear 784 o :: layers →
  fits (arch model) (shape <$> θ) 784 = Some classes →
  head (traverse loader (generator w)).1 = Some (images, labels) →
  batch_ok 784 classes (images, labels) → length images = 64%nat →
  ∃ t loss w' x initial gradient,
    exec (cells_26_27 model crit (cell_24 model) loader) w = (t, inr loss, w') ∧
    prints t = [ShowTensor (Some initial); ShowTensor (Some gradient);
                ShowTensor (Some (pointwise (λ a da, a - 0.01 * da) initial gradient))] ∧
    θ !! 0%nat = Some initial ∧
    view images = Some x ∧
    gradients (arch model) θ x crit labels !! 0%nat = Some gradient ∧
    shape gradient = shape initial.
Proof.
  intros Hw Harch Hfit Hhead Hb Hfull.
  destruct (exec_cells_26_27 w model θ crit (cell_24 model) loader o classes layers
              images labels Hw eq_refl Harch Hfit Hhead Hb Hfull)
    as (weight & W & θ' & x & out & l & w' & -> & _ & Hx & _ & _ & Hex).
  cbn zeta in Hex. cbn [lr cell_24] in Hex.
  eexists _, _, w', x, W, _. split_and!.
  - exact Hex.
  - reflexivity.
  - reflexivity.
  - exact Hx.
  - reflexivity.
  - apply shape_tabulate_like.
Qed.

(** *** What a failed step leaves behind *)

Lemma handle_Forward_store (w : world) (m : sequential) (x : matrix) (n : ref)
    (w' : world) :
  handle (Forward m x) w = (inr n, w') →
  ∃ v θ, n = length (tensors w) ∧
         w' = World (generator w) (params w)
                (tensors w ++ [Activation v (Graph (arch m) (parameters m) θ x)])
                (stdout w).
Proof. cbn [handle]. repeat case_match; intros [= <- <-]; eauto. Qed.

Lemma handle_Criterion_store (w : world) (c : criterion) (output : ref)
    (y : list nat) (n : ref) (w' : world) :
  handle (Criterion c output y) w = (inr n, w') →
  ∃ v gr l, tensors w !! output = Some (Activation v gr) ∧ n = length (tensors w) ∧
            w' = World (generator w) (params w)
                   (tensors w ++ [Scalar l (Some (gr, c, y))]) (stdout w).
Proof. cbn [handle]. repeat case_match; intros [= <- <-]; eauto 10. Qed.

(** One training pass on any store, by cases on the stage that raises. *)
Lemma training_pass_outcome (w : world) (m : sequential) (c : criterion)
    (opt : optimizer) (x : matrix) (y : list nat) :
  let w1 := World (generator w)
              (on_params (param_group opt) (λ _, clear_grad) (params w))
              (tensors w) (stdout w) in
  let '(t, r, w') := exec (training_pass m c opt x y) w in
  match r with
  | inl _ => params w' = params w1
  | inr _ =>
      ∃ gr y',
        g_parameters gr = parameters m ∧
        params w' =
          on_params (param_group opt) (λ _, sgd_step (lr opt))
            (on_params (g_parameters gr) (accumulate gr c y') (params w1))
  end.
Proof.
  intros w1. unfold training_pass. run. rewrite handle_ZeroGrad. cbn iota. fold w1.
  destruct (handle (Forward m x) w1) as [[e2|output] w2] eqn:HF.
  { pose proof (handle_raises (Forward m x) w1 e2) as Hw2.
    rewrite HF in Hw2. cbn [fst snd] in Hw2. by rewrite (Hw2 eq_refl). }
  apply handle_Forward_store in HF as (v & θ & -> & ->).
  set (gr := Graph (arch m) (parameters m) θ x).
  destruct (handle (Criterion c _ y) _) as [[e3|loss] w3] eqn:HC.
  { match type of HC with handle ?ev ?w0 = _ =>
      pose proof (handle_raises ev w0 e3) as Hw3 end.
    rewrite HC in Hw3. cbn [fst snd] in Hw3. by rewrite (Hw3 eq_refl). }
  apply handle_Criterion_store in HC as (v' & gr' & l & Hout & -> & ->).
  cbn [tensors] in Hout. rewrite list_lookup_middle in Hout by done.
  injection Hout as <- <-.
  erewrite handle_Backward by (cbn [tensors]; by apply list_lookup_middle).
  cbn iota. rewrite handle_Step. cbn iota. cbn [params].
  by exists gr, y.
Qed.

(** X13. A training step that raises (a batch of the wrong width, a label
    that is no class) has updated no weight, but has already cleared the
    gradient buffers of the optimizer's parameters. *)
Theorem failed_step_keeps_weights (w : world) (m : sequential) (c : criterion)
    (opt : optimizer) (x : matrix) (y : list nat)
    (t : list called) (e : exn) (w' : world) :
  exec (training_pass m c opt x y) w = (t, inl e, w') →
  (∀ r, data <$> params w' !! r = data <$> params w !! r) ∧
  (∀ r, r ∈ param_group opt → cleared (grad_at w' r)).
Proof.
  intros Hex.
  pose proof (training_pass_outcome w m c opt x y) as Hout.
  rewrite Hex in Hout. cbn beta iota zeta in Hout. cbn [params] in Hout.
  split.
  - intros r. rewrite Hout, lookup_on_params.
    destruct (params w !! r) as [p|]; [|done]. cbn.
    by destruct (position r (param_group opt)).
  - intros r Hr. unfold grad_at. rewrite Hout.
    apply (zero_grad_clears w opt r Hr).
Qed.

End StepCells.

(** ** What training leaves alone *)

Section FrameFacts.
Context `{Torch}.
Local Open Scope R_scope.

Lemma keeps_parameter_ret {A} (r : ref) (a : A) : keeps_parameter r (Ret a).
Proof. by intros w. Qed.

Lemma keeps_parameter_raise {A} (r : ref) (e : exn) :
  keeps_parameter r (Raise e : prog A).
Proof. by intros w. Qed.

Lemma keeps_parameter_bind {A B} (r : ref) (p : prog A) (k : A → prog B) :
  keeps_parameter r p → (∀ a, keeps_parameter r (k a)) →
  keeps_parameter r (p ≫= k).
Proof.
  intros Hp Hk w. rewrite exec_bind. specialize (Hp w).
  destruct (exec p w) as [[t [e|a]] w1]; [done|]. specialize (Hk a w1).
  destruct (exec (k a) w1) as [[t2 r2] w2]. cbn [snd] in *. by rewrite Hk.
Qed.

(** A library call that leaves the parameters alone. *)
Lemma keeps_parameter_call {X} (r : ref) (e : event X) :
  (∀ w, params (handle e w).2 !! r = params w !! r) →
  keeps_parameter r (call e).
Proof.
  intros He w. rewrite exec_call. specialize (He w).
  by destruct (handle e w) as [[ex|x] w1].
Qed.

Lemma lookup_on_params_other (refs : list ref) (f : nat → parameter → parameter)
    (ps : list parameter) (r : ref) :
  r ∉ refs → on_params refs f ps !! r = ps !! r.
Proof.
  intros Hr. rewrite lookup_on_params, (position_None _ _ Hr).
  by destruct (ps !! r).
Qed.

Lemma keeps_parameter_training_pass (r : ref) (m : sequential) (c : criterion)
    (opt : optimizer) (x : matrix) (y : list nat) :
  r ∉ parameters m → r ∉ param_group opt →
  keeps_parameter r (training_pass m c opt x y).
Proof.
  intros Hm Hopt w. pose proof (training_pass_outcome w m c opt x y) as Hout.
  destruct (exec (training_pass m c opt x y) w) as [[t [e|loss]] w'];
    cbn beta iota zeta in Hout; cbn [params snd] in *.
  - by rewrite Hout, lookup_on_params_other.
  - destruct Hout as (gr & y' & Hgr & ->).
    rewrite lookup_on_params_other by done.
    rewrite lookup_on_params_other by (by rewrite Hgr).
    by rewrite lookup_on_params_other.
Qed.

Lemma keeps_parameter_batch_body (r : ref) (m : sequential) (c : criterion)
    (opt : optimizer) (acc : R) (b : batch) :
  r ∉ parameters m → r ∉ param_group opt →
  keeps_parameter r (batch_body m c opt acc b).
Proof.
  intros Hm Hopt. destruct b as [images labels]. unfold batch_body.
  apply keeps_parameter_bind.
  { destruct (view images); [apply keeps_parameter_ret | apply keeps_parameter_raise]. }
  intros x. apply keeps_parameter_bind; [by apply keeps_parameter_training_pass|].
  intros loss. apply keeps_parameter_bind; [|intros l; apply keeps_parameter_ret].
  apply keeps_parameter_call. intros w. cbn [handle]. by repeat case_match.
Qed.

Lemma keeps_parameter_for_each {A S} (r : ref) (body : S → A → prog S) (s : S)
    (l : list A) :
  (∀ s a, keeps_parameter r (body s a)) → keeps_parameter r (for_each body s l).
Proof.
  intros Hbody. revert s. induction l as [|a l IH]; intros s.
  - apply keeps_parameter_ret.
  - cbn [for_each]. apply keeps_parameter_bind; [apply Hbody | intros s'; apply IH].
Qed.

Lemma keeps_parameter_for_range (r : ref) (n : nat) (body : prog unit) :
  keeps_parameter r body → keeps_parameter r (for_range n body).
Proof.
  intros Hbody. induction n as [|n IH]; [apply keeps_parameter_ret|].
  cbn [for_range]. apply keeps_parameter_bind; [done | by intros []].
Qed.

Lemma keeps_parameter_epoch (r : ref) (m : sequential) (c : criterion)
    (opt : optimizer) (loader : DataLoader) :
  r ∉ parameters m → r ∉ param_group opt →
  keeps_parameter r (epoch m c opt loader).
Proof.
  intros Hm Hopt. unfold epoch. apply keeps_parameter_bind.
  { apply keeps_parameter_call. intros w. cbn [handle].
    by destruct (traverse loader (generator w)). }
  intros batches. apply keeps_parameter_bind.
  { apply keeps_parameter_for_each. intros acc b.
    by apply keeps_parameter_batch_body. }
  intros total. apply keeps_parameter_bind.
  { unfold true_div. case_decide; [apply keeps_parameter_raise | apply keeps_parameter_ret]. }
  intros mean. by apply keeps_parameter_call.
Qed.

(** X14. The training loop writes to the parameters of its model and of its
    optimizer and to no other: whatever the loader yields, and whether the
    loop completes or raises, every other parameter of the store keeps its
    value and its gradient buffer. *)
Theorem training_loop_touches_only_its_model (epochs : nat) (m : sequential)
    (c : criterion) (opt : optimizer) (loader : DataLoader) (w : world) (r : ref) :
  r ∉ parameters m → r ∉ param_group opt →
  params (exec (training_loop epochs m c opt loader) w).2 !! r = params w !! r.
Proof.
  intros Hm Hopt. revert w. unfold training_loop.
  induction epochs as [|n IH]; intros w; [done|].
  cbn [for_range]. rewrite exec_bind.
  pose proof (keeps_parameter_epoch r m c opt loader Hm Hopt w) as Hone.
  destruct (exec (epoch m c opt loader) w) as [[t1 [e|[]]] w1]; [exact Hone|].
  specialize (IH w1).
  destruct (exec (for_range n (epoch m c opt loader)) w1) as [[t2 r2] w2].
  cbn [snd] in *. by rewrite IH.
Qed.

(** X15. Cell 29 trains a model of its own: every parameter that was in the
    store before the cell ran (those of the model of cells 21 to 27, for
    one) is as it was, whatever the loader yields and whether the cell
    completes or raises. *)
Theorem cell_29_keeps_earlier_models (loader : DataLoader) (w : world) (r : ref) :
  (r < length (params w))%nat →
  params (exec (cell_29 loader) w).2 !! r = params w !! r.
Proof.
  intros Hr. unfold cell_29, train_from_scratch.
  rewrite exec_bind, exec_call, handle_NewSequential.
  set (m := (constructed cell_21_layers w).1).
  set (w1 := (constructed cell_21_layers w).2).
  assert (r ∉ parameters m) as Hm.
  { unfold m, constructed. cbn [fst parameters]. rewrite elem_of_seq. lia. }
  assert (params w1 !! r = params w !! r) as Hw1.
  { unfold w1, constructed. cbn [snd params]. by rewrite lookup_app_l. }
  pose proof (keeps_parameter_for_range r 5 _
                (keeps_parameter_epoch r m NLLLoss (SGD (parameters m) 0.003)
                   loader Hm Hm) w1) as Hloop.
  rewrite exec_bind. unfold training_loop.
  destruct (exec (for_range 5 _) w1) as [[t [e|[]]] w2];
    cbn [snd exec mret prog_ret] in *; by rewrite Hloop.
Qed.

End FrameFacts.

(** ** The two losses, cell by cell *)

Section TwoLosses.
Context `{Torch}.
Local Open Scope R_scope.

(** [nn.LogSoftmax] has no parameters. *)
Lemma init_parameters_app_log_softmax (layers : list layer) (g : G) :
  init_parameters (layers ++ [LogSoftmax]) g = init_parameters layers g.
Proof.
  revert g. induction layers as [|l layers IH]; intros g; [done|].
  destruct l as [i o| |]; cbn [init_parameters app]; [|apply IH..].
  destruct (draw_rows o i i g) as [W g1]. destruct (draws o i g1) as [b g2].
  by rewrite IH.
Qed.

(** Cell 5 on a loader of MNIST-shaped batches. *)
Lemma exec_cell_5 (loader : DataLoader) (w : world) :
  loader_ok 784 10 loader → len loader ≠ 0%nat →
  let w1 := (constructed cell_5_layers w).2 in
  let θ := (init_parameters cell_5_layers (generator w)).1 in
  ∃ t images labels x out l w',
    head (traverse loader (generator w1)).1 = Some (images, labels) ∧
    view images = Some x ∧
    forward cell_5_layers θ x = Some out ∧
    loss_value CrossEntropyLoss out labels = inr l ∧
    exec (cell_5 loader) w = (t, inr (S (length (tensors w))), w') ∧
    prints t = [ShowLoss l] ∧
    stdout w' = stdout w ++ [ShowLoss l] ∧
    params w' = params w1.
Proof.
  intros Hl Hne w1 θ.
  pose proof (holds_constructed cell_5_layers w) as Hw1. fold w1 θ in Hw1.
  set (m := (constructed cell_5_layers w).1) in *.
  destruct (first_batch_ok 784 10 loader (generator w1) Hl Hne)
    as ([images labels] & bs & Htr & Hb).
  destruct (view_batch_ok _ _ _ Hb) as (x & Hx & Hsx & Hlen & Hxne).
  cbn [fst snd] in *.
  assert (fits cell_5_layers (shape <$> θ) 784 = Some 10%nat) as Hfit
    by (unfold θ; by rewrite shape_init_parameters).
  destruct (forward_fits _ _ _ _ _ Hfit Hsx) as (out & Hout & Hso).
  assert (length out = length x) as Hlo.
  { apply (f_equal length) in Hso. unfold shape in Hso.
    by rewrite length_fmap, length_replicate in Hso. }
  destruct (loss_value_total CrossEntropyLoss out labels 10) as [l Hloss].
  { by rewrite Hlo. }
  { by rewrite Hlo. }
  { intros ->. by destruct x. }
  { apply Hb. }
  eexists _, images, labels, x, out, l, _.
  split_and!; [by rewrite Htr | done..| |shelve|shelve|shelve].
  unfold cell_5. rewrite exec_bind, exec_call, handle_NewSequential.
  fold m w1. rewrite exec_bind, exec_call, handle_Iter, Htr.
  cbn [fst snd first_batch head or_raise].
  rewrite bind_Ret, Hx. cbn [or_raise]. rewrite bind_Ret.
  rewrite exec_bind, exec_call.
  erewrite handle_Forward; [|cbn [params]; by apply read_data_holds|exact Hout].
  cbn [tensors params generator stdout].
  rewrite exec_bind, exec_call.
  erewrite handle_Criterion; [|cbn [tensors]; by apply list_lookup_middle|exact Hloss].
  cbn [tensors params generator stdout].
  rewrite exec_bind, exec_call.
  erewrite handle_Item by (cbn [tensors]; by apply list_lookup_middle).
  rewrite exec_bind, exec_call, handle_Print.
  cbn [tensors params generator stdout exec mret prog_ret fst snd].
  rewrite length_app. cbn [length]. rewrite Nat.add_1_r. reflexivity.
  Unshelve. all: reflexivity.
Qed.

(** X16. Cells 5 and 21 started from the same state of the generator draw
    the same initial weights and the same first batch, and the loss cell 5
    prints, the cross-entropy of the raw scores, is the loss cell 21
    computes, the negative log-likelihood of the log-normalised scores.
    It is not negative. *)
Theorem cells_5_and_21_same_loss (loader : DataLoader) (w : world) :
  loader_ok 784 10 loader → len loader ≠ 0%nat →
  ∃ t5 loss5 w5 t21 model loss21 w21 l,
    exec (cell_5 loader) w = (t5, inr loss5, w5) ∧
    exec (cell_21 loader) w = (t21, inr (model, loss21), w21) ∧
    prints t5 = [ShowLoss l] ∧
    scalar_value w21 loss21 = Some l ∧
    params w21 = params w5 ∧
    0 <= l.
Proof.
  intros Hl Hne.
  destruct (exec_cell_5 loader w Hl Hne)
    as (t5 & images & labels & x & out & l & w5 & Hb & Hx & Hout & Hloss & Hex5 & Hpr & _ & Hp5).
  destruct (exec_cell_21 loader w Hl Hne)
    as (t21 & images' & labels' & x' & out' & l' & Hb' & Hx' & Hout' & Hloss' & Hex21 & _).
  cbn zeta in *.
  assert (init_parameters cell_21_layers (generator w) =
          init_parameters cell_5_layers (generator w)) as Hinit
    by exact (init_parameters_app_log_softmax cell_5_layers (generator w)).
  assert (∀ θ x, forward cell_21_layers θ x =
                 log_softmax <$> forward cell_5_layers θ x) as Hforward
    by exact (forward_app_log_softmax cell_5_layers).
  assert ((constructed cell_21_layers w).2 = (constructed cell_5_layers w).2) as Hw1.
  { unfold constructed. by rewrite Hinit. }
  rewrite Hw1, Hb in Hb'. injection Hb' as <- <-.
  rewrite Hx in Hx'. injection Hx' as <-.
  rewrite Hinit, Hforward, Hout in Hout'.
  cbn in Hout'. injection Hout' as <-.
  rewrite loss_value_log_softmax, Hloss in Hloss'. injection Hloss' as <-.
  eexists t5, _, w5, t21, _, _, _, l.
  split_and!; [exact Hex5 | exact Hex21 | exact Hpr | | |].
  - unfold scalar_value. cbn [tensors].
    rewrite lookup_app_r by lia.
    by replace (S (length (tensors w)) - length (tensors w))%nat with 1%nat by lia.
  - cbn [params]. by rewrite Hp5, Hw1.
  - apply (loss_value_nonneg CrossEntropyLoss out labels l); [done | exact Hloss].
Qed.

End TwoLosses.


Local Open Scope R_scope.

(** ** The small instance at work *)

#[local] Existing Instance toy_torch.

Lemma toy_holds : holds toy_world toy_model toy_values.
Proof.
  split.
  - exact (NoDup_seq 0 2).
  - repeat constructor.
    + eexists. split; [reflexivity|]. by intros g0 [= <-].
    + eexists. split; [reflexivity|]. done.
Qed.

Lemma toy_batch_ok : batch_ok 2 2 toy_batch.
Proof. unfold batch_ok, toy_batch. cbn. split_and!; [done | | done |]; repeat constructor. Qed.

Lemma toy_loader_ok : loader_ok 2 2 toy_loader.
Proof.
  split; [by intros g|]. intros g. cbn. constructor; [apply toy_batch_ok | constructor].
Qed.

Lemma empty_loader_ok : loader_ok 2 2 empty_loader.
Proof. split; [by intros g|]. intros g. cbn. constructor. Qed.

(** One pass on the toy model makes the five calls and leaves the gradient
    of this batch in the buffer that held a stale one. *)
Example toy_training_pass :
  ∃ w',
    exec (H := toy_torch) (training_pass toy_model NLLLoss toy_optimizer [[1; 2]] [0%nat])
      toy_world =
    ([Called (ZeroGrad toy_optimizer) (); Called (Forward toy_model [[1; 2]]) 0%nat;
      Called (Criterion NLLLoss 0%nat [0%nat]) 1%nat; Called (Backward 1%nat) ();
      Called (Step toy_optimizer) ()],
     inr 1%nat, w') ∧
    grad_at w' 0%nat = Some [[0 + INR 0; 0 + INR 1]; [0 + INR 1; 0 + INR 2]].
Proof. eexists. split; reflexivity. Qed.

Lemma epoch_reports_mean_loss_witness :
  ∃ t w',
    exec (H := toy_torch) (epoch toy_model NLLLoss toy_optimizer toy_loader) toy_world =
      (t, inr (), w') ∧
    length (traversals t) = 1%nat ∧
    length (items t) = 1%nat ∧
    prints t = [TrainingLoss (foldl Rplus 0 (items t) / INR 1)] ∧
    stdout w' = [TrainingLoss (foldl Rplus 0 (items t) / INR 1)].
Proof.
  eexists _, _. split; [reflexivity|].
  apply (epoch_reports_mean_loss (H := toy_torch) toy_world toy_model NLLLoss
           toy_optimizer toy_loader); [intros g; reflexivity | reflexivity].
Defined.

Lemma zero_grad_clears_buffers_witness :
  let w0 := (handle (H := toy_torch) (ZeroGrad toy_optimizer) toy_world).2 in
  cleared (grad_at w0 0%nat) ∧
  cleared (grad_at (exec (call (Forward toy_model [[1; 2]])) w0).2 0%nat).
Proof.
  intros w0.
  destruct (zero_grad_clears_buffers (H := toy_torch) toy_world toy_optimizer 0%nat)
    as [Hnow Hlater]; [apply list_elem_of_here|].
  split; [exact Hnow|]. apply Hlater. repeat constructor.
Defined.


Lemma backward_accumulates_gradients_witness :
  (∃ g, grad_at (handle (H := toy_torch) (Backward 1%nat) toy_world_with_loss).2 0%nat =
        Some (pointwise Rplus [[5; 5]; [5; 5]] g)) ∧
  grad_at (exec (H := toy_torch)
             (training_pass toy_model NLLLoss toy_optimizer [[1; 2]] [0%nat])
             toy_world).2 <$> parameters toy_model =
    Some <$> gradients toy_layers toy_values [[1; 2]] NLLLoss [0%nat] ∧
  grad_at (handle (H := toy_torch) (Step toy_optimizer) toy_world).2 0%nat =
    grad_at toy_world 0%nat.
Proof.
  destruct (backward_accumulates_gradients (H := toy_torch)) as (Hadd & Hpass & Hframe).
  split_and!.
  - eexists.
    refine (Hadd toy_world_with_loss 1%nat _ _ NLLLoss [0%nat] 0%nat 0%nat
              (Param [[1; 0]; [0; 1]] (Some [[5; 5]; [5; 5]])) _ _ _ _);
      [reflexivity | exact (NoDup_seq 0 2) | reflexivity | reflexivity].
  - eapply (Hpass toy_world toy_model NLLLoss toy_optimizer [[1; 2]] [0%nat] toy_values);
      [exact toy_holds | reflexivity | reflexivity | reflexivity].
  - exact (Hframe _ (Step toy_optimizer) () toy_world 0%nat eq_refl eq_refl).
Defined.

Lemma sgd_step_subtracts_scaled_gradient_witness :
  (∃ d', params (handle (H := toy_torch) (Step toy_optimizer) toy_world).2 !! 0%nat =
           Some (Param d' (Some [[5; 5]; [5; 5]])) ∧
         d' !! 0%nat ≫= (.!! 0%nat) = Some (1 - 1 / 10 * 5)) ∧
  parameter_values
    (exec (H := toy_torch)
       (training_pass toy_model NLLLoss toy_optimizer [[1; 2]] [0%nat]) toy_world).2
    toy_model =
  Some (descend (1 / 10) toy_values
          (gradients toy_layers toy_values [[1; 2]] NLLLoss [0%nat])).
Proof.
  destruct (sgd_step_subtracts_scaled_gradient (H := toy_torch)) as (Hstep & Hpass).
  split.
  - destruct (Hstep toy_world toy_optimizer 0%nat
                (Param [[1; 0]; [0; 1]] (Some [[5; 5]; [5; 5]])) [[5; 5]; [5; 5]])
      as (d' & Hd' & _ & Hentry);
      [apply list_elem_of_here | reflexivity | reflexivity |].
    exists d'. split; [exact Hd'|]. apply (Hentry 0%nat 0%nat 1 5); reflexivity.
  - eapply (Hpass toy_world toy_model NLLLoss toy_optimizer [[1; 2]] [0%nat] toy_values);
      [exact toy_holds | reflexivity | reflexivity | reflexivity].
Defined.

Lemma training_loop_completes_witness :
  completes_all_traversals (H := toy_torch) 2 toy_model NLLLoss toy_optimizer
    toy_loader toy_world.
Proof.
  apply (training_loop_completes (H := toy_torch) 2 toy_world toy_model NLLLoss
           toy_optimizer toy_loader toy_values 2 2);
    [lia | discriminate | exact toy_holds | reflexivity | reflexivity
    | exact toy_loader_ok].
Defined.

(** C7, as stated, fails on a loader without batches: everything else is
    well formed, five epochs are asked for, and the loop does not return:
    the first division by [len(trainloader)] raises. *)
Lemma training_loop_empty_loader :
  (0 < 5)%nat ∧
  holds toy_world toy_model toy_values ∧
  param_group toy_optimizer = parameters toy_model ∧
  fits (arch toy_model) (shape <$> toy_values) 2 = Some 2%nat ∧
  loader_ok 2 2 empty_loader ∧
  exec (H := toy_torch) (training_loop 5 toy_model NLLLoss toy_optimizer empty_loader)
    toy_world =
    ([Called (Iter empty_loader) []], inl ZeroDivisionError, toy_world) ∧
  ¬ completes_all_traversals (H := toy_torch) 5 toy_model NLLLoss toy_optimizer
      empty_loader toy_world.
Proof.
  split_and!; [lia | exact toy_holds | reflexivity | reflexivity
              | exact empty_loader_ok | reflexivity |].
  intros (t & w' & Hex & _). discriminate Hex.
Qed.

Lemma running_loss_adds_loss_before_update_witness :
  ∃ l t w',
    loss_at toy_layers NLLLoss toy_values [[1; 2]] [0%nat] = Some l ∧
    exec (H := toy_torch) (batch_body toy_model NLLLoss toy_optimizer 3 toy_batch)
      toy_world = (t, inr (3 + l), w') ∧
    items t = [l] ∧
    parameter_values w' toy_model =
      Some (descend (1 / 10) toy_values
              (gradients toy_layers toy_values [[1; 2]] NLLLoss [0%nat])) ∧
    scalar_value (handle (H := toy_torch) (Step toy_optimizer) toy_world_with_loss).2 1%nat
      = Some l.
Proof.
  destruct (running_loss_adds_loss_before_update (H := toy_torch)) as (Hbody & Hframe).
  eexists.
  destruct (Hbody toy_world toy_model NLLLoss toy_optimizer 3 [[[[1; 2]]]] [0%nat]
              toy_values [[1; 2]] _ toy_holds eq_refl eq_refl eq_refl)
    as (t & w' & Hex & Hitems & Hvalues).
  exists t, w'. split_and!; [reflexivity | exact Hex | exact Hitems | exact Hvalues |].
  apply Hframe. reflexivity.
Defined.

(** ** The other instances at work *)

Close Scope R_scope.


Lemma toy_randperm_ok : randperm_ok toy_randperm.
Proof. intros g n. apply reverse_Permutation. Qed.

Lemma blank_image_pixels : length (concat (concat blank_image)) = 784.
Proof. reflexivity. Qed.

Lemma one_image_loader_ok : loader_ok 784 10 one_image_loader.
Proof.
  split; [done|]. intros g. constructor; [|constructor].
  split_and!; cbn [fst snd];
    [done | constructor; [exact blank_image_pixels | constructor] | done
    | constructor; [lia | constructor]].
Qed.

Lemma full_batch_ok : batch_ok 784 1 (replicate 64 blank_image, replicate 64 0).
Proof.
  split_and!; cbn [fst snd].
  - done.
  - apply Forall_replicate, blank_image_pixels.
  - by rewrite !length_replicate.
  - apply Forall_replicate. lia.
Qed.

Lemma wide_holds :
  holds wide_world wide_model (init_parameters wide_layers (generator toy_world)).1.
Proof. apply holds_constructed. Qed.

Lemma wide_fits :
  fits (arch wide_model)
    (shape <$> (init_parameters wide_layers (generator toy_world)).1) 784 = Some 1.
Proof. by rewrite shape_init_parameters. Qed.

Lemma training_step_stages_witness :
  (∃ output loss w',
     exec (training_pass toy_model NLLLoss toy_optimizer [[1; 2]]%R [0]) toy_world =
     ([Called (ZeroGrad toy_optimizer) (); Called (Forward toy_model [[1; 2]]%R) output;
       Called (Criterion NLLLoss output [0]) loss; Called (Backward loss) ();
       Called (Step toy_optimizer) ()],
      inr loss, w')) ∧
  (∃ t loss w' x output,
     exec (cells_26_27 wide_model NLLLoss (cell_24 wide_model) full_batch_loader)
       wide_world = (t, inr loss, w') ∧
     List.filter is_stage t =
     [Called (ZeroGrad (cell_24 wide_model)) (); Called (Forward wide_model x) output;
      Called (Criterion NLLLoss output (replicate 64 0)) loss; Called (Backward loss) ();
      Called (Step (cell_24 wide_model)) ()]).
Proof.
  destruct (training_step_stages (H := toy_torch)) as (Hpass & _ & Hdemo & _).
  split.
  - edestruct (Hpass toy_world toy_model NLLLoss toy_optimizer [[1; 2]]%R [0] toy_values)
      as (output & loss & Hex);
      [exact toy_holds | reflexivity | reflexivity | reflexivity |].
    exists output, loss. eexists. exact Hex.
  - destruct (Hdemo wide_world wide_model _ NLLLoss (cell_24 wide_model)
                full_batch_loader 1 1 [LogSoftmax] (replicate 64 blank_image)
                (replicate 64 0) wide_holds)
      as (t & loss & w' & x & output & Hex & _ & Hstages);
      [reflexivity | reflexivity | exact wide_fits | reflexivity | exact full_batch_ok
      | apply length_replicate |].
    exists t, loss, w', x, output. split; [exact Hex | exact Hstages].
Defined.

Lemma data_loader_len_witness :
  length (traverse (data_loader toy_randperm toy_dataset 2 true) (7 : @G toy_torch)).1 = 2.
Proof.
  destruct (data_loader_len toy_randperm toy_dataset 2 true (7 : @G toy_torch))
    as (-> & -> & _); [lia | exact toy_randperm_ok | reflexivity].
Defined.

Lemma data_loader_covers_dataset_witness :
  concat (examples_of <$>
    (traverse (data_loader toy_randperm toy_dataset 2 true) (7 : @G toy_torch)).1)
  ≡ₚ toy_dataset.
Proof.
  apply (data_loader_covers_dataset toy_randperm toy_dataset 2 true (7 : @G toy_torch));
    [lia | exact toy_randperm_ok].
Defined.

Lemma data_loader_batch_sizes_witness :
  Forall (λ b : batch, length b.2 = length b.1 ∧ 0 < length b.1 ≤ 2)
    (traverse (data_loader toy_randperm toy_dataset 2 true) (7 : @G toy_torch)).1.
Proof.
  apply (data_loader_batch_sizes toy_randperm toy_dataset 2 true (7 : @G toy_torch));
    [lia | exact toy_randperm_ok].
Defined.

Lemma transform_range_witness :
  Forall (Forall (Forall (λ v, (-1 <= v <= 1)%R))) (transform toy_picture).
Proof.
  apply (transform_range toy_picture). repeat constructor; lia.
Defined.

Lemma cell_29_on_cell_3_witness :
  ∃ t m w' (means : list R),
    exec (cell_29 (cell_3 toy_randperm [(blank_picture, 3)])) toy_world = (t, inr m, w') ∧
    length (forwarded t) = 5 ∧
    stdout w' = TrainingLoss <$> means ∧
    length means = 5.
Proof.
  destruct (cell_29_on_cell_3 toy_randperm [(blank_picture, 3)] toy_world)
    as (t & m & w' & means & Hex & Hfw & Hout & Hlen & _);
    [discriminate | exact toy_randperm_ok
    | constructor; [split; [reflexivity | cbn [snd]; lia] | constructor] |].
  exists t, m, w', means. split_and!; [exact Hex | exact Hfw | exact Hout | exact Hlen].
Defined.

Lemma x_grad_is_gradient_of_z_witness :
  ∃ g, derivable_pt_lim
         (λ t, AutogradCells.cell_14 (AutogradCells.cell_10
                 (AutogradCells.cell_9 [[1; t]; [3; 4]]%R))) 2 g.
Proof.
  destruct (x_grad_is_gradient_of_z [[1; 2]; [3; 4]]%R 0 1 2 eq_refl) as (g & _ & Hg).
  by exists g.
Defined.

Lemma cell_31_class_probabilities_witness :
  ∃ ps, (cell_31 wide_model one_image_loader wide_world).1 = inr [ps] ∧
        length ps = 1 ∧ sum_list ps = 1%R.
Proof.
  destruct (cell_31_class_probabilities wide_world wide_model _ one_image_loader 1 10
              wide_holds wide_fits)
    as (ps & Hex & Hlen & _ & Hsum);
    [reflexivity | lia | exact one_image_loader_ok | discriminate |].
  exists ps. rewrite Hex. split_and!; [reflexivity | exact Hlen | exact Hsum].
Defined.

Lemma cell_31_after_cell_29_witness :
  ∃ t model w' ps w'',
    exec (cell_29 one_image_loader) toy_world = (t, inr model, w') ∧
    cell_31 model one_image_loader w' = (inr [ps], w'') ∧
    length ps = 10 ∧ sum_list ps = 1%R.
Proof.
  destruct (cell_31_after_cell_29 one_image_loader toy_world)
    as (t & model & w' & ps & w'' & Hex & H31 & _ & Hlen & _ & Hsum);
    [exact one_image_loader_ok | discriminate |].
  exists t, model, w', ps, w''. split_and!; [exact Hex | exact H31 | exact Hlen | exact Hsum].
Defined.

Lemma resize_agrees_with_view_witness :
  resize_ 1 2 [[[[1; 2]]]]%R = view [[[[1; 2]]]]%R.
Proof.
  apply (resize_agrees_with_view 1 2 [[[[1; 2]]]]%R); [reflexivity | lia |].
  repeat constructor.
Defined.

Lemma cell_22_gradient_appears_witness :
  ∃ t w' g,
    exec (p ← cell_21 one_image_loader; cell_22 p.1 p.2) toy_world = (t, inr (), w') ∧
    prints t = [ShowTensor None; ShowTensor (Some g)].
Proof.
  destruct (cell_22_gradient_appears one_image_loader toy_world)
    as (t & w' & g & Hex & Hpr & _); [exact one_image_loader_ok | discriminate |].
  exists t, w', g. split; [exact Hex | exact Hpr].
Defined.

Lemma cells_26_27_update_witness :
  ∃ t loss w' initial gradient,
    exec (cells_26_27 wide_model NLLLoss (cell_24 wide_model) full_batch_loader)
      wide_world = (t, inr loss, w') ∧
    prints t = [ShowTensor (Some initial); ShowTensor (Some gradient);
                ShowTensor (Some (pointwise (λ a da, a - 0.01 * da)%R initial gradient))].
Proof.
  destruct (cells_26_27_update wide_world wide_model _ NLLLoss full_batch_loader 1 1
              [LogSoftmax] (replicate 64 blank_image) (replicate 64 0) wide_holds)
    as (t & loss & w' & x & initial & gradient & Hex & Hpr & _);
    [reflexivity | exact wide_fits | reflexivity | exact full_batch_ok
    | apply length_replicate |].
  exists t, loss, w', initial, gradient. split; [exact Hex | exact Hpr].
Defined.

Lemma failed_step_keeps_weights_witness :
  data <$> params (exec (training_pass toy_model NLLLoss toy_optimizer
                           [[1; 2]]%R [5]) toy_world).2 !! 0 =
  Some [[1; 0]; [0; 1]]%R.
Proof.
  destruct (failed_step_keeps_weights toy_world toy_model NLLLoss toy_optimizer
              [[1; 2]]%R [5] _ _ _ eq_refl) as [Hdata _].
  exact (Hdata 0).
Defined.

Lemma training_loop_touches_only_its_model_witness :
  params (exec (training_loop 2 toy_model NLLLoss toy_optimizer toy_loader)
            toy_world_3).2 !! 2 = Some (Param [[9]]%R (Some [[1]]%R)).
Proof.
  rewrite (training_loop_touches_only_its_model 2 toy_model NLLLoss toy_optimizer
             toy_loader toy_world_3 2); [reflexivity | |];
    cbn; rewrite !elem_of_cons, elem_of_nil; lia.
Defined.

Lemma cell_29_keeps_earlier_models_witness :
  params (exec (cell_29 one_image_loader) toy_world).2 !! 0 =
  Some (Param [[1; 0]; [0; 1]]%R (Some [[5; 5]; [5; 5]]%R)).
Proof.
  rewrite (cell_29_keeps_earlier_models one_image_loader toy_world 0);
    [reflexivity | cbn; lia].
Defined.

Lemma cells_5_and_21_same_loss_witness :
  ∃ t5 loss5 w5 t21 model loss21 w21 l,
    exec (cell_5 one_image_loader) toy_world = (t5, inr loss5, w5) ∧
    exec (cell_21 one_image_loader) toy_world = (t21, inr (model, loss21), w21) ∧
    prints t5 = [ShowLoss l] ∧ scalar_value w21 loss21 = Some l.
Proof.
  destruct (cells_5_and_21_same_loss one_image_loader toy_world)
    as (t5 & loss5 & w5 & t21 & model & loss21 & w21 & l & H5 & H21 & Hp & Hl & _);
    [exact one_image_loader_ok | discriminate |].
  exists t5, loss5, w5, t21, model, loss21, w21, l.
  split_and!; [exact H5 | exact H21 | exact Hp | exact Hl].
Defined.
